(** * Source-rewriting scripts of hahahahgo: a shallow embedding

    The repository holds three one-shot Python scripts that rewrite
    [LegacyBattleApp.jsx]:

    - [migrate_phase.py]: seven [re.subn] substitutions, after a backup;
    - [fix_functional_updates.py]: two [re.sub] substitutions whose
      replacement is a callback bumping a global counter, after a backup;
    - [replace_ui_components.py]: a line splice
      [lines[:3627] + [new_code] + lines[4196:]], without backup.

    Text is modelled as Python [str]: a list of Unicode code points.  The
    [re] engine is modelled as the backtracking matcher it is, for the
    constructs the patterns of the scripts use; the substitution loop
    follows CPython's [pattern_subx].  Files are modelled at two levels.
    At the text level a file system maps a path to the text [read()]
    returns and [write()] stores, and a run is its file operations.  At
    the byte level a disk maps a path to bytes: text mode decodes and
    encodes UTF-8 and translates newlines, and a run is every statement
    of the script, its [print]s included.  The text level is the byte
    level seen through text mode. *)

From Stdlib Require Import NArith Ascii String DecimalString Lia.
From stdpp Require Import gmap strings list.

(** ** Text *)

Abbreviation str := (list N).

(** Literals are written as UTF-8 text; [bytes_of] gives the bytes of a
    literal and [utf8_decode] their code points. *)
Definition bytes_of (s : string) : list N :=
  map N_of_ascii (list_ascii_of_string s).

Fixpoint utf8_decode (bs : list N) : str :=
  match bs with
  | [] => []
  | b0 :: t0 =>
      if (b0 <? 128)%N then b0 :: utf8_decode t0
      else if (b0 <? 224)%N then
        match t0 with
        | b1 :: t1 => ((b0 - 192) * 64 + (b1 - 128))%N :: utf8_decode t1
        | _ => []
        end
      else if (b0 <? 240)%N then
        match t0 with
        | b1 :: b2 :: t2 =>
            ((b0 - 224) * 4096 + (b1 - 128) * 64 + (b2 - 128))%N
              :: utf8_decode t2
        | _ => []
        end
      else
        match t0 with
        | b1 :: b2 :: b3 :: t3 =>
            ((b0 - 240) * 262144 + (b1 - 128) * 4096
              + (b2 - 128) * 64 + (b3 - 128))%N :: utf8_decode t3
        | _ => []
        end
  end.

Definition u (s : string) : str := utf8_decode (bytes_of s).
Arguments u _%_string.

(** The character before a position: [None] at the start of the text. *)
Definition last_of (prev : option N) (s : str) : option N :=
  match last s with
  | Some c => Some c
  | None => prev
  end.

(** [sub] occurs in [s] ([sub in s] of Python). *)
Fixpoint prefix_b (p s : str) : bool :=
  match p, s with
  | [], _ => true
  | a :: p', b :: s' => (a =? b)%N && prefix_b p' s'
  | _ :: _, [] => false
  end.

Fixpoint contains (sub s : str) : bool :=
  prefix_b sub s ||
  match s with
  | [] => false
  | _ :: s' => contains sub s'
  end.

(** ** Regular expressions: the fragment the scripts use *)

(** One-character sets: a literal, [\s], and [[^c]]. *)
Inductive cset : Type :=
| CChr (c : N)
| CSpace
| CNotChr (c : N).

Inductive regex : Type :=
| Eps
| One (a : cset)
| WordB                       (* \b *)
| Cat (r1 r2 : regex)
| Alt (r1 r2 : regex)         (* r1|r2, r1 tried first *)
| Star (a : cset)             (* a*, greedy *)
| Plus (a : cset)             (* a+, greedy *)
| Group (n : nat) (r : regex) (* the n-th capturing group *).

Fixpoint lit (s : str) : regex :=
  match s with
  | [] => Eps
  | c :: s' => Cat (One (CChr c)) (lit s')
  end.

Definition cats (rs : list regex) : regex := foldr Cat Eps rs.

(** A match object: the text of group 0 and the numbered groups. *)
Record match_obj : Type := MatchObj {
  m_text : str;
  m_groups : gmap nat str
}.

(** [m.group(n)] for n >= 1; [None] is Python's [None]. *)
Definition group (m : match_obj) (n : nat) : option str := m_groups m !! n.

(** [f'{x}'] of a group value: a group that took no part prints [None]. *)
Definition fmt (x : option str) : str :=
  match x with
  | Some s => s
  | None => u "None"
  end.

(** The Unicode database beyond ASCII ([str.isalnum] and [str.isspace] on
    the code points from 128 on) depends on the Python build: it is an
    interface, and the development holds for every instance. *)
Class UnicodeDB : Type := {
  uni_isalnum : N -> bool;
  uni_isspace : N -> bool
}.

(** The instance that knows no letter, digit or blank beyond ASCII; the
    concrete runs below only need it on ASCII text. *)
Definition ascii_db : UnicodeDB :=
  {| uni_isalnum := fun _ => false; uni_isspace := fun _ => false |}.

Section Engine.
Context `{db : UnicodeDB}.

Definition ascii_isalnum (c : N) : bool :=
  ((48 <=? c) && (c <=? 57) || (65 <=? c) && (c <=? 90)
   || (97 <=? c) && (c <=? 122))%N.

Definition ascii_isspace (c : N) : bool :=
  ((9 <=? c) && (c <=? 13) || (28 <=? c) && (c <=? 31) || (c =? 32))%N.

(** [\w] and [\s] of a [str] pattern: a letter, a digit or [_]; a
    character [str.isspace] accepts -- in ASCII the blank, [\t \n \v \f \r]
    and the separators 28 to 31. *)
Definition is_word (c : N) : bool :=
  if (c <? 128)%N then ascii_isalnum c || (c =? 95)%N else uni_isalnum c.

Definition is_space (c : N) : bool :=
  if (c <? 128)%N then ascii_isspace c else uni_isspace c.

Definition in_cset (a : cset) (c : N) : bool :=
  match a with
  | CChr x => (c =? x)%N
  | CSpace => is_space c
  | CNotChr x => negb (c =? x)%N
  end.

(** [\b]: exactly one of the two neighbours is a word character; a
    missing neighbour counts as a non-word character. *)
Definition word_before (prev : option N) : bool :=
  match prev with
  | Some c => is_word c
  | None => false
  end.

Definition word_here (s : str) : bool :=
  match s with
  | c :: _ => is_word c
  | [] => false
  end.

Definition at_boundary (prev : option N) (s : str) : bool :=
  negb (eqb (word_before prev) (word_here s)).

(** The state of a match attempt: the character before the position,
    the characters matched so far (last one first), the text from the
    position on, and the groups closed so far. *)
Definition kont (A : Type) : Type :=
  option N -> str -> str -> gmap nat str -> option A.

(** Greedy repetition of a one-character set: take one more character
    first, give it back when the rest of the pattern fails. *)
Fixpoint rep {A} (a : cset) (prev : option N) (acc s : str)
    (k : option N -> str -> str -> option A) : option A :=
  match s with
  | c :: s' =>
      if in_cset a c then
        match rep a (Some c) (c :: acc) s' k with
        | Some x => Some x
        | None => k prev acc s
        end
      else k prev acc s
  | [] => k prev acc s
  end.

(** The backtracking matcher, in continuation-passing style: [k] is the
    rest of the pattern; [None] makes the caller try its next choice. *)
Fixpoint exec {A} (r : regex) (prev : option N) (acc s : str)
    (gs : gmap nat str) (k : kont A) : option A :=
  match r with
  | Eps => k prev acc s gs
  | One a =>
      match s with
      | c :: s' => if in_cset a c then k (Some c) (c :: acc) s' gs else None
      | [] => None
      end
  | WordB => if at_boundary prev s then k prev acc s gs else None
  | Cat r1 r2 =>
      exec r1 prev acc s gs (fun p' a' s' g' => exec r2 p' a' s' g' k)
  | Alt r1 r2 =>
      match exec r1 prev acc s gs k with
      | Some x => Some x
      | None => exec r2 prev acc s gs k
      end
  | Star a => rep a prev acc s (fun p' a' s' => k p' a' s' gs)
  | Plus a =>
      match s with
      | c :: s' =>
          if in_cset a c
          then rep a (Some c) (c :: acc) s' (fun p' a' s' => k p' a' s' gs)
          else None
      | [] => None
      end
  | Group n r1 =>
      exec r1 prev acc s gs
        (fun p' a' s' g' =>
           k p' a' s' (<[n := rev (take (length a' - length acc) a')]> g'))
  end.

(** A match attempt at one position.  With [must_advance] an empty match
    is refused (the engine then backtracks into a longer one). *)
Definition match_here (r : regex) (must_advance : bool)
    (prev : option N) (s : str) : option match_obj :=
  exec r prev [] s ∅
    (fun _ a' _ g' =>
       match must_advance, a' with
       | true, [] => None
       | _, _ => Some (MatchObj (rev a') g')
       end).

(** [pattern.match(text, i)]: a match attempt at index [i] of [text]. *)
Definition match_at (r : regex) (text : str) (i : nat) : option match_obj :=
  match_here r false (last (take i text)) (drop i text).

(** [pattern.search]: the first position with a match, from a position
    whose previous character is [prev]. *)
Fixpoint search (r : regex) (prev : option N) (s : str)
    : option (nat * match_obj) :=
  match match_here r false prev s with
  | Some m => Some (0, m)
  | None =>
      match s with
      | [] => None
      | c :: s' =>
          match search r (Some c) s' with
          | Some (i, m) => Some (S i, m)
          | None => None
          end
      end
  end.

(** Two syntactic checks used to bound what a pattern can reach: some
    one-character set of the pattern accepts [c]; the pattern has a [\b]. *)
Fixpoint may_take (r : regex) (c : N) : bool :=
  match r with
  | Eps | WordB => false
  | One a | Star a | Plus a => in_cset a c
  | Cat r1 r2 | Alt r1 r2 => may_take r1 c || may_take r2 c
  | Group _ r1 => may_take r1 c
  end.

Fixpoint has_wordb (r : regex) : bool :=
  match r with
  | WordB => true
  | Eps | One _ | Star _ | Plus _ => false
  | Cat r1 r2 | Alt r1 r2 => has_wordb r1 || has_wordb r2
  | Group _ r1 => has_wordb r1
  end.

(** ** The substitution loop

    [G] is the state a replacement callback may update (the global
    [changes] of fix_functional_updates.py); a template replacement
    leaves it alone. *)
Section Sub.
Context {G : Type}.
Variable r : regex.
Variable repl : match_obj -> G -> str * G.

(** What one position contributes: the text emitted, the number of
    characters of the input consumed, the number of matches, the state.
    After an empty match the loop stops at the end of the text and
    otherwise searches again from the same position with
    [must_advance]. *)
Definition attempt (prev : option N) (s : str) (g : G)
    : str * nat * nat * G :=
  match match_here r false prev s with
  | None => ([], 0, 0, g)
  | Some m =>
      let '(out1, g1) := repl m g in
      match length (m_text m) with
      | S _ => (out1, length (m_text m), 1, g1)
      | O =>
          match s with
          | [] => (out1, 0, 1, g1)
          | _ :: _ =>
              match match_here r true prev s with
              | None => (out1, 0, 1, g1)
              | Some m2 =>
                  let '(out2, g2) := repl m2 g1 in
                  (out1 ++ out2, length (m_text m2), 2, g2)
              end
          end
      end
  end.

(** The scan over the text.  [skip] counts the characters still covered
    by the last match; unmatched characters are copied. *)
Fixpoint scan (prev : option N) (s : str) (skip : nat) (g : G)
    : str * nat * G :=
  match skip with
  | S k =>
      match s with
      | [] => ([], 0, g)
      | c :: s' => scan (Some c) s' k g
      end
  | O =>
      let '(emit, len, n, g1) := attempt prev s g in
      match s with
      | [] => (emit, n, g1)
      | c :: s' =>
          match len with
          | O =>
              let '(o, n', g2) := scan (Some c) s' 0 g1 in
              (emit ++ c :: o, n + n', g2)
          | S k =>
              let '(o, n', g2) := scan (Some c) s' k g1 in
              (emit ++ o, n + n', g2)
          end
      end
  end.

End Sub.

(** A template without backslashes (all templates of migrate_phase.py)
    stands for itself. *)
Definition template_repl (template : str) (_ : match_obj) (g : unit)
    : str * unit := (template, g).

(** The loop of [re.subn] from a position whose previous character is
    [prev]: the new text and the number of substitutions. *)
Definition subn_from (r : regex) (template : str) (prev : option N)
    (s : str) : str * nat :=
  let '(out, n, _) := scan r (template_repl template) prev s 0 tt in
  (out, n).

(** [re.subn(pattern, template, string)] *)
Definition re_subn (r : regex) (template : str) (s : str) : str * nat :=
  subn_from r template None s.

(** The loop of [re.sub] with a callback that threads the globals, from a
    position whose previous character is [prev]. *)
Definition sub_from {G} (r : regex) (callback : match_obj -> G -> str * G)
    (prev : option N) (s : str) (g : G) : str * G :=
  let '(out, _, g') := scan r callback prev s 0 g in
  (out, g').

(** [re.sub(pattern, callback, string)] *)
Definition re_sub {G} (r : regex) (callback : match_obj -> G -> str * G)
    (s : str) (g : G) : str * G :=
  sub_from r callback None s g.

End Engine.

(** ** Rules and rule sets, in the words of the specification

    A rule maps a buffer to the new buffer and its change count; a rule
    set applies its rules in order, each to the buffer the previous one
    produced, and collects the counts. *)
Definition rule : Type := str -> str * nat.

Definition regex_rule `{db : UnicodeDB} (pattern : regex) (template : str) : rule :=
  re_subn pattern template.

Fixpoint apply_rules (rules : list rule) (buf : str) : str * list nat :=
  match rules with
  | [] => (buf, [])
  | R :: rest =>
      let '(buf1, n) := R buf in
      let '(buf2, ns) := apply_rules rest buf1 in
      (buf2, n :: ns)
  end.

(** The line-range rule of the specification: the lines before [start]
    (1-indexed), the block as one element, the lines from [stop] on. *)
Definition line_range_rule {A} (start stop : nat) (block : A)
    (lines : list A) : list A :=
  take (start - 1) lines ++ [block] ++ drop (stop - 1) lines.

(** ** Files

    [with open(p, 'r') as f: f.read()] and
    [with open(p, 'w') as f: f.write(text)] either complete or raise; an
    exception ends the script.  How the n-th I/O operation of a run fares
    is given by the environment. *)
Inductive outcome : Type :=
| Completes            (* the operation runs to its end *)
| Refused              (* open() raises: nothing is touched *)
| Cut (n : nat)        (* the file was opened; a write raises after n
                          characters reached it; a read raises *).

Inductive event : Type :=
| EvRead (p : string) (ok : bool)
| EvWrite (p : string) (stored : str) (ok : bool)
| EvRefused (p : string).

Record world : Type := World {
  files : gmap string str;
  trace : list event
}.

Inductive res (A : Type) : Type :=
| Ret (a : A)
| Raised.
Arguments Ret {A} a.
Arguments Raised {A}.

Definition io (A : Type) : Type := world -> world * res A.

(** [io] with stdpp's monad notations: [x ← m; k] runs [m] and hands its
    value to [k]; an exception skips the rest. *)
#[export] Instance io_ret : MRet io := fun A (a : A) (w : world) => (w, Ret a).

#[export] Instance io_bind : MBind io :=
  fun A B (k : A -> io B) (m : io A) (w : world) =>
    match m w with
    | (w', Ret a) => k a w'
    | (w', Raised) => (w', Raised)
    end.

Section IO.
Variable env : nat -> outcome.

Definition log (e : event) (w : world) : world :=
  World (files w) (trace w ++ [e]).

Definition read_text (p : string) : io str :=
  fun w =>
    match env (length (trace w)), files w !! p with
    | Completes, Some text => (log (EvRead p true) w, Ret text)
    | _, _ => (log (EvRead p false) w, Raised)
    end.

Definition write_text (p : string) (text : str) : io unit :=
  fun w =>
    match env (length (trace w)) with
    | Completes =>
        (World (<[p := text]> (files w)) (trace w ++ [EvWrite p text true]),
         Ret tt)
    | Refused => (log (EvRefused p) w, Raised)
    | Cut n =>
        (World (<[p := take n text]> (files w))
           (trace w ++ [EvWrite p (take n text) false]),
         Raised)
    end.

(** [f.readlines()]: the lines of the text, each with its newline. *)
Fixpoint text_lines (s : str) : list str :=
  match s with
  | [] => []
  | c :: s' =>
      if (c =? 10)%N then [c] :: text_lines s'
      else
        match text_lines s' with
        | [] => [[c]]
        | l :: ls => (c :: l) :: ls
        end
  end.

Definition readlines (p : string) : io (list str) :=
  text ← read_text p; mret (text_lines text).

(** [f.writelines(lines)] *)
Definition writelines (p : string) (lines : list str) : io unit :=
  write_text p (concat lines).

End IO.

Definition file_path : string :=
  "Z:\바이브코딩\memory bank\hahahahgo\src\components\battle\LegacyBattleApp.jsx".

(** ** migrate_phase.py *)
Module MigratePhase.

Definition backup_path : string := file_path +:+ ".phase_backup".

Definition pattern1 : regex := cats [WordB; lit (u "setPhase(")].
Definition replacement1 : str := u "actions.setPhase(".

Definition pattern2 : regex :=
  cats [WordB; lit (u "phase"); Star CSpace; lit (u "===")].
Definition replacement2 : str := u "battle.phase ===".

Definition pattern3 : regex :=
  cats [WordB; lit (u "phase"); Star CSpace; lit (u "!==")].
Definition replacement3 : str := u "battle.phase !==".

Definition pattern4 : regex :=
  cats [lit (u "("); Star CSpace; lit (u "phase"); WordB].
Definition replacement4 : str := u "(battle.phase".

Definition pattern5 : regex :=
  cats [lit (u ","); Star CSpace; lit (u "phase"); WordB].
Definition replacement5 : str := u ", battle.phase".

Definition pattern6 : regex :=
  cats [lit (u "{"); Star CSpace; lit (u "phase"); WordB].
Definition replacement6 : str := u "{ battle.phase".

Definition pattern7 : regex :=
  cats [lit (u "["); Star CSpace; lit (u "phase"); WordB].
Definition replacement7 : str := u "[battle.phase".

Section Script.
Context `{db : UnicodeDB}.
Variable env : nat -> outcome.

(** Lines 23-75: the seven substitutions; the counts printed and their
    total [changes]. *)
Definition substitutions (content : str) : str * list nat * nat :=
  let changes := 0 in
  let '(content, count1) := re_subn pattern1 replacement1 content in
  let changes := changes + count1 in
  let '(content, count2) := re_subn pattern2 replacement2 content in
  let changes := changes + count2 in
  let '(content, count3) := re_subn pattern3 replacement3 content in
  let changes := changes + count3 in
  let '(content, count4) := re_subn pattern4 replacement4 content in
  let changes := changes + count4 in
  let '(content, count5) := re_subn pattern5 replacement5 content in
  let changes := changes + count5 in
  let '(content, count6) := re_subn pattern6 replacement6 content in
  let changes := changes + count6 in
  let '(content, count7) := re_subn pattern7 replacement7 content in
  let changes := changes + count7 in
  (content, [count1; count2; count3; count4; count5; count6; count7],
   changes).

(** The script: read, back up, substitute, save.  The result is what the
    script prints: the seven counts and the total. *)
Definition main : io (list nat * nat) :=
  content ← read_text env file_path;
  write_text env backup_path content;;
  let '(content', counts, changes) := substitutions content in
  write_text env file_path content';;
  mret (counts, changes).

End Script.

(** The seven substitutions as a rule set. *)
Definition rules `{db : UnicodeDB} : list rule :=
  [regex_rule pattern1 replacement1; regex_rule pattern2 replacement2;
   regex_rule pattern3 replacement3; regex_rule pattern4 replacement4;
   regex_rule pattern5 replacement5; regex_rule pattern6 replacement6;
   regex_rule pattern7 replacement7].

End MigratePhase.

(** ** fix_functional_updates.py *)
Module FixFunctionalUpdates.

Definition backup_path : string := file_path +:+ ".func_update_backup".

Definition pattern1 : regex :=
  cats [lit (u "actions.setPlayer("); Star CSpace;
        Alt (lit (u "prev")) (lit (u "p")); Star CSpace; lit (u "=>");
        Star CSpace; lit (u "({"); Star CSpace; lit (u "...");
        Alt (lit (u "prev")) (lit (u "p")); lit (u ","); Star CSpace;
        Group 1 (Plus (CNotChr 125)); lit (u "})"); Star CSpace;
        lit (u ")")].

(** The callback: [changes] is the global it increments. *)
Definition replace1 (m : match_obj) (changes : nat) : str * nat :=
  let changes := changes + 1 in
  let fields := group m 1 in
  (u "actions.setPlayer({ ...player, " ++ fmt fields ++ u "})", changes).

Definition pattern2 : regex :=
  cats [lit (u "actions.setEnemy("); Star CSpace;
        Alt (lit (u "prev")) (lit (u "e")); Star CSpace; lit (u "=>");
        Star CSpace; lit (u "({"); Star CSpace; lit (u "...");
        Alt (lit (u "prev")) (lit (u "e")); lit (u ","); Star CSpace;
        Group 1 (Plus (CNotChr 125)); lit (u "})"); Star CSpace;
        lit (u ")")].

Definition replace2 (m : match_obj) (changes : nat) : str * nat :=
  let changes := changes + 1 in
  let fields := group m 1 in
  (u "actions.setEnemy({ ...enemy, " ++ fmt fields ++ u "})", changes).

Section Script.
Context `{db : UnicodeDB}.
Variable env : nat -> outcome.

(** Lines 26-59: the two substitutions; the numbers printed are
    [changes] after the first, [changes - changes_before] after the
    second, and the final [changes]. *)
Definition substitutions (content : str) : str * (nat * Z * nat) :=
  let changes := 0 in
  let '(content, changes) := re_sub pattern1 replace1 content changes in
  let printed1 := changes in
  let changes_before := changes in
  let '(content, changes) := re_sub pattern2 replace2 content changes in
  let printed2 := (Z.of_nat changes - Z.of_nat changes_before)%Z in
  (content, (printed1, printed2, changes)).

Definition main : io (nat * Z * nat) :=
  content ← read_text env file_path;
  write_text env backup_path content;;
  let '(content', report) := substitutions content in
  write_text env file_path content';;
  mret report.

End Script.
End FixFunctionalUpdates.

(** ** replace_ui_components.py *)
Module ReplaceUiComponents.

Definition dq : str := [34%N].

(** The block of lines 9-106 of the script, one string. *)
Definition new_code : str :=
  concat (map (fun l => l ++ [10%N]) [
    u "        {/* 플레이어/적 정보 + 중앙 정보 통합 레이아웃 */}";
    u "        <div style={{ display: 'flex', alignItems: 'flex-start', justifyContent: 'flex-end', marginBottom: '50px', gap: '120px', position: 'relative', marginTop: '40px', paddingRight: '40px' }}>";
    u "          <EtherComparisonBar";
    u "            battle={battle}";
    u "            etherFinalValue={etherFinalValue}";
    u "            enemyEtherFinalValue={enemyEtherFinalValue}";
    u "            netFinalEther={netFinalEther}";
    u "            position=" ++ dq ++ u "top" ++ dq;
    u "          />";
    [];
    u "          {/* 왼쪽: 플레이어 */}";
    u "          <div style={{ display: 'flex', flexDirection: 'column', alignItems: 'flex-start', gap: '12px', minWidth: '360px', position: 'relative', justifyContent: 'flex-end', paddingTop: '200px' }}>";
    u "            <PlayerEtherBox";
    u "              currentCombo={currentCombo}";
    u "              battle={battle}";
    u "              currentDeflation={currentDeflation}";
    u "              etherCalcPhase={etherCalcPhase}";
    u "              turnEtherAccumulated={turnEtherAccumulated}";
    u "              etherPulse={etherPulse}";
    u "              finalComboMultiplier={finalComboMultiplier}";
    u "              multiplierPulse={multiplierPulse}";
    u "            />";
    u "            <PlayerHpBar";
    u "              player={player}";
    u "              playerHit={playerHit}";
    u "              playerBlockAnim={playerBlockAnim}";
    u "              playerOverdriveFlash={playerOverdriveFlash}";
    u "              effectiveAgility={effectiveAgility}";
    u "              dulledLevel={dulledLevel}";
    u "            />";
    u "          </div>";
    [];
    u "          <CentralPhaseDisplay";
    u "            battle={battle}";
    u "            totalSpeed={totalSpeed}";
    u "            MAX_SPEED={MAX_SPEED}";
    u "            MAX_SUBMIT_CARDS={MAX_SUBMIT_CARDS}";
    u "            redrawHand={redrawHand}";
    u "            canRedraw={canRedraw}";
    u "            startResolve={startResolve}";
    u "            playSound={playSound}";
    u "            actions={actions}";
    u "            willOverdrive={willOverdrive}";
    u "            etherSlots={etherSlots}";
    u "            player={player}";
    u "            beginResolveFromRespond={beginResolveFromRespond}";
    u "            rewindToSelect={rewindToSelect}";
    u "            rewindUsed={rewindUsed}";
    u "            respondSnapshot={respondSnapshot}";
    u "            autoProgress={autoProgress}";
    u "            etherFinalValue={etherFinalValue}";
    u "            enemy={enemy}";
    u "            finishTurn={finishTurn}";
    u "          />";
    [];
    u "          <EtherComparisonBar";
    u "            battle={battle}";
    u "            etherFinalValue={etherFinalValue}";
    u "            enemyEtherFinalValue={enemyEtherFinalValue}";
    u "            netFinalEther={netFinalEther}";
    u "            position=" ++ dq ++ u "bottom" ++ dq;
    u "          />";
    [];
    u "          {/* 오른쪽: 적 */}";
    u "          <div style={{ display: 'flex', flexDirection: 'column', alignItems: 'flex-end', gap: '12px', minWidth: '360px', position: 'relative', justifyContent: 'center', paddingTop: '120px' }}>";
    u "            {soulShatter && (";
    u "              <div className=" ++ dq ++ u "soul-shatter-banner" ++ dq ++ u ">";
    u "                <div className=" ++ dq ++ u "soul-shatter-text" ++ dq ++ u ">영혼파괴!</div>";
    u "              </div>";
    u "            )}";
    u "            <EnemyEtherBox";
    u "              enemyCombo={enemyCombo}";
    u "              battle={battle}";
    u "              insightReveal={insightReveal}";
    u "              enemyCurrentDeflation={enemyCurrentDeflation}";
    u "              enemyEtherCalcPhase={enemyEtherCalcPhase}";
    u "              enemyTurnEtherAccumulated={enemyTurnEtherAccumulated}";
    u "              COMBO_MULTIPLIERS={COMBO_MULTIPLIERS}";
    u "            />";
    u "            <EnemyHpBar";
    u "              battle={battle}";
    u "              previewDamage={previewDamage}";
    u "              dulledLevel={dulledLevel}";
    u "              enemy={enemy}";
    u "              enemyHit={enemyHit}";
    u "              enemyBlockAnim={enemyBlockAnim}";
    u "              soulShatter={soulShatter}";
    u "              groupedEnemyMembers={groupedEnemyMembers}";
    u "              enemyOverdriveFlash={enemyOverdriveFlash}";
    u "              enemyEtherValue={enemyEtherValue}";
    u "              enemyTransferPulse={enemyTransferPulse}";
    u "              enemySoulScale={enemySoulScale}";
    u "              formatCompactValue={formatCompactValue}";
    u "            />";
    u "          </div>";
    u "        </div>";
    u "      </div>"
  ]).

(** Line 114. *)
Definition new_lines (lines : list str) : list str :=
  take 3627 lines ++ [new_code] ++ drop 4196 lines.

Section Script.
Variable env : nat -> outcome.

(** The script: read the lines, splice, write.  The result is what the
    script prints: the two lengths and their difference. *)
Definition main : io (nat * nat * Z) :=
  lines ← readlines env file_path;
  let new_lines := new_lines lines in
  writelines env file_path new_lines;;
  mret (length lines, length new_lines,
       (Z.of_nat (length lines) - Z.of_nat (length new_lines))%Z).

End Script.
End ReplaceUiComponents.

(** ** Properties of runs

    A run starts from a file system [fs] with an empty trace and ends in a
    world [w]. *)

(** The worlds in which a run that reads [file_path], writes what it read
    to [bpath] and then writes a new text to [file_path] can end: the
    read fails; the backup is refused or cut; the save is refused or cut;
    all three complete. *)
Inductive guarded_run (fs : gmap string str) (bpath : string)
    : world -> Prop :=
| RunReadFailed :
    guarded_run fs bpath (World fs [EvRead file_path false])
| RunBackupRefused (content : str) :
    fs !! file_path = Some content ->
    guarded_run fs bpath
      (World fs [EvRead file_path true; EvRefused bpath])
| RunBackupCut (content : str) (n : nat) :
    fs !! file_path = Some content ->
    guarded_run fs bpath
      (World (<[bpath := take n content]> fs)
         [EvRead file_path true; EvWrite bpath (take n content) false])
| RunSaveRefused (content : str) :
    fs !! file_path = Some content ->
    guarded_run fs bpath
      (World (<[bpath := content]> fs)
         [EvRead file_path true; EvWrite bpath content true;
          EvRefused file_path])
| RunSaveCut (content content' : str) (n : nat) :
    fs !! file_path = Some content ->
    guarded_run fs bpath
      (World (<[file_path := take n content']> (<[bpath := content]> fs))
         [EvRead file_path true; EvWrite bpath content true;
          EvWrite file_path (take n content') false])
| RunDone (content content' : str) :
    fs !! file_path = Some content ->
    guarded_run fs bpath
      (World (<[file_path := content']> (<[bpath := content]> fs))
         [EvRead file_path true; EvWrite bpath content true;
          EvWrite file_path content' true]).

(** If the text at [file_path] is no longer what it was, a completed
    backup with the old text was made before anything was written to
    [file_path], and is in place at the end. *)
Definition backup_precedes_mutation (fs : gmap string str) (bpath : string)
    (w : world) : Prop :=
  files w !! file_path <> fs !! file_path ->
  exists content : str,
    fs !! file_path = Some content
    /\ files w !! bpath = Some content
    /\ trace w !! 1 = Some (EvWrite bpath content true)
    /\ (forall j d ok, trace w !! j = Some (EvWrite file_path d ok) -> 1 < j).

(** Two worlds with the same history and the same text at
    [file_path]. *)
Definition agree (w1 w2 : world) : Prop :=
  trace w1 = trace w2 /\ files w1 !! file_path = files w2 !! file_path.

(** A program whose result, I/O and final text at [file_path] are the
    same in any two worlds that agree: nothing else of the world is
    looked at. *)
Definition depends_only_on_target {R} (prog : io R) : Prop :=
  forall w1 w2 : world,
    agree w1 w2 ->
    agree (prog w1).1 (prog w2).1 /\ (prog w1).2 = (prog w2).2.

(** Two runs of a program, from the file systems [fs1] and [fs2], end
    with the same result, the same I/O (with the texts written) and the
    same text at [file_path]. *)
Definition same_run {R} (prog : io R) (fs1 fs2 : gmap string str) : Prop :=
  (prog (World fs1 [])).2 = (prog (World fs2 [])).2
  /\ trace (prog (World fs1 [])).1 = trace (prog (World fs2 [])).1
  /\ files (prog (World fs1 [])).1 !! file_path
     = files (prog (World fs2 [])).1 !! file_path.

(** An environment without faults. *)
Definition no_faults : nat -> outcome := fun _ => Completes.

(** ** Further notions for the statements about the scripts *)

(** A callback that adds one to its counter at each call, as [replace1]
    and [replace2] do with the global [changes]. *)
Definition bumps_counter (cb : match_obj -> nat -> str * nat) : Prop :=
  forall m g, (cb m g).2 = g + 1.

(** The two shapes of the patterns 2 to 7 of migrate_phase.py:
    [\bphase\s*] before an operator, and an opening character before
    [\s*phase\b]. *)
Definition phase_then (op : str) : regex :=
  cats [WordB; lit (u "phase"); Star CSpace; lit op].

Definition opener_then_phase (o : N) : regex :=
  cats [lit [o]; Star CSpace; lit (u "phase"); WordB].

(** The rules 2 and 3, and the rules 4 to 7, of migrate_phase.py, each
    with what tells it apart: the operator, or the opening character. *)
Definition operator_rules : list (str * regex * str) :=
  [(u "===", MigratePhase.pattern2, MigratePhase.replacement2);
   (u "!==", MigratePhase.pattern3, MigratePhase.replacement3)].

Definition opener_rules : list (N * regex * str) :=
  [(40%N, MigratePhase.pattern4, MigratePhase.replacement4);
   (44%N, MigratePhase.pattern5, MigratePhase.replacement5);
   (123%N, MigratePhase.pattern6, MigratePhase.replacement6);
   (91%N, MigratePhase.pattern7, MigratePhase.replacement7)].

(** The text [s] does not go on with a character of the set [a]: a
    greedy repetition of [a] stops in front of it. *)
Definition run_ends `{db : UnicodeDB} (a : cset) (s : str) : Prop :=
  match s with
  | [] => True
  | c :: _ => in_cset a c = false
  end.

(** The shape of the two patterns of fix_functional_updates.py: the
    setter, a parameter [prev] or its short form, the arrow, the object
    with the parameter spread, the fields in group 1. *)
Definition update_pattern (setter short : str) : regex :=
  cats [lit setter; Star CSpace;
        Alt (lit (u "prev")) (lit short); Star CSpace; lit (u "=>");
        Star CSpace; lit (u "({"); Star CSpace; lit (u "...");
        Alt (lit (u "prev")) (lit short); lit (u ","); Star CSpace;
        Group 1 (Plus (CNotChr 125)); lit (u "})"); Star CSpace;
        lit (u ")")].

(** A call the patterns are made for, with its blanks: the two
    parameter names, the six runs of blanks, the fields. *)
Definition update_call (setter par1 par2 ws1 ws2 ws3 ws4 ws5 ws6 fields : str)
    : str :=
  setter ++ ws1 ++ par1 ++ ws2 ++ u "=>" ++ ws3 ++ u "({" ++ ws4 ++ u "..."
    ++ par2 ++ u "," ++ ws5 ++ fields ++ u "})" ++ ws6 ++ u ")".

(** The two rules of fix_functional_updates.py: setter, short parameter
    name, name of the state variable, pattern, callback. *)
Definition update_rules
    : list (str * str * str * regex * (match_obj -> nat -> str * nat)) :=
  [(u "actions.setPlayer(", u "p", u "player",
    FixFunctionalUpdates.pattern1, FixFunctionalUpdates.replace1);
   (u "actions.setEnemy(", u "e", u "enemy",
    FixFunctionalUpdates.pattern2, FixFunctionalUpdates.replace2)].

(** Lines as [readlines] gives them: a full line ends with its only
    newline; the last line of a text may be open, without newline. *)
Definition full_line (l : str) : Prop :=
  exists body : str, l = body ++ [10%N] /\ Forall (fun c => c <> 10%N) body.

Definition open_line (l : str) : Prop :=
  l <> [] /\ Forall (fun c => c <> 10%N) l.

Fixpoint lines_wf (ls : list str) : Prop :=
  match ls with
  | [] => True
  | l :: rest =>
      match rest with
      | [] => full_line l \/ open_line l
      | _ :: _ => full_line l /\ lines_wf rest
      end
  end.

(** ** Text-mode files on disk

    Below the text level: a file is a sequence of bytes.
    [open(p, 'r', encoding='utf-8')] decodes it as UTF-8, any malformed
    sequence raising, and - no [newline=] being given - turns every
    [CR LF] and every lone [CR] into [LF].  [open(p, 'w',
    encoding='utf-8')] empties the file, writes each [LF] as
    [os.linesep] and encodes as UTF-8. *)

(** A Unicode scalar value: a code point that is no surrogate. *)
Definition scalar (c : N) : bool :=
  ((c <? 55296) || (57344 <=? c) && (c <? 1114112))%N.

Definition utf8_encode_char (c : N) : option (list N) :=
  if (c <? 128)%N then Some [c]
  else if (c <? 2048)%N then Some [192 + c / 64; 128 + c mod 64]%N
  else if (c <? 65536)%N then
    if scalar c
    then Some [224 + c / 4096; 128 + (c / 64) mod 64; 128 + c mod 64]%N
    else None
  else if (c <? 1114112)%N then
    Some [240 + c / 262144; 128 + (c / 4096) mod 64;
          128 + (c / 64) mod 64; 128 + c mod 64]%N
  else None.

(** [text.encode('utf-8')]: [None] stands for [UnicodeEncodeError]. *)
Fixpoint utf8_encode (s : str) : option (list N) :=
  match s with
  | [] => Some []
  | c :: s' =>
      match utf8_encode_char c, utf8_encode s' with
      | Some bs, Some rest => Some (bs ++ rest)
      | _, _ => None
      end
  end.

(** A continuation byte. *)
Definition is_cont (b : N) : bool := ((128 <=? b) && (b <? 192))%N.

(** [bytes.decode('utf-8')], strict: no stray or missing continuation
    byte, no overlong form, no surrogate, nothing above U+10FFFF;
    [None] stands for [UnicodeDecodeError]. *)
Fixpoint utf8_decode_strict (bs : list N) : option str :=
  match bs with
  | [] => Some []
  | b0 :: t0 =>
      if (b0 <? 128)%N then cons b0 <$> utf8_decode_strict t0
      else if (b0 <? 192)%N then None
      else if (b0 <? 224)%N then
        match t0 with
        | b1 :: t1 =>
            let c := ((b0 - 192) * 64 + (b1 - 128))%N in
            if is_cont b1 && (128 <=? c)%N
            then cons c <$> utf8_decode_strict t1
            else None
        | _ => None
        end
      else if (b0 <? 240)%N then
        match t0 with
        | b1 :: b2 :: t2 =>
            let c := ((b0 - 224) * 4096 + (b1 - 128) * 64 + (b2 - 128))%N in
            if is_cont b1 && is_cont b2 && (2048 <=? c)%N && scalar c
            then cons c <$> utf8_decode_strict t2
            else None
        | _ => None
        end
      else if (b0 <? 248)%N then
        match t0 with
        | b1 :: b2 :: b3 :: t3 =>
            let c := ((b0 - 240) * 262144 + (b1 - 128) * 4096
                      + (b2 - 128) * 64 + (b3 - 128))%N in
            if is_cont b1 && is_cont b2 && is_cont b3
               && (65536 <=? c)%N && (c <? 1114112)%N
            then cons c <$> utf8_decode_strict t3
            else None
        | _ => None
        end
      else None
  end.

(** Universal newlines, on reading. *)
Fixpoint universal_newlines (s : str) : str :=
  match s with
  | [] => []
  | c :: s' =>
      if (c =? 13)%N then
        10%N :: match s' with
                | d :: s'' =>
                    if (d =? 10)%N then universal_newlines s''
                    else universal_newlines s'
                | [] => []
                end
      else c :: universal_newlines s'
  end.

Definition not_cr (c : N) : bool := negb (c =? 13)%N.

(** The translation on writing: [LF] becomes [linesep]. *)
Definition write_newlines (linesep : str) (s : str) : str :=
  concat (map (fun c => if (c =? 10)%N then linesep else [c]) s).

Definition decode_text (bs : list N) : option str :=
  universal_newlines <$> utf8_decode_strict bs.

Definition encode_text (linesep : str) (text : str) : option (list N) :=
  utf8_encode (write_newlines linesep text).

(** What a run depends on besides the disk and the faults: [os.linesep]
    and the characters the encoding of [sys.stdout] has ([print] raises
    [UnicodeEncodeError] on any other). *)
Record platform : Type := Platform {
  linesep : str;
  stdout_has : N -> bool
}.

(** [stdout] can take the line and the newline [print] adds. *)
Definition can_print (pf : platform) (line : str) : bool :=
  forallb (stdout_has pf) (line ++ [10%N]).

(** [os.linesep] is [LF] or [CR LF]. *)
Definition linesep_ok (pf : platform) : Prop :=
  linesep pf = [10%N] \/ linesep pf = [13%N; 10%N].

(** [str(n)] of an integer, as the f-strings print it. *)
Definition show_nat (n : nat) : str :=
  u (NilEmpty.string_of_uint (Nat.to_uint n)).

Definition show_int (z : Z) : str :=
  u (NilEmpty.string_of_int (Z.to_int z)).

(** The operations of a run, in order. *)
Inductive operation : Type :=
| OpRead (p : string) (ok : bool)
| OpWrite (p : string) (stored : list N) (ok : bool)
| OpRefused (p : string)
| OpPrint (line : str) (ok : bool).

Record machine : Type := Machine {
  disk : gmap string (list N);
  stdout : list str;
  history : list operation
}.

Definition job (A : Type) : Type := machine -> machine * res A.

#[export] Instance job_ret : MRet job :=
  fun A (a : A) (m : machine) => (m, Ret a).

#[export] Instance job_bind : MBind job :=
  fun A B (k : A -> job B) (j : job A) (m : machine) =>
    match j m with
    | (m', Ret a) => k a m'
    | (m', Raised) => (m', Raised)
    end.

Section Jobs.
Variable pf : platform.
Variable env : nat -> outcome.

Definition record (o : operation) (m : machine) : machine :=
  Machine (disk m) (stdout m) (history m ++ [o]).

Definition store (p : string) (bs : list N) (ok : bool) (m : machine)
    : machine :=
  Machine (<[p := bs]> (disk m)) (stdout m)
    (history m ++ [OpWrite p bs ok]).

(** [with open(p, 'r', encoding='utf-8') as f: f.read()] *)
Definition read_file (p : string) : job str :=
  fun m =>
    match env (length (history m)), disk m !! p with
    | Completes, Some bs =>
        match decode_text bs with
        | Some text => (record (OpRead p true) m, Ret text)
        | None => (record (OpRead p false) m, Raised)
        end
    | _, _ => (record (OpRead p false) m, Raised)
    end.

(** [with open(p, 'w', encoding='utf-8') as f: f.write(text)]: once
    opened, the file is empty; a text that cannot be encoded leaves it
    so. *)
Definition write_file (p : string) (text : str) : job unit :=
  fun m =>
    match env (length (history m)) with
    | Refused => (record (OpRefused p) m, Raised)
    | Completes =>
        match encode_text (linesep pf) text with
        | Some bs => (store p bs true m, Ret tt)
        | None => (store p [] false m, Raised)
        end
    | Cut n =>
        match encode_text (linesep pf) text with
        | Some bs => (store p (take n bs) false m, Raised)
        | None => (store p [] false m, Raised)
        end
    end.

(** [print(line)]: the line and a newline go to [stdout]. *)
Definition print (line : str) : job unit :=
  fun m =>
    match env (length (history m)), can_print pf line with
    | Completes, true =>
        (Machine (disk m) (stdout m ++ [line])
           (history m ++ [OpPrint line true]),
         Ret tt)
    | _, _ => (record (OpPrint line false) m, Raised)
    end.

(** The statements that follow the read, and their execution in
    order. *)
Inductive stmt : Type :=
| DoWrite (p : string) (text : str)
| DoPrint (line : str).

Definition exec_stmt (s : stmt) : job unit :=
  match s with
  | DoWrite p text => write_file p text
  | DoPrint line => print line
  end.

Fixpoint perform (ss : list stmt) : job unit :=
  match ss with
  | [] => mret tt
  | s :: rest => exec_stmt s;; perform rest
  end.

Section Scripts.
Context `{db : UnicodeDB}.

(** migrate_phase.py, statement by statement. *)
Definition migrate_phase_py : job unit :=
  content ← read_file file_path;
  write_file MigratePhase.backup_path content;;
  print (u "✅ 백업 생성: LegacyBattleApp.jsx.phase_backup");;
  let changes := 0 in
  let '(content, count1) :=
    re_subn MigratePhase.pattern1 MigratePhase.replacement1 content in
  let changes := changes + count1 in
  print (u "✅ setPhase → actions.setPhase: " ++ show_nat count1
           ++ u "개 변경");;
  let '(content, count2) :=
    re_subn MigratePhase.pattern2 MigratePhase.replacement2 content in
  let changes := changes + count2 in
  print (u "✅ phase === → battle.phase ===: " ++ show_nat count2
           ++ u "개 변경");;
  let '(content, count3) :=
    re_subn MigratePhase.pattern3 MigratePhase.replacement3 content in
  let changes := changes + count3 in
  print (u "✅ phase !== → battle.phase !==: " ++ show_nat count3
           ++ u "개 변경");;
  let '(content, count4) :=
    re_subn MigratePhase.pattern4 MigratePhase.replacement4 content in
  let changes := changes + count4 in
  print (u "✅ (phase → (battle.phase: " ++ show_nat count4 ++ u "개 변경");;
  let '(content, count5) :=
    re_subn MigratePhase.pattern5 MigratePhase.replacement5 content in
  let changes := changes + count5 in
  print (u "✅ , phase → , battle.phase: " ++ show_nat count5
           ++ u "개 변경");;
  let '(content, count6) :=
    re_subn MigratePhase.pattern6 MigratePhase.replacement6 content in
  let changes := changes + count6 in
  print (u "✅ { phase → { battle.phase: " ++ show_nat count6
           ++ u "개 변경");;
  let '(content, count7) :=
    re_subn MigratePhase.pattern7 MigratePhase.replacement7 content in
  let changes := changes + count7 in
  print (u "✅ [phase → [battle.phase: " ++ show_nat count7 ++ u "개 변경");;
  print ([10%N] ++ u "총 " ++ show_nat changes ++ u "개 변경");;
  write_file file_path content;;
  print (u "✅ 파일 저장 완료: " ++ u file_path);;
  print ([10%N] ++ u "다음 단계:");;
  print (u "1. npm run build 로 빌드 테스트");;
  print (u "2. 문제 있으면: mv LegacyBattleApp.jsx.phase_backup LegacyBattleApp.jsx");;
  print (u "3. 성공하면: 다음 Phase로 진행").

(** The same statements as a list, the substitutions done beforehand:
    they are pure. *)
Definition migrate_phase_steps (content : str) : list stmt :=
  let '(content', counts, changes) := MigratePhase.substitutions content in
  [DoWrite MigratePhase.backup_path content;
   DoPrint (u "✅ 백업 생성: LegacyBattleApp.jsx.phase_backup");
   DoPrint (u "✅ setPhase → actions.setPhase: "
            ++ show_nat (nth 0 counts 0) ++ u "개 변경");
   DoPrint (u "✅ phase === → battle.phase ===: "
            ++ show_nat (nth 1 counts 0) ++ u "개 변경");
   DoPrint (u "✅ phase !== → battle.phase !==: "
            ++ show_nat (nth 2 counts 0) ++ u "개 변경");
   DoPrint (u "✅ (phase → (battle.phase: "
            ++ show_nat (nth 3 counts 0) ++ u "개 변경");
   DoPrint (u "✅ , phase → , battle.phase: "
            ++ show_nat (nth 4 counts 0) ++ u "개 변경");
   DoPrint (u "✅ { phase → { battle.phase: "
            ++ show_nat (nth 5 counts 0) ++ u "개 변경");
   DoPrint (u "✅ [phase → [battle.phase: "
            ++ show_nat (nth 6 counts 0) ++ u "개 변경");
   DoPrint ([10%N] ++ u "총 " ++ show_nat changes ++ u "개 변경");
   DoWrite file_path content';
   DoPrint (u "✅ 파일 저장 완료: " ++ u file_path);
   DoPrint ([10%N] ++ u "다음 단계:");
   DoPrint (u "1. npm run build 로 빌드 테스트");
   DoPrint (u "2. 문제 있으면: mv LegacyBattleApp.jsx.phase_backup LegacyBattleApp.jsx");
   DoPrint (u "3. 성공하면: 다음 Phase로 진행")].

(** fix_functional_updates.py, statement by statement. *)
Definition fix_functional_updates_py : job unit :=
  content ← read_file file_path;
  write_file FixFunctionalUpdates.backup_path content;;
  print (u "✅ 백업 생성: LegacyBattleApp.jsx.func_update_backup");;
  let changes := 0 in
  let '(content, changes) :=
    re_sub FixFunctionalUpdates.pattern1 FixFunctionalUpdates.replace1
      content changes in
  print (u "✅ setPlayer 한 줄 패턴 변환: " ++ show_nat changes ++ u "개");;
  let changes_before := changes in
  let '(content, changes) :=
    re_sub FixFunctionalUpdates.pattern2 FixFunctionalUpdates.replace2
      content changes in
  print (u "✅ setEnemy 한 줄 패턴 변환: "
           ++ show_int (Z.of_nat changes - Z.of_nat changes_before)
           ++ u "개");;
  print ([10%N] ++ u "⚠️  여러 줄 functional update는 수동 확인 필요:");;
  print (u "   - Line 1715: actions.setPlayer(p => { ... })");;
  print (u "   - Line 2872: actions.setPlayer(p => { ... })");;
  print (u "   - Line 2898: actions.setEnemy(e => { ... })");;
  print ([10%N] ++ u "총 " ++ show_nat changes ++ u "개 자동 변환");;
  write_file file_path content;;
  print (u "✅ 파일 저장 완료: " ++ u file_path);;
  print ([10%N] ++ u "다음 단계:");;
  print (u "1. npm run build로 빌드 테스트");;
  print (u "2. 여러 줄 패턴 3개 수동 수정");;
  print (u "3. 성공하면 커밋").

Definition fix_functional_updates_steps (content : str) : list stmt :=
  let '(content', (printed1, printed2, changes)) :=
    FixFunctionalUpdates.substitutions content in
  [DoWrite FixFunctionalUpdates.backup_path content;
   DoPrint (u "✅ 백업 생성: LegacyBattleApp.jsx.func_update_backup");
   DoPrint (u "✅ setPlayer 한 줄 패턴 변환: " ++ show_nat printed1 ++ u "개");
   DoPrint (u "✅ setEnemy 한 줄 패턴 변환: " ++ show_int printed2 ++ u "개");
   DoPrint ([10%N] ++ u "⚠️  여러 줄 functional update는 수동 확인 필요:");
   DoPrint (u "   - Line 1715: actions.setPlayer(p => { ... })");
   DoPrint (u "   - Line 2872: actions.setPlayer(p => { ... })");
   DoPrint (u "   - Line 2898: actions.setEnemy(e => { ... })");
   DoPrint ([10%N] ++ u "총 " ++ show_nat changes ++ u "개 자동 변환");
   DoWrite file_path content';
   DoPrint (u "✅ 파일 저장 완료: " ++ u file_path);
   DoPrint ([10%N] ++ u "다음 단계:");
   DoPrint (u "1. npm run build로 빌드 테스트");
   DoPrint (u "2. 여러 줄 패턴 3개 수동 수정");
   DoPrint (u "3. 성공하면 커밋")].

End Scripts.

(** replace_ui_components.py, statement by statement: [readlines] gives
    the lines of the text read, [writelines] writes them one after the
    other. *)
Definition replace_ui_components_py : job unit :=
  lines ← (text ← read_file file_path; mret (text_lines text));
  let new_lines := ReplaceUiComponents.new_lines lines in
  write_file file_path (concat new_lines);;
  print (u "✅ Successfully replaced lines 3628-4196 in " ++ u file_path);;
  print (u "   Original: " ++ show_nat (length lines) ++ u " lines");;
  print (u "   New: " ++ show_nat (length new_lines) ++ u " lines");;
  print (u "   Reduction: "
           ++ show_int (Z.of_nat (length lines)
                        - Z.of_nat (length new_lines))
           ++ u " lines").

Definition replace_ui_components_steps (text : str) : list stmt :=
  let lines := text_lines text in
  let new_lines := ReplaceUiComponents.new_lines lines in
  [DoWrite file_path (concat new_lines);
   DoPrint (u "✅ Successfully replaced lines 3628-4196 in " ++ u file_path);
   DoPrint (u "   Original: " ++ show_nat (length lines) ++ u " lines");
   DoPrint (u "   New: " ++ show_nat (length new_lines) ++ u " lines");
   DoPrint (u "   Reduction: "
            ++ show_int (Z.of_nat (length lines)
                         - Z.of_nat (length new_lines))
            ++ u " lines")].

End Jobs.

(** The lines a list of statements prints, and the texts it writes. *)
Definition printed (ss : list stmt) : list str :=
  omap (fun s => match s with DoPrint line => Some line | _ => None end) ss.

Definition written (ss : list stmt) : list str :=
  omap (fun s => match s with DoWrite _ t => Some t | _ => None end) ss.

(** A platform with [LF] as line separator and a UTF-8 [stdout]; one
    whose [stdout] has Latin-1 only. *)
Definition posix_utf8 : platform := Platform [10%N] scalar.

Definition posix_latin1 : platform :=
  Platform [10%N] (fun c => (c <? 256)%N).

(** A statement that can run to its end on the platform: the line can
    be printed, the text can be encoded. *)
Definition can_run (pf : platform) (s : stmt) : bool :=
  match s with
  | DoPrint line => can_print pf line
  | DoWrite _ text =>
      match encode_text (linesep pf) text with
      | Some _ => true
      | None => false
      end
  end.

(** The disk after statements that ran to their end. *)
Fixpoint disk_after (pf : platform) (ss : list stmt)
    (d : gmap string (list N)) : gmap string (list N) :=
  match ss with
  | [] => d
  | DoWrite p text :: rest =>
      disk_after pf rest
        (<[p := default [] (encode_text (linesep pf) text)]> d)
  | DoPrint _ :: rest => disk_after pf rest d
  end.

(** ** The backup, on disk

    A run from the disk [d] that ended in the machine [m] made its
    backup at [bpath] first: after a read that gave [text], the second
    operation is the write of [text] to [bpath]; written to its end,
    the copy is what text mode makes of [text], is read back as
    [text], is in place when the run ends, and - with [LF] as line
    separator - has the bytes of the source exactly when the source has
    no [CR]; not written to its end, the run stops there.  A write to
    [file_path], completed or not, only comes after a completed
    backup. *)
Definition backup_then_rewrite (pf : platform) (env : nat -> outcome)
    (d : gmap string (list N)) (bpath : string) (m : machine) : Prop :=
  (forall (src : list N) (text : str),
     d !! file_path = Some src -> decode_text src = Some text ->
     env 0 = Completes ->
     exists copy : list N,
       encode_text (linesep pf) text = Some copy
       /\ decode_text copy = Some text
       /\ (linesep pf = [10%N] -> (copy = src <-> 13%N ∉ src))
       /\ history m !! 0 = Some (OpRead file_path true)
       /\ match env 1 with
          | Completes =>
              history m !! 1 = Some (OpWrite bpath copy true)
              /\ disk m !! bpath = Some copy
          | Cut n =>
              history m = [OpRead file_path true;
                           OpWrite bpath (take n copy) false]
              /\ disk m !! file_path = Some src
          | Refused =>
              history m = [OpRead file_path true; OpRefused bpath]
              /\ disk m = d
          end)
  /\ (forall (j : nat) (data : list N) (ok : bool),
        history m !! j = Some (OpWrite file_path data ok) ->
        1 < j
        /\ exists (src : list N) (text : str) (copy : list N),
             d !! file_path = Some src
             /\ decode_text src = Some text
             /\ encode_text (linesep pf) text = Some copy
             /\ history m !! 1 = Some (OpWrite bpath copy true)
             /\ disk m !! bpath = Some copy).

(** ** How a run ends

    A run of the script [run], whose statements after the read are
    [steps], ends normally exactly when the target is there and is
    valid UTF-8, every operation completes - the read and one per
    statement - and [stdout] can take every line printed.
    It then has printed the lines and left the disk the writes make;
    the texts it wrote could be encoded. *)
Definition runs_to_end (pf : platform) (env : nat -> outcome)
    (d : gmap string (list N)) (run : job unit) (steps : str -> list stmt)
    : Prop :=
  ((run (Machine d [] [])).2 = Ret tt <->
   exists (src : list N) (text : str),
     d !! file_path = Some src /\ decode_text src = Some text
     /\ (forall i, i <= length (steps text) -> env i = Completes)
     /\ Forall (fun line => can_print pf line = true)
          (printed (steps text)))
  /\ (forall (src : list N) (text : str),
        d !! file_path = Some src -> decode_text src = Some text ->
        (run (Machine d [] [])).2 = Ret tt ->
        stdout (run (Machine d [] [])).1 = printed (steps text)
        /\ disk (run (Machine d [] [])).1 = disk_after pf (steps text) d
        /\ Forall (fun t => is_Some (encode_text (linesep pf) t))
             (written (steps text))).

(** * Properties *)

(** ** The engine *)

Lemma last_of_nil (prev : option N) : last_of prev [] = prev.
Proof. reflexivity. Qed.

Lemma last_of_cons (prev : option N) (c : N) (s : str) :
  last_of prev (c :: s) = last_of (Some c) s.
Proof.
  unfold last_of. destruct s as [|d s]; [reflexivity|].
  rewrite last_cons_cons. destruct (last (d :: s)) eqn:E; [reflexivity|].
  apply last_None in E. discriminate.
Qed.

Lemma last_of_app (prev : option N) (a b : str) :
  last_of prev (a ++ b) = last_of (last_of prev a) b.
Proof.
  revert prev. induction a as [|c a IH]; intros prev; [reflexivity|].
  rewrite <- app_comm_cons, !last_of_cons. apply IH.
Qed.

Lemma last_of_None (s : str) : last_of None s = last s.
Proof. unfold last_of. destruct (last s); reflexivity. Qed.

Lemma prefix_b_app (p s : str) : prefix_b p (p ++ s) = true.
Proof.
  induction p as [|c p IH]; [reflexivity|].
  simpl. rewrite N.eqb_refl. exact IH.
Qed.

Lemma contains_app (sub a b : str) : contains sub (a ++ sub ++ b) = true.
Proof.
  induction a as [|c a IH].
  - simpl. destruct (sub ++ b) eqn:E; simpl; rewrite <- E, prefix_b_app;
      reflexivity.
  - simpl. rewrite IH. apply orb_true_r.
Qed.

Section EngineFacts.
Context `{db : UnicodeDB}.

(** Whatever the matcher returns was returned by its continuation, at a
    state that extends the text matched so far. *)
Lemma rep_sound {A} (a : cset) (s : str) :
  forall prev acc (k : option N -> str -> str -> option A) x,
    rep a prev acc s k = Some x ->
    exists p' acc' s',
      k p' acc' s' = Some x /\ rev acc' ++ s' = rev acc ++ s.
Proof.
  induction s as [|c s IH]; intros prev acc k x; simpl.
  - intros Hk. exists prev, acc, []. auto.
  - destruct (in_cset a c).
    + destruct (rep a (Some c) (c :: acc) s k) as [y|] eqn:E.
      * intros [= ->]. apply IH in E as (p' & acc' & s' & Hk & Hs).
        exists p', acc', s'. split; [exact Hk|].
        rewrite Hs. simpl. rewrite <- app_assoc. reflexivity.
      * intros Hk. exists prev, acc, (c :: s). auto.
    + intros Hk. exists prev, acc, (c :: s). auto.
Qed.

Lemma exec_sound {A} (r : regex) :
  forall prev acc s gs (k : kont A) x,
    exec r prev acc s gs k = Some x ->
    exists p' acc' s' g',
      k p' acc' s' g' = Some x /\ rev acc' ++ s' = rev acc ++ s.
Proof.
  induction r as [|a| |r1 IH1 r2 IH2|r1 IH1 r2 IH2|a|a|n r IH];
    intros prev acc s gs k x; simpl.
  - intros Hk. exists prev, acc, s, gs. auto.
  - destruct s as [|c s]; [discriminate|].
    destruct (in_cset a c); [|discriminate].
    intros Hk. exists (Some c), (c :: acc), s, gs. split; [exact Hk|].
    simpl. rewrite <- app_assoc. reflexivity.
  - destruct (at_boundary prev s); [|discriminate].
    intros Hk. exists prev, acc, s, gs. auto.
  - intros E. apply IH1 in E as (p1 & a1 & s1 & g1 & E & Hs1).
    apply IH2 in E as (p2 & a2 & s2 & g2 & E & Hs2).
    exists p2, a2, s2, g2. split; [exact E|]. congruence.
  - destruct (exec r1 prev acc s gs k) as [y|] eqn:E.
    + intros [= ->]. apply IH1 in E. exact E.
    + intros E2. apply IH2 in E2. exact E2.
  - intros E. apply rep_sound in E as (p' & acc' & s' & Hk & Hs).
    exists p', acc', s', gs. auto.
  - destruct s as [|c s]; [discriminate|].
    destruct (in_cset a c); [|discriminate].
    intros E. apply rep_sound in E as (p' & acc' & s' & Hk & Hs).
    exists p', acc', s', gs. split; [exact Hk|].
    rewrite Hs. simpl. rewrite <- app_assoc. reflexivity.
  - intros E. apply IH in E as (p' & acc' & s' & g' & Hk & Hs).
    eexists p', acc', s', _. split; [exact Hk|exact Hs].
Qed.

(** The text of a match is a prefix of the text it was tried on. *)
Lemma match_here_prefix (r : regex) adv prev (s : str) (m : match_obj) :
  match_here r adv prev s = Some m -> s = m_text m ++ drop (length (m_text m)) s.
Proof.
  unfold match_here. intros E.
  apply exec_sound in E as (p' & acc' & s' & g' & Hk & Hs).
  simpl in Hs. subst s.
  assert (m_text m = rev acc') as ->.
  { destruct adv, acc'; try discriminate; injection Hk as <-; reflexivity. }
  rewrite drop_app_length. reflexivity.
Qed.

(** A match found with [must_advance] is not empty. *)
Lemma match_here_advance (r : regex) prev (s : str) (m : match_obj) :
  match_here r true prev s = Some m -> m_text m <> [].
Proof.
  unfold match_here. intros E.
  apply exec_sound in E as (p' & acc' & s' & g' & Hk & Hs).
  destruct acc' as [|c acc']; [discriminate|]. injection Hk as <-.
  simpl. intros E. apply app_eq_nil in E as [_ E]. discriminate.
Qed.

Section ScanFacts.
Context {G : Type}.
Variable r : regex.
Variable repl : match_obj -> G -> str * G.

(** Skipping the characters of a match. *)
Lemma scan_skip (t : str) : forall prev rest g,
  scan r repl prev (t ++ rest) (length t) g
  = scan r repl (last_of prev t) rest 0 g.
Proof.
  induction t as [|c t IH]; intros prev rest g; [reflexivity|].
  rewrite last_of_cons. simpl. apply IH.
Qed.

(** A position without match: the character is copied. *)
Lemma scan_copy prev (c : N) (s : str) g :
  match_here r false prev (c :: s) = None ->
  scan r repl prev (c :: s) 0 g
  = let '(o, n, g') := scan r repl (Some c) s 0 g in (c :: o, n, g').
Proof.
  intros E. simpl. unfold attempt. rewrite E.
  destruct (scan r repl (Some c) s 0 g) as [[o n] g']. reflexivity.
Qed.

(** A position with a non-empty match: the replacement is emitted and
    the scan resumes behind the match. *)
Lemma scan_match prev (t rest : str) (m : match_obj) g :
  match_here r false prev (t ++ rest) = Some m ->
  m_text m = t -> t <> [] ->
  scan r repl prev (t ++ rest) 0 g
  = let '(out1, g1) := repl m g in
    let '(o, n, g2) := scan r repl (last_of prev t) rest 0 g1 in
    (out1 ++ o, S n, g2).
Proof.
  intros E Ht Hne. destruct t as [|c t]; [congruence|].
  simpl. unfold attempt. simpl in E. rewrite E, Ht.
  destruct (repl m g) as [out1 g1]. cbn [length].
  rewrite scan_skip, last_of_cons.
  destruct (scan r repl (last_of (Some c) t) rest 0 g1) as [[o n] g2].
  reflexivity.
Qed.

(** At the end of the text without match the scan ends. *)
Lemma scan_end prev g :
  match_here r false prev [] = None -> scan r repl prev [] 0 g = ([], 0, g).
Proof. intros E. simpl. unfold attempt. rewrite E. reflexivity. Qed.

(** No match from here on: the text is returned as it is. *)
Lemma scan_no_match (s : str) : forall prev g,
  search r prev s = None -> scan r repl prev s 0 g = (s, 0, g).
Proof.
  induction s as [|c s IH]; intros prev g; simpl search.
  - destruct (match_here r false prev []) eqn:E; [discriminate|].
    intros _. apply scan_end, E.
  - destruct (match_here r false prev (c :: s)) eqn:E; [discriminate|].
    destruct (search r (Some c) s) as [[i m]|] eqn:E2; [discriminate|].
    intros _. rewrite scan_copy by exact E. rewrite IH by exact E2.
    reflexivity.
Qed.

End ScanFacts.

(** [search] finds nothing exactly when no position matches. *)
Lemma search_None (r : regex) (s : str) : forall prev,
  search r prev s = None <->
  forall a b, s = a ++ b -> match_here r false (last_of prev a) b = None.
Proof.
  induction s as [|c s IH]; intros prev; simpl search.
  - destruct (match_here r false prev []) eqn:E.
    + split; [discriminate|]. intros Hall.
      specialize (Hall [] [] eq_refl). rewrite last_of_nil in Hall.
      congruence.
    + split; [|reflexivity]. intros _ a b Hab.
      symmetry in Hab. apply app_eq_nil in Hab as [-> ->]. exact E.
  - destruct (match_here r false prev (c :: s)) eqn:E.
    + split; [discriminate|]. intros Hall.
      specialize (Hall [] (c :: s) eq_refl). rewrite last_of_nil in Hall.
      congruence.
    + destruct (search r (Some c) s) as [[i m]|] eqn:E2.
      * split; [discriminate|]. intros Hall.
        assert (search r (Some c) s = None) as E3; [|congruence].
        apply IH. intros a b Hab.
        specialize (Hall (c :: a) b). rewrite last_of_cons in Hall.
        apply Hall. rewrite Hab. reflexivity.
      * split; [|reflexivity]. intros _ a b Hab.
        destruct a as [|d a].
        -- simpl in Hab. subst b. exact E.
        -- injection Hab as <- Hab. rewrite last_of_cons.
           apply (proj1 (IH (Some c)) E2 a b Hab).
Qed.

End EngineFacts.

Section Stability.
Context `{db : UnicodeDB}.

(** A character no set of the pattern accepts stops the matcher: what
    follows it does not matter. *)
Lemma rep_app_stable {A} (a : cset) (c : N) (rest : str) :
  in_cset a c = false ->
  forall s prev acc (k1 k2 : option N -> str -> str -> option A),
    (forall p a' x, k1 p a' (x ++ c :: rest) = k2 p a' x) ->
    rep a prev acc (s ++ c :: rest) k1 = rep a prev acc s k2.
Proof.
  intros Hc s. induction s as [|d s IH]; intros prev acc k1 k2 Hk.
  - simpl. rewrite Hc. apply (Hk prev acc []).
  - simpl. rewrite (IH (Some d) (d :: acc) k1 k2 Hk).
    rewrite <- (Hk prev acc (d :: s)). reflexivity.
Qed.

Lemma exec_app_stable {A} (r : regex) (c : N) (rest : str) :
  may_take r c = false -> has_wordb r = false ->
  forall prev acc s gs (k1 k2 : kont A),
    (forall p a' x g, k1 p a' (x ++ c :: rest) g = k2 p a' x g) ->
    exec r prev acc (s ++ c :: rest) gs k1 = exec r prev acc s gs k2.
Proof.
  induction r as [|a| |r1 IH1 r2 IH2|r1 IH1 r2 IH2|a|a|n r IH];
    simpl; intros Hc Hb prev acc s gs k1 k2 Hk.
  - apply Hk.
  - destruct s as [|d s]; simpl.
    + rewrite Hc. reflexivity.
    + rewrite (Hk (Some d) (d :: acc) s gs). reflexivity.
  - discriminate.
  - apply orb_false_elim in Hc as [Hc1 Hc2].
    apply orb_false_elim in Hb as [Hb1 Hb2].
    apply IH1; [assumption..|]. intros p a' x g. apply IH2; assumption.
  - apply orb_false_elim in Hc as [Hc1 Hc2].
    apply orb_false_elim in Hb as [Hb1 Hb2].
    rewrite (IH1 Hc1 Hb1 prev acc s gs k1 k2 Hk).
    rewrite (IH2 Hc2 Hb2 prev acc s gs k1 k2 Hk). reflexivity.
  - apply rep_app_stable; [assumption|]. intros p a' x. apply Hk.
  - destruct s as [|d s]; simpl.
    + rewrite Hc. reflexivity.
    + destruct (in_cset a d); [|reflexivity].
      apply rep_app_stable; [assumption|]. intros p a' x. apply Hk.
  - apply IH; [assumption..|]. intros p a' x g. apply Hk.
Qed.

Section Split.
Context {G : Type}.
Variable r : regex.
Variable repl : match_obj -> G -> str * G.

Lemma attempt_len prev (s : str) g emit len n g1 :
  attempt r repl prev s g = (emit, len, n, g1) -> len <= length s.
Proof.
  unfold attempt.
  destruct (match_here r false prev s) as [m|] eqn:E.
  - destruct (repl m g) as [out1 g1'].
    apply match_here_prefix in E.
    destruct (length (m_text m)) as [|k] eqn:El.
    + destruct s as [|c s]; [intros [= <- <- <- <-]; simpl; lia|].
      destruct (match_here r true prev (c :: s)) as [m2|] eqn:E2.
      * destruct (repl m2 g1') as [out2 g2]. intros [= <- <- <- <-].
        apply match_here_prefix in E2. apply (f_equal length) in E2.
        rewrite length_app in E2. lia.
      * intros [= <- <- <- <-]. lia.
    + intros [= <- <- <- <-]. apply (f_equal length) in E.
      rewrite length_app in E. lia.
  - intros [= <- <- <- <-]. lia.
Qed.

(** When no match can run into [sfx], the scan of [pre ++ sfx] is the
    scan of [pre] followed by the scan of [sfx]. *)
Lemma scan_split (sfx : str) :
  (forall adv prev d s1,
     match_here r adv prev ((d :: s1) ++ sfx) = match_here r adv prev (d :: s1)) ->
  (forall prev, match_here r false prev [] = None) ->
  forall pre prev skip g, skip <= length pre ->
    scan r repl prev (pre ++ sfx) skip g
    = let '(a, n, g1) := scan r repl prev pre skip g in
      let '(b, m, g2) := scan r repl (last_of prev pre) sfx 0 g1 in
      (a ++ b, n + m, g2).
Proof.
  intros Hst Hnil pre.
  induction pre as [|c pre IH]; intros prev skip g Hskip.
  - simpl in Hskip. assert (skip = 0) as -> by lia.
    rewrite scan_end by apply Hnil. rewrite last_of_nil. simpl app.
    destruct (scan r repl prev sfx 0 g) as [[b m] g2]. reflexivity.
  - rewrite last_of_cons. destruct skip as [|k].
    + assert (attempt r repl prev ((c :: pre) ++ sfx) g
              = attempt r repl prev (c :: pre) g) as Ha.
      { unfold attempt. rewrite !Hst. reflexivity. }
      simpl. simpl in Ha. rewrite Ha.
      destruct (attempt r repl prev (c :: pre) g) as [[[emit len] n] g1] eqn:Ea.
      apply attempt_len in Ea. simpl in Ea.
      destruct len as [|k].
      * rewrite IH by lia.
        destruct (scan r repl (Some c) pre 0 g1) as [[o n'] g2].
        destruct (scan r repl (last_of (Some c) pre) sfx 0 g2) as [[b m] g3].
        rewrite <- app_assoc, Nat.add_assoc. reflexivity.
      * rewrite IH by lia.
        destruct (scan r repl (Some c) pre k g1) as [[o n'] g2].
        destruct (scan r repl (last_of (Some c) pre) sfx 0 g2) as [[b m] g3].
        rewrite <- app_assoc, Nat.add_assoc. reflexivity.
    + simpl in Hskip. simpl. apply IH. lia.
Qed.

(** A stretch of text in which no match begins is copied. *)
Lemma scan_prefix_copy (pre : str) : forall prev (rest : str) g,
  (forall a b, pre = a ++ b -> b <> [] ->
     match_here r false (last_of prev a) (b ++ rest) = None) ->
  scan r repl prev (pre ++ rest) 0 g
  = let '(o, n, g') := scan r repl (last_of prev pre) rest 0 g in
    (pre ++ o, n, g').
Proof.
  induction pre as [|c pre IH]; intros prev rest g Hno.
  - rewrite last_of_nil. simpl app.
    destruct (scan r repl prev rest 0 g) as [[o n] g']. reflexivity.
  - rewrite last_of_cons. simpl app. rewrite scan_copy.
    + rewrite IH.
      * destruct (scan r repl (last_of (Some c) pre) rest 0 g) as [[o n] g'].
        reflexivity.
      * intros a b Hab Hb. rewrite <- (last_of_cons prev).
        apply Hno; [|exact Hb]. rewrite Hab. reflexivity.
    + apply (Hno [] (c :: pre)); [reflexivity|discriminate].
Qed.

End Split.
End Stability.

(** ** The loops of [re.subn] and [re.sub], step by step *)
Section Loops.
Context `{db : UnicodeDB}.

Lemma subn_from_match (r : regex) (t : str) prev (txt rest : str) m :
  match_here r false prev (txt ++ rest) = Some m ->
  m_text m = txt -> txt <> [] ->
  subn_from r t prev (txt ++ rest)
  = (t ++ (subn_from r t (last_of prev txt) rest).1,
     S (subn_from r t (last_of prev txt) rest).2).
Proof.
  intros E Ht Hne. unfold subn_from.
  rewrite (scan_match r (template_repl t) prev txt rest m tt E Ht Hne).
  simpl.
  destruct (scan r (template_repl t) (last_of prev txt) rest 0 tt)
    as [[o n] []].
  reflexivity.
Qed.

Lemma subn_from_copy (r : regex) (t : str) prev (pre rest : str) :
  (forall a b, pre = a ++ b -> b <> [] ->
     match_here r false (last_of prev a) (b ++ rest) = None) ->
  subn_from r t prev (pre ++ rest)
  = (pre ++ (subn_from r t (last_of prev pre) rest).1,
     (subn_from r t (last_of prev pre) rest).2).
Proof.
  intros Hno. unfold subn_from.
  rewrite (scan_prefix_copy r (template_repl t) pre prev rest tt Hno).
  destruct (scan r (template_repl t) (last_of prev pre) rest 0 tt)
    as [[o n] []].
  reflexivity.
Qed.

Lemma subn_from_none (r : regex) (t : str) prev (s : str) :
  search r prev s = None -> subn_from r t prev s = (s, 0).
Proof.
  intros E. unfold subn_from.
  rewrite (scan_no_match r (template_repl t) s prev tt E). reflexivity.
Qed.

Lemma sub_from_match {G} (r : regex) (cb : match_obj -> G -> str * G)
    prev (txt rest : str) m g :
  match_here r false prev (txt ++ rest) = Some m ->
  m_text m = txt -> txt <> [] ->
  sub_from r cb prev (txt ++ rest) g
  = ((cb m g).1 ++ (sub_from r cb (last_of prev txt) rest (cb m g).2).1,
     (sub_from r cb (last_of prev txt) rest (cb m g).2).2).
Proof.
  intros E Ht Hne. unfold sub_from.
  rewrite (scan_match r cb prev txt rest m g E Ht Hne).
  destruct (cb m g) as [out1 g1]. simpl.
  destruct (scan r cb (last_of prev txt) rest 0 g1) as [[o n] g2].
  reflexivity.
Qed.

Lemma sub_from_copy {G} (r : regex) (cb : match_obj -> G -> str * G)
    prev (pre rest : str) g :
  (forall a b, pre = a ++ b -> b <> [] ->
     match_here r false (last_of prev a) (b ++ rest) = None) ->
  sub_from r cb prev (pre ++ rest) g
  = (pre ++ (sub_from r cb (last_of prev pre) rest g).1,
     (sub_from r cb (last_of prev pre) rest g).2).
Proof.
  intros Hno. unfold sub_from.
  rewrite (scan_prefix_copy r cb pre prev rest g Hno).
  destruct (scan r cb (last_of prev pre) rest 0 g) as [[o n] g'].
  reflexivity.
Qed.

Lemma sub_from_none {G} (r : regex) (cb : match_obj -> G -> str * G)
    prev (s : str) g :
  search r prev s = None -> sub_from r cb prev s g = (s, g).
Proof.
  intros E. unfold sub_from.
  rewrite (scan_no_match r cb s prev g E). reflexivity.
Qed.

(** Characters that cannot begin a match are copied. *)
Lemma subn_from_not_first (r : regex) (t : str) (c0 : N) :
  (forall adv prev c s, c <> c0 -> match_here r adv prev (c :: s) = None) ->
  forall (pre : str) prev (rest : str),
    Forall (fun c => c <> c0) pre ->
    subn_from r t prev (pre ++ rest)
    = (pre ++ (subn_from r t (last_of prev pre) rest).1,
       (subn_from r t (last_of prev pre) rest).2).
Proof.
  intros Hfirst pre prev rest Hpre. apply subn_from_copy.
  intros a b -> Hb. destruct b as [|c b]; [congruence|].
  apply Hfirst. apply Forall_app in Hpre as [_ Hpre].
  apply Forall_cons in Hpre as [Hc _]. exact Hc.
Qed.

End Loops.

(** ** The rule [\bphase\s*===] of migrate_phase.py *)
Section Pattern2.
Context `{db : UnicodeDB}.
Import MigratePhase.

Lemma pattern2_shape :
  pattern2 = Cat WordB (Cat (Cat (One (CChr 112)) (lit (u "hase")))
                            (cats [Star CSpace; lit (u "===")])).
Proof. reflexivity. Qed.

(** A match begins with [p]. *)
Lemma pattern2_first adv prev (c : N) (s : str) :
  c <> 112%N -> match_here pattern2 adv prev (c :: s) = None.
Proof.
  intros Hc. unfold match_here. rewrite pattern2_shape. cbn [exec].
  destruct (at_boundary prev (c :: s)); [|reflexivity].
  cbn [in_cset]. apply N.eqb_neq in Hc. rewrite Hc. reflexivity.
Qed.

Lemma pattern2_nil adv prev : match_here pattern2 adv prev [] = None.
Proof.
  unfold match_here. rewrite pattern2_shape. cbn [exec].
  destruct (at_boundary prev []); reflexivity.
Qed.

(** After a word character there is no match. *)
Lemma pattern2_after_word adv prev (s : str) :
  word_before prev = true -> match_here pattern2 adv prev (112%N :: s) = None.
Proof.
  intros Hw. unfold match_here. rewrite pattern2_shape. cbn [exec].
  unfold at_boundary. rewrite Hw. reflexivity.
Qed.

(** No match runs into a following [p]. *)
Lemma pattern2_stable (rest : str) adv prev (d : N) (s1 : str) :
  match_here pattern2 adv prev ((d :: s1) ++ 112%N :: rest)
  = match_here pattern2 adv prev (d :: s1).
Proof.
  unfold match_here. rewrite pattern2_shape.
  remember (lit (u "hase")) as hase eqn:Eh.
  remember (cats [Star CSpace; lit (u "===")]) as tail eqn:Et.
  cbn [exec app]. unfold at_boundary. cbn [word_here].
  destruct (negb _); [|reflexivity].
  destruct (in_cset (CChr 112) d); [|reflexivity].
  apply exec_app_stable; [subst hase; reflexivity..|].
  intros p a' x g.
  apply exec_app_stable; [subst tail; reflexivity..|].
  reflexivity.
Qed.

End Pattern2.

Section Pattern2Scan.
Context `{db : UnicodeDB}.
Import MigratePhase.

(** [phase] followed by a character that is neither a blank nor [=]
    is no match. *)
Lemma pattern2_not_token adv prev (c : N) (s : str) :
  is_space c = false -> c <> 61%N ->
  match_here pattern2 adv prev (u "phase" ++ c :: s) = None.
Proof.
  intros Hs Hc. apply N.eqb_neq in Hc.
  unfold match_here. rewrite pattern2_shape.
  change (u "phase") with [112; 104; 97; 115; 101]%N.
  change (u "hase") with [104; 97; 115; 101]%N.
  change (u "===") with [61; 61; 61]%N.
  cbn [app exec lit cats foldr].
  destruct (at_boundary _ _); [|reflexivity].
  cbn [in_cset N.eqb Pos.eqb rep]. rewrite Hs. cbn [in_cset]. rewrite Hc.
  reflexivity.
Qed.

(** The token [phase ===] after a non-word character is a match. *)
Lemma pattern2_token prev (s : str) :
  word_before prev = false ->
  match_here pattern2 false prev (u "phase ===" ++ s)
  = Some (MatchObj (u "phase ===") ∅).
Proof.
  intros Hw. unfold match_here. rewrite pattern2_shape.
  change (u "phase ===") with [112; 104; 97; 115; 101; 32; 61; 61; 61]%N.
  cbn [app exec]. unfold at_boundary. rewrite Hw.
  reflexivity.
Qed.

End Pattern2Scan.

Section Rule2.
Context `{db : UnicodeDB}.
Import MigratePhase.

#[local] Abbreviation rest2 := (subn_from pattern2 replacement2).

(** The scan splits in front of every [p]. *)
Lemma rule2_split (pre : str) prev (s : str) :
  rest2 prev (pre ++ 112%N :: s)
  = ((rest2 prev pre).1 ++ (rest2 (last_of prev pre) (112%N :: s)).1,
     (rest2 prev pre).2 + (rest2 (last_of prev pre) (112%N :: s)).2).
Proof.
  unfold subn_from.
  rewrite (scan_split pattern2 (template_repl replacement2) (112%N :: s)
             (pattern2_stable s) (pattern2_nil false) pre prev 0 tt)
    by lia.
  destruct (scan _ _ prev pre 0 tt) as [[a n] []].
  destruct (scan _ _ (last_of prev pre) (112%N :: s) 0 tt) as [[b m] []].
  reflexivity.
Qed.

Lemma rule2_not_p (pre : str) prev (rest : str) :
  Forall (fun c => c <> 112%N) pre ->
  rest2 prev (pre ++ rest)
  = (pre ++ (rest2 (last_of prev pre) rest).1,
     (rest2 (last_of prev pre) rest).2).
Proof.
  apply subn_from_not_first. intros adv p c s. apply pattern2_first.
Qed.

Lemma rule2_token prev (post : str) :
  word_before prev = false ->
  rest2 prev (u "phase === 'select'" ++ post)
  = (u "battle.phase === 'select'" ++ (rest2 (Some 39%N) post).1,
     S (rest2 (Some 39%N) post).2).
Proof.
  intros Hw.
  change (u "phase === 'select'") with (u "phase ===" ++ u " 'select'").
  rewrite <- app_assoc.
  rewrite (subn_from_match _ _ _ _ _ _ (pattern2_token prev _ Hw) eq_refl)
    by discriminate.
  rewrite rule2_not_p by (repeat (constructor; [discriminate|]); constructor).
  reflexivity.
Qed.

Lemma rule2_phase_then (c : N) prev (post : str) :
  is_space c = false -> c <> 61%N ->
  rest2 prev (u "phase" ++ c :: post)
  = (u "phase" ++ (rest2 (Some 101%N) (c :: post)).1,
     (rest2 (Some 101%N) (c :: post)).2).
Proof.
  intros Hs Hc.
  rewrite (subn_from_copy pattern2 replacement2 prev (u "phase") (c :: post)).
  - reflexivity.
  - intros a b Hab Hb. destruct a as [|a0 a].
    + simpl in Hab. subst b. apply pattern2_not_token; assumption.
    + destruct b as [|b0 b]; [congruence|]. apply pattern2_first.
      assert (Forall (fun x => x <> 112%N) (a ++ b0 :: b)) as Hall.
      { injection Hab as _ <-.
        repeat (constructor; [discriminate|]); constructor. }
      apply Forall_app in Hall as [_ Hall].
      apply Forall_cons in Hall as [Hb0 _]. exact Hb0.
Qed.

Lemma rule2_after_word prev (post : str) :
  word_before prev = true ->
  rest2 prev (u "phase" ++ post)
  = (u "phase" ++ (rest2 (Some 101%N) post).1, (rest2 (Some 101%N) post).2).
Proof.
  intros Hw.
  rewrite (subn_from_copy pattern2 replacement2 prev (u "phase") post).
  - reflexivity.
  - intros a b Hab Hb. destruct a as [|a0 a].
    + simpl in Hab. subst b. apply pattern2_after_word. exact Hw.
    + destruct b as [|b0 b]; [congruence|]. apply pattern2_first.
      assert (Forall (fun x => x <> 112%N) (a ++ b0 :: b)) as Hall.
      { injection Hab as _ <-.
        repeat (constructor; [discriminate|]); constructor. }
      apply Forall_app in Hall as [_ Hall].
      apply Forall_cons in Hall as [Hb0 _]. exact Hb0.
Qed.

End Rule2.

(** ** Rule sets *)
Section RuleSets.

Lemma apply_rules_cons (R : rule) (rest : list rule) (buf : str) :
  apply_rules (R :: rest) buf
  = ((apply_rules rest (R buf).1).1, (R buf).2 :: (apply_rules rest (R buf).1).2).
Proof.
  simpl. destruct (R buf) as [b1 n]. simpl.
  destruct (apply_rules rest b1) as [b2 ns]. reflexivity.
Qed.

Lemma apply_rules_app (rs1 rs2 : list rule) : forall buf,
  apply_rules (rs1 ++ rs2) buf
  = ((apply_rules rs2 (apply_rules rs1 buf).1).1,
     (apply_rules rs1 buf).2 ++ (apply_rules rs2 (apply_rules rs1 buf).1).2).
Proof.
  induction rs1 as [|R rs1 IH]; intros buf.
  - simpl. destruct (apply_rules rs2 buf). reflexivity.
  - rewrite <- app_comm_cons, !apply_rules_cons, IH. reflexivity.
Qed.

Context `{db : UnicodeDB}.

(** The straight-line code of migrate_phase.py is its rule set applied
    in order. *)
Lemma substitutions_rules (content : str) :
  MigratePhase.substitutions content
  = ((apply_rules MigratePhase.rules content).1,
     (apply_rules MigratePhase.rules content).2,
     foldr Nat.add 0 (apply_rules MigratePhase.rules content).2).
Proof.
  unfold MigratePhase.substitutions, MigratePhase.rules, regex_rule.
  rewrite !apply_rules_cons. cbn [apply_rules fst snd foldr].
  destruct (re_subn MigratePhase.pattern1 _ content) as [c1 n1]. cbn [fst snd].
  destruct (re_subn MigratePhase.pattern2 _ c1) as [c2 n2]. cbn [fst snd].
  destruct (re_subn MigratePhase.pattern3 _ c2) as [c3 n3]. cbn [fst snd].
  destruct (re_subn MigratePhase.pattern4 _ c3) as [c4 n4]. cbn [fst snd].
  destruct (re_subn MigratePhase.pattern5 _ c4) as [c5 n5]. cbn [fst snd].
  destruct (re_subn MigratePhase.pattern6 _ c5) as [c6 n6]. cbn [fst snd].
  destruct (re_subn MigratePhase.pattern7 _ c6) as [c7 n7]. cbn [fst snd].
  f_equal. lia.
Qed.

End RuleSets.

(** C7: a rule set of two rules is the second rule applied to the buffer
    the first one produced, the counts in order; longer rule sets compose
    the same way; and the seven substitutions of migrate_phase.py are such
    a rule set: each [re.subn] takes the buffer the previous one returned. *)
Theorem rule_set_sequential `{db : UnicodeDB} :
  (forall (R1 R2 : rule) (buf : str),
     apply_rules [R1; R2] buf
     = ((R2 (R1 buf).1).1, [(R1 buf).2; (R2 (R1 buf).1).2])
     /\ (apply_rules [R1; R2] buf).1
        = (apply_rules [R2] (apply_rules [R1] buf).1).1
     /\ (apply_rules [R1; R2] buf).2
        = (apply_rules [R1] buf).2
          ++ (apply_rules [R2] (apply_rules [R1] buf).1).2)
  /\ (forall (rs1 rs2 : list rule) (buf : str),
        apply_rules (rs1 ++ rs2) buf
        = ((apply_rules rs2 (apply_rules rs1 buf).1).1,
           (apply_rules rs1 buf).2
             ++ (apply_rules rs2 (apply_rules rs1 buf).1).2))
  /\ (forall content : str,
        MigratePhase.substitutions content
        = ((apply_rules MigratePhase.rules content).1,
           (apply_rules MigratePhase.rules content).2,
           foldr Nat.add 0 (apply_rules MigratePhase.rules content).2))
  /\ (forall content : str,
        let c1 := (re_subn MigratePhase.pattern1 MigratePhase.replacement1 content).1 in
        let c2 := (re_subn MigratePhase.pattern2 MigratePhase.replacement2 c1).1 in
        let c3 := (re_subn MigratePhase.pattern3 MigratePhase.replacement3 c2).1 in
        let c4 := (re_subn MigratePhase.pattern4 MigratePhase.replacement4 c3).1 in
        let c5 := (re_subn MigratePhase.pattern5 MigratePhase.replacement5 c4).1 in
        let c6 := (re_subn MigratePhase.pattern6 MigratePhase.replacement6 c5).1 in
        let c7 := (re_subn MigratePhase.pattern7 MigratePhase.replacement7 c6).1 in
        (MigratePhase.substitutions content).1.1 = c7).
Proof.
  split; [|split; [|split]].
  - intros R1 R2 buf. rewrite !apply_rules_cons. simpl. auto.
  - apply apply_rules_app.
  - apply substitutions_rules.
  - intros content. rewrite substitutions_rules.
    unfold MigratePhase.rules, regex_rule. rewrite !apply_rules_cons.
    reflexivity.
Qed.

(** C9: a regex rule whose pattern matches nowhere in the buffer is no
    error: [re.subn] returns the buffer unchanged with count 0, [re.sub]
    returns it unchanged without calling the callback (its counter keeps
    its value), and the rule set goes on with the next rule on the same
    buffer. *)
Theorem no_match_is_not_an_error `{db : UnicodeDB} (r : regex) (buf : str) :
  search r None buf = None ->
  (forall template : str, re_subn r template buf = (buf, 0))
  /\ (forall (G : Type) (callback : match_obj -> G -> str * G) (g : G),
        re_sub r callback buf g = (buf, g))
  /\ (forall (template : str) (rest : list rule),
        apply_rules (regex_rule r template :: rest) buf
        = ((apply_rules rest buf).1, 0 :: (apply_rules rest buf).2)).
Proof.
  intros E. split; [|split].
  - intros template. apply subn_from_none, E.
  - intros G callback g. apply sub_from_none, E.
  - intros template rest. rewrite apply_rules_cons. unfold regex_rule, re_subn.
    rewrite subn_from_none by exact E. reflexivity.
Qed.

Lemma no_match_is_not_an_error_witness :
  search (db := ascii_db) MigratePhase.pattern1 None (u "phaseLabel") = None
  /\ re_subn (db := ascii_db) MigratePhase.pattern1 MigratePhase.replacement1
       (u "phaseLabel") = (u "phaseLabel", 0).
Proof.
  split; [reflexivity|].
  apply (no_match_is_not_an_error (db := ascii_db) MigratePhase.pattern1
           (u "phaseLabel")).
  reflexivity.
Defined.

(** C5: the phase migration is not idempotent.  On the buffer
    [phase === 'select'] a second run of the seven substitutions changes
    the buffer again, with a count of 1 for the rule [\bphase\s*===] and a
    total of 1: the rule matches inside its own replacement text
    [battle.phase ===], the [.] before [phase] being a word boundary. *)
Theorem phase_migration_not_idempotent `{db : UnicodeDB} :
  exists buf : str,
    contains (u "phase === 'select'") buf = true
    /\ (exists once twice counts1 counts2 changes1 changes2,
          MigratePhase.substitutions buf = (once, counts1, changes1)
          /\ MigratePhase.substitutions once = (twice, counts2, changes2)
          /\ twice <> once
          /\ counts2 !! 1 = Some 1
          /\ 0 < changes2)
    /\ re_subn MigratePhase.pattern2 MigratePhase.replacement2
         MigratePhase.replacement2
       = (u "battle.battle.phase ===", 1)
    /\ match_at MigratePhase.pattern2 (u "battle.phase ===") 7
       = Some (MatchObj (u "phase ===") ∅).
Proof.
  exists (u "phase === 'select'").
  split; [reflexivity|]. split; [|split; reflexivity].
  exists (u "battle.phase === 'select'"), (u "battle.battle.phase === 'select'"),
    [0; 1; 0; 0; 0; 0; 0], [0; 1; 0; 0; 0; 0; 0], 1, 1.
  repeat split; try reflexivity.
  - discriminate.
  - lia.
Qed.

Section Rule2Claims.
Context `{db : UnicodeDB}.
Import MigratePhase.

#[local] Abbreviation rule2 := (re_subn pattern2 replacement2).
#[local] Abbreviation rest2 := (subn_from pattern2 replacement2).

(** C4, as amended: the rule [\bphase\s*===] rewrites a token
    [phase === 'select'] that does not follow a word character into
    [battle.phase === 'select'], whatever stands around it; the change
    count is one more than the matches in the rest of the buffer, and
    exactly 1 when the rest has none.  An occurrence of [phase] inside a
    longer word is left as it is: in [phaseLabel], and wherever [phase] is
    followed by a character that is neither a blank nor [=] or follows a
    word character. *)
Theorem phase_rule_token_and_word_boundary (pre post : str) :
  (word_before (last pre) = false ->
     rule2 (pre ++ u "phase === 'select'" ++ post)
     = ((rule2 pre).1 ++ u "battle.phase === 'select'"
          ++ (rest2 (Some 39%N) post).1,
        (rule2 pre).2 + 1 + (rest2 (Some 39%N) post).2)
     /\ contains (u "battle.phase === 'select'")
          (rule2 (pre ++ u "phase === 'select'" ++ post)).1 = true
     /\ (search pattern2 None pre = None ->
         search pattern2 (Some 39%N) post = None ->
         rule2 (pre ++ u "phase === 'select'" ++ post)
         = (pre ++ u "battle.phase === 'select'" ++ post, 1)))
  /\ rule2 (pre ++ u "phaseLabel" ++ post)
     = ((rule2 pre).1 ++ u "phaseLabel" ++ (rest2 (Some 108%N) post).1,
        (rule2 pre).2 + (rest2 (Some 108%N) post).2)
  /\ (forall c : N, is_space c = false -> c <> 61%N ->
        rule2 (pre ++ u "phase" ++ c :: post)
        = ((rule2 pre).1 ++ u "phase" ++ (rest2 (Some 101%N) (c :: post)).1,
           (rule2 pre).2 + (rest2 (Some 101%N) (c :: post)).2))
  /\ (forall c : N, is_word c = true ->
        rule2 (pre ++ c :: u "phase" ++ post)
        = ((rule2 (pre ++ [c])).1 ++ u "phase" ++ (rest2 (Some 101%N) post).1,
           (rule2 (pre ++ [c])).2 + (rest2 (Some 101%N) post).2)).
Proof.
  split; [|split; [|split]].
  - intros Hw.
    assert (rule2 (pre ++ u "phase === 'select'" ++ post)
            = ((rule2 pre).1 ++ u "battle.phase === 'select'"
                 ++ (rest2 (Some 39%N) post).1,
               (rule2 pre).2 + 1 + (rest2 (Some 39%N) post).2)) as Eq.
    { unfold re_subn.
      change (u "phase === 'select'" ++ post)
        with (112%N :: (u "hase === 'select'" ++ post)).
      rewrite rule2_split.
      change (112%N :: (u "hase === 'select'" ++ post))
        with (u "phase === 'select'" ++ post).
      rewrite last_of_None, rule2_token by exact Hw.
      cbn [fst snd]. f_equal. lia. }
    split; [exact Eq|]. split.
    + rewrite Eq. cbn [fst]. apply contains_app.
    + intros E1 E2. rewrite Eq. unfold re_subn.
      rewrite !subn_from_none by assumption. reflexivity.
  - unfold re_subn.
    change (u "phaseLabel" ++ post) with (112%N :: (u "haseLabel" ++ post)).
    rewrite rule2_split.
    change (112%N :: (u "haseLabel" ++ post))
      with (u "phase" ++ 76%N :: (u "abel" ++ post)).
    rewrite rule2_phase_then by (reflexivity || discriminate).
    cbn [fst snd].
    change (76%N :: u "abel" ++ post) with (u "Label" ++ post).
    rewrite rule2_not_p
      by (repeat (constructor; [discriminate|]); constructor).
    cbn [fst snd]. reflexivity.
  - intros c Hs Hc. unfold re_subn.
    change (u "phase" ++ c :: post) with (112%N :: (u "hase" ++ c :: post)).
    rewrite rule2_split.
    change (112%N :: (u "hase" ++ c :: post)) with (u "phase" ++ c :: post).
    rewrite rule2_phase_then by assumption. reflexivity.
  - intros c Hc. unfold re_subn.
    change (pre ++ c :: u "phase" ++ post)
      with (pre ++ [c] ++ 112%N :: (u "hase" ++ post)).
    rewrite app_assoc, rule2_split.
    change (112%N :: (u "hase" ++ post)) with (u "phase" ++ post).
    rewrite rule2_after_word; [reflexivity|].
    rewrite last_of_app. exact Hc.
Qed.

End Rule2Claims.

Lemma phase_rule_token_and_word_boundary_witness :
  re_subn (db := ascii_db) MigratePhase.pattern2 MigratePhase.replacement2
    (u "if (phase === 'select') show(phaseLabel)")
  = (u "if (battle.phase === 'select') show(phaseLabel)", 1).
Proof.
  apply (proj1 (phase_rule_token_and_word_boundary (db := ascii_db)
                  (u "if (") (u ") show(phaseLabel)")));
    reflexivity.
Defined.

(** C4 as stated fails: a buffer with the token twice (and [phaseLabel])
    gives a change count of 2. *)
Lemma phase_rule_count_counterexample :
  contains (u "phase === 'select'")
    (u "phase === 'select' ? phaseLabel : phase === 'select'") = true
  /\ contains (u "phaseLabel")
       (u "phase === 'select' ? phaseLabel : phase === 'select'") = true
  /\ re_subn (db := ascii_db) MigratePhase.pattern2 MigratePhase.replacement2
       (u "phase === 'select' ? phaseLabel : phase === 'select'")
     = (u "battle.phase === 'select' ? phaseLabel : battle.phase === 'select'",
        2)
  /\ 2 <> 1.
Proof. repeat split; try reflexivity. discriminate. Qed.

(** The boundary is the one of the regex: [$], a letter of JavaScript
    identifiers, is no word character, and [$phase] is rewritten. *)
Example phase_rule_after_dollar :
  re_subn (db := ascii_db) MigratePhase.pattern2 MigratePhase.replacement2
    (u "$phase === 1")
  = (u "$battle.phase === 1", 1).
Proof. vm_compute. reflexivity. Qed.

(** ** The rule of fix_functional_updates.py for [actions.setPlayer] *)
Section FunctionalUpdate.
Context `{db : UnicodeDB}.
Import FixFunctionalUpdates.

Lemma match_at_app (r : regex) (pre rest : str) (i : nat) :
  i < length pre ->
  match_at r (pre ++ rest) i
  = match_here r false (last (take i pre)) (drop i pre ++ rest).
Proof.
  intros Hi. unfold match_at.
  rewrite take_app_le, drop_app_le by lia. reflexivity.
Qed.

(** No match at any index below [length pre]: no match begins in
    [pre]. *)
Lemma no_match_before (r : regex) (pre rest : str) :
  (forall i, i < length pre -> match_at r (pre ++ rest) i = None) ->
  forall a b, pre = a ++ b -> b <> [] ->
    match_here r false (last_of None a) (b ++ rest) = None.
Proof.
  intros Hno a b -> Hb.
  specialize (Hno (length a)). rewrite match_at_app in Hno.
  - rewrite take_app_length, drop_app_length in Hno.
    rewrite last_of_None. apply Hno.
    rewrite length_app. destruct b; [congruence|simpl; lia].
  - rewrite length_app. destruct b; [congruence|simpl; lia].
Qed.

(** The call of the scenario is a match, with the fields and their
    trailing blank in group 1. *)
Lemma pattern1_scenario prev (post : str) :
  match_here pattern1 false prev
    (u "actions.setPlayer(prev => ({ ...prev, hp: 10 }))" ++ post)
  = Some (MatchObj (u "actions.setPlayer(prev => ({ ...prev, hp: 10 }))")
            {[1 := u "hp: 10 "]}).
Proof. vm_compute. reflexivity. Qed.

Lemma replace1_scenario (changes : nat) :
  replace1
    (MatchObj (u "actions.setPlayer(prev => ({ ...prev, hp: 10 }))")
       {[1 := u "hp: 10 "]}) changes
  = (u "actions.setPlayer({ ...player, hp: 10 })", changes + 1).
Proof.
  unfold replace1, group. cbn [m_groups]. rewrite lookup_singleton_eq.
  reflexivity.
Qed.

(** C8, as amended: where no match of the rule begins before it, the
    call [actions.setPlayer(prev => ({ ...prev, hp: 10 }))] is matched and
    rewritten to [actions.setPlayer({ ...player, hp: 10 })] -- the fields
    are copied with the blank that follows them --, the text before it is
    kept, and the counter is one more than before plus the matches in the
    rest of the buffer; it is exactly 1 when the rest has none. *)
Theorem functional_update_scenario (pre post : str) (changes : nat) :
  (forall i, i < length pre ->
     match_at pattern1
       (pre ++ u "actions.setPlayer(prev => ({ ...prev, hp: 10 }))" ++ post) i
     = None) ->
  re_sub pattern1 replace1
    (pre ++ u "actions.setPlayer(prev => ({ ...prev, hp: 10 }))" ++ post)
    changes
  = (pre ++ u "actions.setPlayer({ ...player, hp: 10 })"
       ++ (sub_from pattern1 replace1 (Some 41%N) post (changes + 1)).1,
     (sub_from pattern1 replace1 (Some 41%N) post (changes + 1)).2)
  /\ contains (u "actions.setPlayer({ ...player, hp: 10 })")
       (re_sub pattern1 replace1
          (pre ++ u "actions.setPlayer(prev => ({ ...prev, hp: 10 }))" ++ post)
          changes).1 = true
  /\ (search pattern1 (Some 41%N) post = None ->
      re_sub pattern1 replace1
        (pre ++ u "actions.setPlayer(prev => ({ ...prev, hp: 10 }))" ++ post)
        changes
      = (pre ++ u "actions.setPlayer({ ...player, hp: 10 })" ++ post,
         changes + 1)).
Proof.
  intros Hno.
  assert (re_sub pattern1 replace1
            (pre ++ u "actions.setPlayer(prev => ({ ...prev, hp: 10 }))"
               ++ post) changes
          = (pre ++ u "actions.setPlayer({ ...player, hp: 10 })"
               ++ (sub_from pattern1 replace1 (Some 41%N) post (changes + 1)).1,
             (sub_from pattern1 replace1 (Some 41%N) post (changes + 1)).2))
    as Eq.
  { unfold re_sub.
    rewrite sub_from_copy by (apply no_match_before; exact Hno).
    pose proof (sub_from_match pattern1 replace1 (last_of None pre) _ _ _
                  changes (pattern1_scenario _ post)) as E.
    cbn [m_text] in E. specialize (E eq_refl).
    rewrite E by discriminate. rewrite replace1_scenario. reflexivity. }
  split; [exact Eq|]. split.
  - rewrite Eq. cbn [fst]. apply contains_app.
  - intros E. rewrite Eq. rewrite sub_from_none by exact E. reflexivity.
Qed.

End FunctionalUpdate.

Lemma functional_update_scenario_witness :
  re_sub (db := ascii_db) FixFunctionalUpdates.pattern1
    FixFunctionalUpdates.replace1
    (u "x; actions.setPlayer(prev => ({ ...prev, hp: 10 })); y") 0
  = (u "x; actions.setPlayer({ ...player, hp: 10 }); y", 1).
Proof.
  apply (functional_update_scenario (db := ascii_db) (u "x; ") (u "; y") 0).
  - intros i Hi.
    destruct i as [|[|[|i]]]; [vm_compute; reflexivity..|simpl in Hi; lia].
  - vm_compute. reflexivity.
Defined.

(** C8 as stated fails: on the buffer of the scenario the output keeps
    the blank before the closing brace, so the text
    [actions.setPlayer({ ...player, hp: 10})] does not occur in it. *)
Lemma functional_update_counterexample :
  FixFunctionalUpdates.substitutions (db := ascii_db)
    (u "actions.setPlayer(prev => ({ ...prev, hp: 10 }))")
  = (u "actions.setPlayer({ ...player, hp: 10 })", (1, 0%Z, 1))
  /\ contains (u "actions.setPlayer({ ...player, hp: 10})")
       (u "actions.setPlayer({ ...player, hp: 10 })") = false.
Proof. split; vm_compute; reflexivity. Qed.

(** ** The line splice of replace_ui_components.py *)
Section Splice.
Context {A : Type}.

Lemma line_range_rule_length (start stop : nat) (block : A) (lines : list A) :
  1 <= start -> start <= stop -> stop <= length lines + 1 ->
  length (line_range_rule start stop block lines)
  = length lines - (stop - start) + 1.
Proof.
  intros H1 H2 H3. unfold line_range_rule.
  rewrite !length_app, length_take, length_drop. simpl. lia.
Qed.

Lemma line_range_rule_before (start stop : nat) (block : A) (lines : list A)
    (i : nat) :
  stop <= length lines + 1 -> start <= stop -> i < start - 1 ->
  line_range_rule start stop block lines !! i = lines !! i.
Proof.
  intros H3 H2 Hi. unfold line_range_rule.
  rewrite lookup_app_l by (rewrite length_take; lia).
  apply lookup_take_lt. lia.
Qed.

Lemma line_range_rule_block (start stop : nat) (block : A) (lines : list A) :
  1 <= start -> start <= length lines + 1 ->
  line_range_rule start stop block lines !! (start - 1) = Some block.
Proof.
  intros H1 H3. unfold line_range_rule.
  rewrite lookup_app_r by (rewrite length_take; lia).
  rewrite length_take.
  replace (start - 1 - (start - 1) `min` length lines) with 0 by lia.
  reflexivity.
Qed.

Lemma line_range_rule_after (start stop : nat) (block : A) (lines : list A)
    (j : nat) :
  1 <= start -> start <= stop -> stop <= length lines + 1 -> stop - 1 <= j ->
  line_range_rule start stop block lines !! (j - (stop - start) + 1)
  = lines !! j.
Proof.
  intros H1 H2 H3 Hj. unfold line_range_rule.
  rewrite lookup_app_r by (rewrite length_take; lia).
  rewrite length_take.
  replace (j - (stop - start) + 1 - (start - 1) `min` length lines)
    with (S (j - (stop - 1))) by lia.
  simpl. rewrite lookup_drop. f_equal. lia.
Qed.

End Splice.

(** C3: for a valid half-open 1-indexed interval the line-range rule
    gives [lines[0:start-1] + [B] + lines[end-1:]], of length
    [N - (end - start) + 1]; the lines before [start] keep their place
    and content, the block comes next, and the lines from [end] on
    follow unchanged.  The splice of the script is this rule for
    [start = 3628], [end = 4197] and the block [new_code]. *)
Theorem line_splice_exact (lines : list str) (start stop : nat) (block : str) :
  1 <= start -> start <= stop -> stop <= length lines + 1 ->
  line_range_rule start stop block lines
  = take (start - 1) lines ++ [block] ++ drop (stop - 1) lines
  /\ length (line_range_rule start stop block lines)
     = length lines - (stop - start) + 1
  /\ (forall i, i < start - 1 ->
        line_range_rule start stop block lines !! i = lines !! i)
  /\ line_range_rule start stop block lines !! (start - 1) = Some block
  /\ (forall j, stop - 1 <= j ->
        line_range_rule start stop block lines !! (j - (stop - start) + 1)
        = lines !! j)
  /\ ReplaceUiComponents.new_lines lines
     = line_range_rule 3628 4197 ReplaceUiComponents.new_code lines
  /\ (4196 <= length lines ->
      length (ReplaceUiComponents.new_lines lines) = length lines - 569 + 1
      /\ (forall i, i < 3627 ->
            ReplaceUiComponents.new_lines lines !! i = lines !! i)
      /\ (forall j, 4196 <= j ->
            ReplaceUiComponents.new_lines lines !! (j - 568) = lines !! j)).
Proof.
  intros H1 H2 H3.
  split; [reflexivity|].
  split; [apply line_range_rule_length; assumption|].
  split; [intros i Hi; apply line_range_rule_before; assumption|].
  split; [apply line_range_rule_block; lia|].
  split; [intros j Hj; apply line_range_rule_after; assumption|].
  split; [reflexivity|].
  intros Hlen.
  change (ReplaceUiComponents.new_lines lines)
    with (line_range_rule 3628 4197 ReplaceUiComponents.new_code lines).
  split; [rewrite line_range_rule_length; lia|].
  split.
  - intros i Hi. apply line_range_rule_before; lia.
  - intros j Hj.
    replace (j - 568) with (j - (4197 - 3628) + 1) by lia.
    apply line_range_rule_after; lia.
Qed.

Lemma line_splice_exact_witness :
  length (ReplaceUiComponents.new_lines (replicate 4200 (u "x")))
  = 4200 - (4197 - 3628) + 1.
Proof.
  change (ReplaceUiComponents.new_lines (replicate 4200 (u "x")))
    with (line_range_rule 3628 4197 ReplaceUiComponents.new_code
            (replicate 4200 (u "x"))).
  apply (line_splice_exact (replicate 4200 (u "x")) 3628 4197
           ReplaceUiComponents.new_code);
    rewrite ?length_replicate; lia.
Defined.

(** ** The runs of the scripts *)

Lemma phase_backup_path_differs : MigratePhase.backup_path <> file_path.
Proof.
  intros E. apply (f_equal String.length) in E. vm_compute in E.
  discriminate.
Qed.

Lemma func_update_backup_path_differs :
  FixFunctionalUpdates.backup_path <> file_path.
Proof.
  intros E. apply (f_equal String.length) in E. vm_compute in E.
  discriminate.
Qed.

(** The cases of a run of a regex script: how the read, the backup and
    the save fare. *)
Ltac run_cases env fs :=
  unfold mbind, io_bind, mret, io_ret;
  unfold read_text at 1; cbn [trace files length];
  destruct (env 0) eqn:?; destruct (fs !! file_path) eqn:?;
  unfold log; cbn [files trace app];
  try (unfold write_text at 1; cbn [trace files length app];
       destruct (env 1) eqn:?; unfold log; cbn [files trace app];
       try (match goal with
            | |- context [MigratePhase.substitutions ?c] =>
                destruct (MigratePhase.substitutions c) as [[? ?] ?]
            | |- context [FixFunctionalUpdates.substitutions ?c] =>
                destruct (FixFunctionalUpdates.substitutions c) as [? ?]
            end;
            unfold write_text; cbn [trace files length app];
            destruct (env 2) eqn:?; unfold log; cbn [files trace app])).

(** The event at an unknown position of a short concrete trace: one
    goal per position. *)
Ltac at_index i H :=
  cbn in H;
  first [ discriminate H
        | destruct i as [|i]; [cbn in H; try discriminate H | at_index i H] ].

Section Runs.
Context `{db : UnicodeDB}.
Variable env : nat -> outcome.
Variable fs : gmap string str.

Lemma phase_run_shape :
  guarded_run fs MigratePhase.backup_path
    (MigratePhase.main env (World fs [])).1.
Proof.
  unfold MigratePhase.main.
  run_cases env fs; cbn [fst]; econstructor; eassumption.
Qed.

Lemma func_update_run_shape :
  guarded_run fs FixFunctionalUpdates.backup_path
    (FixFunctionalUpdates.main env (World fs [])).1.
Proof.
  unfold FixFunctionalUpdates.main.
  run_cases env fs; cbn [fst]; econstructor; eassumption.
Qed.

Lemma guarded_run_backup_first (bpath : string) (w : world) :
  bpath <> file_path -> guarded_run fs bpath w ->
  backup_precedes_mutation fs bpath w.
Proof.
  intros Hne Hrun Hchanged.
  inversion Hrun as [|c Hc|c n Hc|c Hc|c c' n Hc|c c' Hc]; subst w;
    cbn [files trace] in *.
  - congruence.
  - congruence.
  - rewrite lookup_insert_ne in Hchanged by congruence. congruence.
  - rewrite lookup_insert_ne in Hchanged by congruence. congruence.
  - exists c. repeat split; try assumption; try reflexivity.
    + rewrite lookup_insert_ne by congruence. apply lookup_insert_eq.
    + intros j d ok Hj. at_index j Hj; try lia.
      injection Hj as E1 E2 E3. congruence.
  - exists c. repeat split; try assumption; try reflexivity.
    + rewrite lookup_insert_ne by congruence. apply lookup_insert_eq.
    + intros j d ok Hj. at_index j Hj; try lia.
      injection Hj as E1 E2 E3. congruence.
Qed.

End Runs.


(** ** Independence from the rest of the world *)
Section Agreement.
Variable env : nat -> outcome.

Lemma read_target_agree : depends_only_on_target (read_text env file_path).
Proof.
  intros w1 w2 [Ht Hf]. unfold read_text. rewrite Ht, Hf.
  destruct (env (length (trace w2))), (files w2 !! file_path) eqn:E2;
    unfold agree, log; cbn [fst snd files trace]; rewrite ?Ht;
    repeat split; congruence.
Qed.

Lemma write_text_agree (p : string) (text : str) :
  depends_only_on_target (write_text env p text).
Proof.
  intros w1 w2 [Ht Hf]. unfold write_text. rewrite Ht.
  destruct (env (length (trace w2)));
    unfold agree, log; cbn [fst snd files trace]; rewrite ?Ht;
    (split; [split|]); try reflexivity; try assumption.
  all: destruct (decide (p = file_path)) as [->|Hp];
    [rewrite !lookup_insert_eq; reflexivity
    |rewrite !lookup_insert_ne by exact Hp; exact Hf].
Qed.

Lemma ret_agree {R} (a : R) : depends_only_on_target (mret a).
Proof. intros w1 w2 Hw. split; [exact Hw|reflexivity]. Qed.

Lemma bind_agree {A B} (m : io A) (k : A -> io B) :
  depends_only_on_target m ->
  (forall a, depends_only_on_target (k a)) ->
  depends_only_on_target (m ≫= k).
Proof.
  intros Hm Hk w1 w2 Hw. unfold mbind, io_bind.
  destruct (Hm w1 w2 Hw) as [Hw' Hr].
  destruct (m w1) as [w1' r1], (m w2) as [w2' r2]. cbn [fst snd] in *.
  subst r2. destruct r1 as [a|]; [apply Hk; exact Hw'|].
  split; [exact Hw'|reflexivity].
Qed.

Lemma phase_main_agree `{db : UnicodeDB} :
  depends_only_on_target (MigratePhase.main env).
Proof.
  unfold MigratePhase.main.
  apply bind_agree; [apply read_target_agree|]. intros content.
  apply bind_agree; [apply write_text_agree|]. intros _.
  destruct (MigratePhase.substitutions content) as [[content' counts] changes].
  apply bind_agree; [apply write_text_agree|]. intros _. apply ret_agree.
Qed.

Lemma func_update_main_agree `{db : UnicodeDB} :
  depends_only_on_target (FixFunctionalUpdates.main env).
Proof.
  unfold FixFunctionalUpdates.main.
  apply bind_agree; [apply read_target_agree|]. intros content.
  apply bind_agree; [apply write_text_agree|]. intros _.
  destruct (FixFunctionalUpdates.substitutions content) as [content' report].
  apply bind_agree; [apply write_text_agree|]. intros _. apply ret_agree.
Qed.

Lemma replace_ui_main_agree :
  depends_only_on_target (ReplaceUiComponents.main env).
Proof.
  unfold ReplaceUiComponents.main, readlines, writelines.
  apply bind_agree.
  - apply bind_agree; [apply read_target_agree|]. intros text.
    apply ret_agree.
  - intros lines.
    apply bind_agree; [apply write_text_agree|]. intros _. apply ret_agree.
Qed.

Lemma agree_same_run {R} (prog : io R) (fs1 fs2 : gmap string str) :
  depends_only_on_target prog ->
  fs1 !! file_path = fs2 !! file_path -> same_run prog fs1 fs2.
Proof.
  intros Hprog Hfs.
  destruct (Hprog (World fs1 []) (World fs2 [])) as [[Ht Hf] Hr].
  { split; [reflexivity|exact Hfs]. }
  unfold same_run. auto.
Qed.

End Agreement.

(** C10: each script is a function of the text of the target file alone.
    Two runs from file systems that hold the same text at the target
    path -- whatever else they hold -- and meet the same I/O outcomes
    end with the same report (the counts printed), perform the same I/O
    with the same texts written, and leave the same text in the target
    file. *)
Theorem scripts_depend_only_on_target `{db : UnicodeDB}
    (env : nat -> outcome) (fs1 fs2 : gmap string str) :
  fs1 !! file_path = fs2 !! file_path ->
  same_run (MigratePhase.main env) fs1 fs2
  /\ same_run (FixFunctionalUpdates.main env) fs1 fs2
  /\ same_run (ReplaceUiComponents.main env) fs1 fs2.
Proof.
  intros Hfs. repeat split.
  all: apply agree_same_run;
    [first [apply phase_main_agree | apply func_update_main_agree
           | apply replace_ui_main_agree]
    |exact Hfs].
Qed.

Lemma scripts_depend_only_on_target_witness :
  same_run (MigratePhase.main (db := ascii_db) no_faults)
    {[file_path := u "phase === 'select'"]}
    (<["notes.txt" := u "x"]> {[file_path := u "phase === 'select'"]}).
Proof.
  apply (scripts_depend_only_on_target (db := ascii_db) no_faults
           {[file_path := u "phase === 'select'"]}
           (<["notes.txt" := u "x"]> {[file_path := u "phase === 'select'"]})).
  vm_compute. reflexivity.
Defined.

(** ** The run of replace_ui_components.py *)
Section ReplaceUi.
Import ReplaceUiComponents.

(** Writing back the lines read gives the text read. *)
Lemma concat_text_lines (s : str) : concat (text_lines s) = s.
Proof.
  induction s as [|c s IH]; [reflexivity|].
  simpl. destruct (c =? 10)%N.
  - simpl. rewrite IH. reflexivity.
  - destruct (text_lines s) as [|l ls]; simpl in *; rewrite <- IH;
      reflexivity.
Qed.


(** A run whose read and write complete. *)
Lemma main_completes (env : nat -> outcome) (fs : gmap string str)
    (text : str) :
  fs !! file_path = Some text ->
  env 0 = Completes -> env 1 = Completes ->
  main env (World fs [])
  = (World (<[file_path := concat (new_lines (text_lines text))]> fs)
       [EvRead file_path true;
        EvWrite file_path (concat (new_lines (text_lines text))) true],
     Ret (length (text_lines text), length (new_lines (text_lines text)),
          (Z.of_nat (length (text_lines text))
           - Z.of_nat (length (new_lines (text_lines text))))%Z)).
Proof.
  intros Hfs E0 E1.
  unfold main, readlines, writelines, mbind, io_bind, mret, io_ret.
  unfold read_text. cbn [trace files length]. rewrite E0, Hfs.
  unfold log, write_text. cbn [trace files length app]. rewrite E1.
  reflexivity.
Qed.

End ReplaceUi.




(** C1 on the code.  The two regex scripts keep the invariant: whenever
    a run leaves the target with another text than before, the backup,
    completed before the target was written, holds the old text.  The
    line-range script breaks it: on a target holding [const a = 1;] its
    run overwrites the target and writes no other file, so that no
    path whatever satisfies the invariant. *)
Theorem backup_precedes_mutation_on_the_code `{db : UnicodeDB} :
  (forall (env : nat -> outcome) (fs : gmap string str),
     backup_precedes_mutation fs MigratePhase.backup_path
       (MigratePhase.main env (World fs [])).1
     /\ backup_precedes_mutation fs FixFunctionalUpdates.backup_path
          (FixFunctionalUpdates.main env (World fs [])).1)
  /\ (let fs : gmap string str := {[file_path := u "const a = 1;"]} in
      let w := (ReplaceUiComponents.main no_faults (World fs [])).1 in
      files w !! file_path
      = Some (u "const a = 1;" ++ ReplaceUiComponents.new_code)
      /\ files w !! file_path <> fs !! file_path
      /\ trace w
         = [EvRead file_path true;
            EvWrite file_path
              (u "const a = 1;" ++ ReplaceUiComponents.new_code) true]
      /\ (forall bpath : string, ~ backup_precedes_mutation fs bpath w)).
Proof.
  split.
  - intros env fs. split.
    + apply guarded_run_backup_first;
        [apply phase_backup_path_differs|apply phase_run_shape].
    + apply guarded_run_backup_first;
        [apply func_update_backup_path_differs|apply func_update_run_shape].
  - cbv zeta.
    rewrite (main_completes no_faults {[file_path := u "const a = 1;"]}
               (u "const a = 1;"))
      by (reflexivity || apply lookup_singleton_eq).
    cbn [fst files trace].
    change (text_lines (u "const a = 1;")) with [u "const a = 1;"].
    change (ReplaceUiComponents.new_lines [u "const a = 1;"])
      with [u "const a = 1;"; ReplaceUiComponents.new_code].
    cbn [concat]. rewrite app_nil_r.
    assert (u "const a = 1;" ++ ReplaceUiComponents.new_code
            <> u "const a = 1;") as Hdiff.
    { intros E. apply (f_equal length) in E. vm_compute in E.
      discriminate. }
    rewrite lookup_insert_eq, lookup_singleton_eq.
    split; [reflexivity|]. split; [congruence|]. split; [reflexivity|].
    intros bpath Hb. unfold backup_precedes_mutation in Hb.
    cbn [files trace] in Hb.
    rewrite lookup_insert_eq, lookup_singleton_eq in Hb.
    destruct Hb as (c & Hc & _ & Ht & _); [congruence|].
    change (Some (EvWrite file_path
                    (u "const a = 1;" ++ ReplaceUiComponents.new_code) true)
            = Some (EvWrite bpath c true)) in Ht.
    congruence.
Qed.

(** * Further properties of the scripts *)

(** ** How the runs end *)
Section RunOutcomes.
Context `{db : UnicodeDB}.
Variable env : nat -> outcome.
Variable fs : gmap string str.

Lemma phase_main_completes (content : str) :
  fs !! file_path = Some content ->
  env 0 = Completes -> env 1 = Completes -> env 2 = Completes ->
  MigratePhase.main env (World fs [])
  = (World
       (<[file_path := (MigratePhase.substitutions content).1.1]>
          (<[MigratePhase.backup_path := content]> fs))
       [EvRead file_path true;
        EvWrite MigratePhase.backup_path content true;
        EvWrite file_path (MigratePhase.substitutions content).1.1 true],
     Ret ((MigratePhase.substitutions content).1.2,
          (MigratePhase.substitutions content).2)).
Proof.
  intros Hfs E0 E1 E2.
  unfold MigratePhase.main, mbind, io_bind, mret, io_ret.
  unfold read_text. cbn [trace files length]. rewrite E0, Hfs.
  unfold log, write_text. cbn [trace files length app]. rewrite E1.
  destruct (MigratePhase.substitutions content) as [[content' counts] changes].
  cbn [trace files length app fst snd]. rewrite E2. reflexivity.
Qed.

Lemma func_update_main_completes (content : str) :
  fs !! file_path = Some content ->
  env 0 = Completes -> env 1 = Completes -> env 2 = Completes ->
  FixFunctionalUpdates.main env (World fs [])
  = (World
       (<[file_path := (FixFunctionalUpdates.substitutions content).1]>
          (<[FixFunctionalUpdates.backup_path := content]> fs))
       [EvRead file_path true;
        EvWrite FixFunctionalUpdates.backup_path content true;
        EvWrite file_path (FixFunctionalUpdates.substitutions content).1 true],
     Ret (FixFunctionalUpdates.substitutions content).2).
Proof.
  intros Hfs E0 E1 E2.
  unfold FixFunctionalUpdates.main, mbind, io_bind, mret, io_ret.
  unfold read_text. cbn [trace files length]. rewrite E0, Hfs.
  unfold log, write_text. cbn [trace files length app]. rewrite E1.
  destruct (FixFunctionalUpdates.substitutions content) as [content' report].
  cbn [trace files length app fst snd]. rewrite E2. reflexivity.
Qed.

Lemma phase_main_ret (w : world) rep :
  MigratePhase.main env (World fs []) = (w, Ret rep) ->
  exists content, fs !! file_path = Some content
    /\ env 0 = Completes /\ env 1 = Completes /\ env 2 = Completes.
Proof.
  unfold MigratePhase.main. run_cases env fs; intros [= ]; eauto.
Qed.

Lemma func_update_main_ret (w : world) rep :
  FixFunctionalUpdates.main env (World fs []) = (w, Ret rep) ->
  exists content, fs !! file_path = Some content
    /\ env 0 = Completes /\ env 1 = Completes /\ env 2 = Completes.
Proof.
  unfold FixFunctionalUpdates.main. run_cases env fs; intros [= ]; eauto.
Qed.

Lemma replace_ui_main_ret (w : world) rep :
  ReplaceUiComponents.main env (World fs []) = (w, Ret rep) ->
  exists text, fs !! file_path = Some text
    /\ env 0 = Completes /\ env 1 = Completes.
Proof.
  unfold ReplaceUiComponents.main, readlines, writelines,
    mbind, io_bind, mret, io_ret.
  unfold read_text. cbn [trace files length].
  destruct (env 0) eqn:E0; destruct (fs !! file_path) eqn:Ef;
    unfold log, write_text; cbn [trace files length app];
    try (intros [= ]; fail).
  destruct (env 1) eqn:E1; intros [= ]; eauto.
Qed.

(** The shape of a run of replace_ui_components.py. *)
Lemma replace_ui_files (p : string) :
  p <> file_path ->
  files (ReplaceUiComponents.main env (World fs [])).1 !! p = fs !! p.
Proof.
  intros Hp.
  unfold ReplaceUiComponents.main, readlines, writelines,
    mbind, io_bind, mret, io_ret.
  unfold read_text. cbn [trace files length].
  destruct (env 0); destruct (fs !! file_path);
    unfold log, write_text; cbn [trace files length app fst];
    try reflexivity.
  destruct (env 1); cbn [fst files]; rewrite ?lookup_insert_ne by congruence;
    reflexivity.
Qed.

Lemma guarded_run_files (bpath : string) (w : world) (p : string) :
  guarded_run fs bpath w -> p <> file_path -> p <> bpath ->
  files w !! p = fs !! p.
Proof.
  intros Hrun Hp Hb. inversion Hrun; subst w; cbn [files];
    rewrite ?lookup_insert_ne by congruence; reflexivity.
Qed.

End RunOutcomes.

(** X2: when the target file is missing, or cannot be read, each script
    raises at its first operation: nothing is written, no backup is
    created, the file system is as before. *)
Theorem unreadable_target_changes_nothing `{db : UnicodeDB}
    (env : nat -> outcome) (fs : gmap string str) :
  fs !! file_path = None \/ env 0 <> Completes ->
  MigratePhase.main env (World fs [])
  = (World fs [EvRead file_path false], Raised)
  /\ FixFunctionalUpdates.main env (World fs [])
     = (World fs [EvRead file_path false], Raised)
  /\ ReplaceUiComponents.main env (World fs [])
     = (World fs [EvRead file_path false], Raised).
Proof.
  intros Hbad.
  unfold MigratePhase.main, FixFunctionalUpdates.main,
    ReplaceUiComponents.main, readlines, mbind, io_bind, mret, io_ret.
  unfold read_text. cbn [trace files length].
  destruct (env 0) eqn:E0, (fs !! file_path) eqn:Ef;
    try (destruct Hbad; congruence); auto.
Qed.

Lemma unreadable_target_changes_nothing_witness :
  MigratePhase.main (db := ascii_db) no_faults (World ∅ [])
  = (World ∅ [EvRead file_path false], Raised).
Proof.
  apply (unreadable_target_changes_nothing (db := ascii_db) no_faults ∅).
  left. apply lookup_empty.
Defined.

(** X3: whatever the I/O outcomes, a run touches no file but the target
    and, for the two regex scripts, its backup: every other path holds
    after the run what it held before. *)
Theorem other_files_untouched `{db : UnicodeDB} (env : nat -> outcome)
    (fs : gmap string str) (p : string) :
  p <> file_path ->
  (p <> MigratePhase.backup_path ->
   files (MigratePhase.main env (World fs [])).1 !! p = fs !! p)
  /\ (p <> FixFunctionalUpdates.backup_path ->
      files (FixFunctionalUpdates.main env (World fs [])).1 !! p = fs !! p)
  /\ files (ReplaceUiComponents.main env (World fs [])).1 !! p = fs !! p.
Proof.
  intros Hp. split; [|split].
  - intros Hb. apply (guarded_run_files fs MigratePhase.backup_path);
      [apply phase_run_shape|assumption..].
  - intros Hb. apply (guarded_run_files fs FixFunctionalUpdates.backup_path);
      [apply func_update_run_shape|assumption..].
  - apply replace_ui_files. exact Hp.
Qed.

Lemma other_files_untouched_witness :
  files (ReplaceUiComponents.main no_faults
           (World (<["notes.txt" := u "x"]> {[file_path := u "a"]}) [])).1
    !! "notes.txt"
  = (<["notes.txt" := u "x"]> {[file_path := u "a"]} : gmap string str)
      !! "notes.txt".
Proof.
  apply (other_files_untouched (db := ascii_db) no_faults
           (<["notes.txt" := u "x"]> {[file_path := u "a"]}) "notes.txt").
  intros E. apply (f_equal String.length) in E. vm_compute in E.
  discriminate.
Defined.

(** ** Counting the substitutions *)
Section Counting.
Context `{db : UnicodeDB}.

Lemma attempt_count_indep {G1 G2} (r : regex)
    (f1 : match_obj -> G1 -> str * G1) (f2 : match_obj -> G2 -> str * G2)
    prev (s : str) g1 g2 :
  (attempt r f1 prev s g1).1.1.2 = (attempt r f2 prev s g2).1.1.2
  /\ (attempt r f1 prev s g1).1.2 = (attempt r f2 prev s g2).1.2.
Proof.
  unfold attempt. destruct (match_here r false prev s) as [m|]; [|auto].
  destruct (f1 m g1) as [o1 h1], (f2 m g2) as [o2 h2].
  destruct (length (m_text m)); [|auto].
  destruct s as [|c s]; [auto|].
  destruct (match_here r true prev (c :: s)) as [m2|]; [|auto].
  destruct (f1 m2 h1), (f2 m2 h2). auto.
Qed.

(** The number of substitutions does not depend on what is
    substituted. *)
Lemma scan_count_indep {G1 G2} (r : regex)
    (f1 : match_obj -> G1 -> str * G1) (f2 : match_obj -> G2 -> str * G2)
    (s : str) : forall prev skip g1 g2,
  (scan r f1 prev s skip g1).1.2 = (scan r f2 prev s skip g2).1.2.
Proof.
  induction s as [|c s IH]; intros prev skip g1 g2.
  - destruct skip; [|reflexivity]. simpl.
    pose proof (attempt_count_indep r f1 f2 prev [] g1 g2) as [_ Hn].
    destruct (attempt r f1 prev [] g1) as [[[e1 l1] n1] h1].
    destruct (attempt r f2 prev [] g2) as [[[e2 l2] n2] h2].
    exact Hn.
  - destruct skip as [|k]; [|apply IH]. simpl.
    pose proof (attempt_count_indep r f1 f2 prev (c :: s) g1 g2) as [Hl Hn].
    destruct (attempt r f1 prev (c :: s) g1) as [[[e1 l1] n1] h1].
    destruct (attempt r f2 prev (c :: s) g2) as [[[e2 l2] n2] h2].
    cbn [fst snd] in Hl, Hn. subst l2 n2.
    destruct l1 as [|k].
    + specialize (IH (Some c) 0 h1 h2).
      destruct (scan r f1 (Some c) s 0 h1) as [[o1 m1] j1].
      destruct (scan r f2 (Some c) s 0 h2) as [[o2 m2] j2].
      cbn [fst snd] in *. congruence.
    + specialize (IH (Some c) k h1 h2).
      destruct (scan r f1 (Some c) s k h1) as [[o1 m1] j1].
      destruct (scan r f2 (Some c) s k h2) as [[o2 m2] j2].
      cbn [fst snd] in *. congruence.
Qed.

(** A callback that bumps its counter ends with the counter raised by
    the number of substitutions. *)
Lemma scan_counter (r : regex) (cb : match_obj -> nat -> str * nat) :
  bumps_counter cb ->
  forall (s : str) prev skip g,
    (scan r cb prev s skip g).2 = g + (scan r cb prev s skip g).1.2.
Proof.
  intros Hcb.
  assert (forall prev s g,
            (attempt r cb prev s g).2 = g + (attempt r cb prev s g).1.2) as Ha.
  { intros prev s g. unfold attempt.
    destruct (match_here r false prev s) as [m|]; [|simpl; lia].
    pose proof (Hcb m g) as H1. destruct (cb m g) as [o1 g1].
    cbn [snd] in H1. subst g1.
    destruct (length (m_text m)); [|simpl; lia].
    destruct s as [|c s]; [simpl; lia|].
    destruct (match_here r true prev (c :: s)) as [m2|]; [|simpl; lia].
    pose proof (Hcb m2 (g + 1)) as H2. destruct (cb m2 (g + 1)) as [o2 g2].
    cbn [snd] in H2. subst g2. simpl. lia. }
  induction s as [|c s IH]; intros prev skip g.
  - destruct skip; [|simpl; lia]. simpl.
    specialize (Ha prev [] g).
    destruct (attempt r cb prev [] g) as [[[e l] n] g1]. exact Ha.
  - destruct skip as [|k]; [|apply IH]. simpl.
    specialize (Ha prev (c :: s) g).
    destruct (attempt r cb prev (c :: s) g) as [[[e l] n] g1].
    cbn [fst snd] in Ha. subst g1.
    destruct l as [|k].
    + specialize (IH (Some c) 0 (g + n)).
      destruct (scan r cb (Some c) s 0 (g + n)) as [[o n'] g2].
      cbn [fst snd] in *. lia.
    + specialize (IH (Some c) k (g + n)).
      destruct (scan r cb (Some c) s k (g + n)) as [[o n'] g2].
      cbn [fst snd] in *. lia.
Qed.

(** A match somewhere gives a count of at least one. *)
Lemma scan_count_pos {G} (r : regex) (repl : match_obj -> G -> str * G)
    (s : str) : forall prev g,
  search r prev s <> None -> 0 < (scan r repl prev s 0 g).1.2.
Proof.
  induction s as [|c s IH]; intros prev g; simpl search; simpl scan;
    unfold attempt.
  - destruct (match_here r false prev []) as [m|]; [|congruence].
    intros _. destruct (repl m g) as [o1 g1].
    destruct (length (m_text m)); simpl; lia.
  - destruct (match_here r false prev (c :: s)) as [m|] eqn:E.
    + intros _. destruct (repl m g) as [o1 g1].
      destruct (length (m_text m)) as [|k].
      * destruct (match_here r true prev (c :: s)) as [m2|].
        -- destruct (repl m2 g1) as [o2 g2].
           destruct (length (m_text m2)) as [|k2].
           ++ destruct (scan r repl (Some c) s 0 g2) as [[o n'] g3].
              simpl. lia.
           ++ destruct (scan r repl (Some c) s k2 g2) as [[o n'] g3].
              simpl. lia.
        -- destruct (scan r repl (Some c) s 0 g1) as [[o n'] g3].
           simpl. lia.
      * destruct (scan r repl (Some c) s k g1) as [[o n'] g3]. simpl. lia.
    + intros Hs. specialize (IH (Some c) g).
      destruct (search r (Some c) s) as [[i m]|]; [|congruence].
      specialize (IH ltac:(discriminate)).
      destruct (scan r repl (Some c) s 0 g) as [[o n'] g3].
      simpl in *. lia.
Qed.

Lemma replace1_bumps : bumps_counter FixFunctionalUpdates.replace1.
Proof. intros m g. reflexivity. Qed.

Lemma replace2_bumps : bumps_counter FixFunctionalUpdates.replace2.
Proof. intros m g. reflexivity. Qed.

End Counting.

(** X4: a rule of migrate_phase.py, and [re.subn] in general, reports a
    count of 0 exactly when its pattern matches nowhere in the buffer it
    is given; the buffer is then returned as it is.  A count of 0 thus
    means that the rule changed nothing. *)
Theorem zero_count_iff_no_match `{db : UnicodeDB} (r : regex)
    (template buf : str) :
  ((re_subn r template buf).2 = 0 <-> search r None buf = None)
  /\ ((re_subn r template buf).2 = 0 -> (re_subn r template buf).1 = buf).
Proof.
  assert ((re_subn r template buf).2 = 0 -> search r None buf = None) as Hz.
  { intros Hn. destruct (search r None buf) as [[i m]|] eqn:E; [|reflexivity].
    pose proof (scan_count_pos r (template_repl template) buf None tt) as Hp.
    rewrite E in Hp. specialize (Hp ltac:(discriminate)).
    unfold re_subn, subn_from in Hn.
    destruct (scan r (template_repl template) None buf 0 tt) as [[o n] g].
    simpl in *. lia. }
  split; [split|].
  - exact Hz.
  - intros E. unfold re_subn. rewrite subn_from_none by exact E. reflexivity.
  - intros Hn. unfold re_subn. rewrite subn_from_none by exact (Hz Hn).
    reflexivity.
Qed.

Lemma zero_count_iff_no_match_witness :
  (re_subn (db := ascii_db) MigratePhase.pattern3 MigratePhase.replacement3
     (u "phase === 1")).1 = u "phase === 1".
Proof.
  apply (zero_count_iff_no_match (db := ascii_db) MigratePhase.pattern3
           MigratePhase.replacement3 (u "phase === 1")).
  vm_compute. reflexivity.
Defined.

(** X5: in fix_functional_updates.py the global [changes], bumped by the
    callbacks, counts the substitutions exactly: the three numbers the
    script prints are the count [re.subn] would report for the setPlayer
    rule, the count for the setEnemy rule on the buffer the first rule
    returned (never negative), and their sum. *)
Theorem changes_counts_substitutions `{db : UnicodeDB}
    (content t1 t2 : str) :
  let n1 := (re_subn FixFunctionalUpdates.pattern1 t1 content).2 in
  let content1 :=
    (re_sub FixFunctionalUpdates.pattern1 FixFunctionalUpdates.replace1
       content 0).1 in
  let n2 := (re_subn FixFunctionalUpdates.pattern2 t2 content1).2 in
  (FixFunctionalUpdates.substitutions content).2
  = (n1, Z.of_nat n2, n1 + n2).
Proof.
  cbv zeta. unfold FixFunctionalUpdates.substitutions, re_sub, sub_from,
    re_subn, subn_from.
  pose proof (scan_counter FixFunctionalUpdates.pattern1
                FixFunctionalUpdates.replace1 replace1_bumps content None 0 0)
    as H1.
  pose proof (scan_count_indep FixFunctionalUpdates.pattern1
                FixFunctionalUpdates.replace1 (template_repl t1)
                content None 0 0 tt) as I1.
  destruct (scan FixFunctionalUpdates.pattern1 FixFunctionalUpdates.replace1
              None content 0 0) as [[c1 m1] g1].
  destruct (scan FixFunctionalUpdates.pattern1 (template_repl t1)
              None content 0 tt) as [[c1' m1'] []].
  cbn [fst snd] in *. subst m1' g1.
  pose proof (scan_counter FixFunctionalUpdates.pattern2
                FixFunctionalUpdates.replace2 replace2_bumps c1 None 0
                (0 + m1)) as H2.
  pose proof (scan_count_indep FixFunctionalUpdates.pattern2
                FixFunctionalUpdates.replace2 (template_repl t2)
                c1 None 0 (0 + m1) tt) as I2.
  destruct (scan FixFunctionalUpdates.pattern2 FixFunctionalUpdates.replace2
              None c1 0 (0 + m1)) as [[c2 m2] g2].
  destruct (scan FixFunctionalUpdates.pattern2 (template_repl t2)
              None c1 0 tt) as [[c2' m2'] []].
  cbn [fst snd] in *. subst m2' g2.
  replace (0 + m1 + m2) with (m1 + m2) by lia.
  replace (0 + m1) with m1 by lia.
  replace (Z.of_nat (m1 + m2) - Z.of_nat m1)%Z with (Z.of_nat m2) by lia.
  reflexivity.
Qed.

(** ** Buffers without the identifiers the rules look for *)
Section Literals.
Context `{db : UnicodeDB}.

Lemma contains_suffix (sub a b : str) :
  contains sub b = true -> contains sub (a ++ b) = true.
Proof.
  intros Hb. induction a as [|c a IH]; [exact Hb|].
  simpl. rewrite IH. apply orb_true_r.
Qed.

(** A literal matches its own text only. *)
Lemma exec_lit {A} (l : str) : forall prev acc s gs (k : kont A) x,
  exec (lit l) prev acc s gs k = Some x ->
  exists s', s = l ++ s'
    /\ k (last_of prev l) (rev l ++ acc) s' gs = Some x.
Proof.
  induction l as [|c l IH]; intros prev acc s gs k x; simpl.
  - intros Hk. exists s. auto.
  - destruct s as [|d s]; [discriminate|].
    destruct (d =? c)%N eqn:Ed; [|discriminate].
    apply N.eqb_eq in Ed. subst d. intros E.
    apply IH in E as (s' & -> & Hk). exists s'. split; [reflexivity|].
    rewrite last_of_cons, <- app_assoc. exact Hk.
Qed.

(** A pattern with a literal among its factors matches only where the
    literal occurs. *)
Lemma cats_needs_literal {A} (rs1 : list regex) (l : str)
    (rs3 : list regex) : forall prev acc s gs (k : kont A) x,
  exec (cats (rs1 ++ lit l :: rs3)) prev acc s gs k = Some x ->
  contains l (rev acc ++ s) = true.
Proof.
  induction rs1 as [|r rs1 IH]; intros prev acc s gs k x; simpl.
  - intros E. apply exec_lit in E as (s' & -> & _). apply contains_app.
  - intros E. apply exec_sound in E as (p1 & a1 & s1 & g1 & E & Hs).
    rewrite <- Hs. exact (IH _ _ _ _ _ _ E).
Qed.

Lemma no_literal_no_match (r : regex) (rs1 : list regex) (l : str)
    (rs3 : list regex) (s : str) prev :
  r = cats (rs1 ++ lit l :: rs3) ->
  contains l s = false -> search r prev s = None.
Proof.
  intros -> Hno. apply search_None. intros a b ->.
  destruct (match_here _ false (last_of prev a) b) as [m|] eqn:E;
    [|reflexivity].
  unfold match_here in E. apply cats_needs_literal in E.
  simpl in E. apply (contains_suffix l a) in E. congruence.
Qed.

End Literals.

(** X6: a buffer in which neither [phase] nor [setPhase(] occurs is
    returned unchanged by the seven substitutions of migrate_phase.py,
    all counts 0; a buffer in which neither [actions.setPlayer(] nor
    [actions.setEnemy(] occurs is returned unchanged by
    fix_functional_updates.py with a count of 0.  The rules never touch
    text that is free of their identifiers. *)
Theorem untouched_without_identifiers `{db : UnicodeDB} (content : str) :
  (contains (u "phase") content = false ->
   contains (u "setPhase(") content = false ->
   MigratePhase.substitutions content = (content, [0; 0; 0; 0; 0; 0; 0], 0))
  /\ (contains (u "actions.setPlayer(") content = false ->
      contains (u "actions.setEnemy(") content = false ->
      FixFunctionalUpdates.substitutions content = (content, (0, 0%Z, 0))).
Proof.
  split.
  - intros Hp Hs. unfold MigratePhase.substitutions, re_subn.
    rewrite (subn_from_none MigratePhase.pattern1)
      by (apply (no_literal_no_match _ [WordB] (u "setPhase(") []);
          [reflexivity|exact Hs]).
    rewrite (subn_from_none MigratePhase.pattern2)
      by (apply (no_literal_no_match _ [WordB] (u "phase")
                   [Star CSpace; lit (u "===")]);
          [reflexivity|exact Hp]).
    rewrite (subn_from_none MigratePhase.pattern3)
      by (apply (no_literal_no_match _ [WordB] (u "phase")
                   [Star CSpace; lit (u "!==")]);
          [reflexivity|exact Hp]).
    rewrite (subn_from_none MigratePhase.pattern4)
      by (apply (no_literal_no_match _ [lit (u "("); Star CSpace]
                   (u "phase") [WordB]);
          [reflexivity|exact Hp]).
    rewrite (subn_from_none MigratePhase.pattern5)
      by (apply (no_literal_no_match _ [lit (u ","); Star CSpace]
                   (u "phase") [WordB]);
          [reflexivity|exact Hp]).
    rewrite (subn_from_none MigratePhase.pattern6)
      by (apply (no_literal_no_match _ [lit (u "{"); Star CSpace]
                   (u "phase") [WordB]);
          [reflexivity|exact Hp]).
    rewrite (subn_from_none MigratePhase.pattern7)
      by (apply (no_literal_no_match _ [lit (u "["); Star CSpace]
                   (u "phase") [WordB]);
          [reflexivity|exact Hp]).
    reflexivity.
  - intros Hp He. unfold FixFunctionalUpdates.substitutions, re_sub.
    rewrite (sub_from_none FixFunctionalUpdates.pattern1)
      by (eapply (no_literal_no_match _ [] (u "actions.setPlayer("));
          [reflexivity|exact Hp]).
    rewrite (sub_from_none FixFunctionalUpdates.pattern2)
      by (eapply (no_literal_no_match _ [] (u "actions.setEnemy("));
          [reflexivity|exact He]).
    reflexivity.
Qed.

Lemma untouched_without_identifiers_witness :
  MigratePhase.substitutions (db := ascii_db) (u "const Phase = SetPhase();")
  = (u "const Phase = SetPhase();", [0; 0; 0; 0; 0; 0; 0], 0).
Proof.
  apply (untouched_without_identifiers (db := ascii_db)
           (u "const Phase = SetPhase();"));
    vm_compute; reflexivity.
Defined.

(** ** Matching along a text, factor by factor *)
Section Along.
Context `{db : UnicodeDB}.

(** A literal matches its own text, and goes on behind it. *)
Lemma exec_lit_app {A} (l : str) : forall prev acc s gs (k : kont A),
  exec (lit l) prev acc (l ++ s) gs k
  = k (last_of prev l) (rev l ++ acc) s gs.
Proof.
  induction l as [|c l IH]; intros prev acc s gs k; [reflexivity|].
  simpl. rewrite N.eqb_refl, IH, last_of_cons, <- app_assoc. reflexivity.
Qed.

(** A run of characters of the set, up to a character outside it, is
    taken whole when the rest of the pattern matches behind it. *)
Lemma rep_run {A} (a : cset) (ws : str) :
  forall prev acc (s : str) (k : option N -> str -> str -> option A) x,
    Forall (fun c => in_cset a c = true) ws ->
    run_ends a s ->
    k (last_of prev ws) (rev ws ++ acc) s = Some x ->
    rep a prev acc (ws ++ s) k = Some x.
Proof.
  induction ws as [|c ws IH]; intros prev acc s k x Hws Hs Hk.
  - simpl in *. destruct s as [|d s]; [exact Hk|].
    simpl. simpl in Hs. rewrite Hs. exact Hk.
  - apply Forall_cons in Hws as [Hc Hws]. simpl. rewrite Hc.
    rewrite (IH (Some c) (c :: acc) s k x Hws Hs); [reflexivity|].
    rewrite last_of_cons in Hk. simpl in Hk. rewrite <- app_assoc in Hk.
    exact Hk.
Qed.

(** As [exec_app_stable], for a pattern with [\b] and a following
    character that is no word character. *)
Lemma exec_app_stable_nonword {A} (r : regex) (c : N) (rest : str) :
  may_take r c = false -> is_word c = false ->
  forall prev acc s gs (k1 k2 : kont A),
    (forall p a' x g, k1 p a' (x ++ c :: rest) g = k2 p a' x g) ->
    exec r prev acc (s ++ c :: rest) gs k1 = exec r prev acc s gs k2.
Proof.
  intros Hc Hw. revert Hc.
  induction r as [|a| |r1 IH1 r2 IH2|r1 IH1 r2 IH2|a|a|n r IH];
    simpl; intros Hc prev acc s gs k1 k2 Hk.
  - apply Hk.
  - destruct s as [|d s]; simpl.
    + rewrite Hc. reflexivity.
    + rewrite (Hk (Some d) (d :: acc) s gs). reflexivity.
  - rewrite (Hk prev acc s gs).
    replace (at_boundary prev (s ++ c :: rest)) with (at_boundary prev s);
      [reflexivity|].
    unfold at_boundary. destruct s; simpl; [rewrite Hw|]; reflexivity.
  - apply orb_false_elim in Hc as [Hc1 Hc2].
    apply IH1; [assumption|]. intros p a' x g. apply IH2; assumption.
  - apply orb_false_elim in Hc as [Hc1 Hc2].
    rewrite (IH1 Hc1 prev acc s gs k1 k2 Hk).
    rewrite (IH2 Hc2 prev acc s gs k1 k2 Hk). reflexivity.
  - apply rep_app_stable; [assumption|]. intros p a' x. apply Hk.
  - destruct s as [|d s]; simpl.
    + rewrite Hc. reflexivity.
    + destruct (in_cset a d); [|reflexivity].
      apply rep_app_stable; [assumption|]. intros p a' x. apply Hk.
  - apply IH; [assumption|]. intros p a' x g. apply Hk.
Qed.

End Along.

(** ** The rules [\bphase\s*===] and [\bphase\s*!==] at any site *)
Section PhaseThen.
Context `{db : UnicodeDB}.

Lemma has_wordb_lit (l : str) : has_wordb (lit l) = false.
Proof. induction l as [|c l IH]; [reflexivity|exact IH]. Qed.

Lemma phase_then_shape (op : str) :
  phase_then op
  = Cat WordB (Cat (Cat (One (CChr 112)) (lit (u "hase")))
                   (cats [Star CSpace; lit op])).
Proof. reflexivity. Qed.

Lemma phase_then_first (op : str) adv prev (c : N) (s : str) :
  c <> 112%N -> match_here (phase_then op) adv prev (c :: s) = None.
Proof.
  intros Hc. unfold match_here. rewrite phase_then_shape. cbn [exec].
  destruct (at_boundary prev (c :: s)); [|reflexivity].
  cbn [in_cset]. apply N.eqb_neq in Hc. rewrite Hc. reflexivity.
Qed.

Lemma phase_then_nil (op : str) adv prev :
  match_here (phase_then op) adv prev [] = None.
Proof.
  unfold match_here. rewrite phase_then_shape. cbn [exec].
  destruct (at_boundary prev []); reflexivity.
Qed.

Lemma phase_then_stable (op rest : str) adv prev (d : N) (s1 : str) :
  may_take (lit op) 112 = false ->
  match_here (phase_then op) adv prev ((d :: s1) ++ 112%N :: rest)
  = match_here (phase_then op) adv prev (d :: s1).
Proof.
  intros Hop. unfold match_here. rewrite phase_then_shape.
  remember (lit (u "hase")) as hase eqn:Eh.
  remember (cats [Star CSpace; lit op]) as tail eqn:Et.
  cbn [exec app]. unfold at_boundary. cbn [word_here].
  destruct (negb _); [|reflexivity].
  destruct (in_cset (CChr 112) d); [|reflexivity].
  apply exec_app_stable; [subst hase; reflexivity..|].
  intros p a' x g.
  apply exec_app_stable.
  - subst tail. simpl. rewrite Hop. reflexivity.
  - subst tail. simpl. rewrite has_wordb_lit. reflexivity.
  - reflexivity.
Qed.

(** [phase], blanks, the operator: a match where no word character
    comes before. *)
Lemma phase_then_token (op : str) prev (ws post : str) :
  word_before prev = false ->
  Forall (fun c => is_space c = true) ws ->
  run_ends CSpace (op ++ post) ->
  match_here (phase_then op) false prev (u "phase" ++ ws ++ op ++ post)
  = Some (MatchObj (u "phase" ++ ws ++ op) ∅).
Proof.
  intros Hw Hws Hop. unfold match_here, phase_then.
  cbn [cats foldr exec]. unfold at_boundary. rewrite Hw.
  change (word_here (u "phase" ++ ws ++ op ++ post)) with true.
  cbn [eqb negb]. rewrite exec_lit_app.
  apply rep_run; [exact Hws|exact Hop|].
  rewrite exec_lit_app. cbn [exec].
  destruct (rev op ++ rev ws ++ rev (u "phase") ++ []) eqn:E;
    rewrite <- E; rewrite app_nil_r, !rev_app_distr, !rev_involutive,
      <- !app_assoc; reflexivity.
Qed.

Lemma phase_then_split (op t : str) (pre : str) prev (s : str) :
  may_take (lit op) 112 = false ->
  subn_from (phase_then op) t prev (pre ++ 112%N :: s)
  = ((subn_from (phase_then op) t prev pre).1
       ++ (subn_from (phase_then op) t (last_of prev pre) (112%N :: s)).1,
     (subn_from (phase_then op) t prev pre).2
       + (subn_from (phase_then op) t (last_of prev pre) (112%N :: s)).2).
Proof.
  intros Hop. unfold subn_from.
  rewrite (scan_split (phase_then op) (template_repl t) (112%N :: s)
             (fun adv p d s1 => phase_then_stable op s adv p d s1 Hop)
             (phase_then_nil op false) pre prev 0 tt)
    by lia.
  destruct (scan _ _ prev pre 0 tt) as [[a n] []].
  destruct (scan _ _ (last_of prev pre) (112%N :: s) 0 tt) as [[b m] []].
  reflexivity.
Qed.

(** The site in any buffer. *)
Lemma phase_then_site (op t pre ws post : str) :
  may_take (lit op) 112 = false ->
  op <> [] ->
  (forall rest, run_ends CSpace (op ++ rest)) ->
  word_before (last pre) = false ->
  Forall (fun c => is_space c = true) ws ->
  subn_from (phase_then op) t None (pre ++ u "phase" ++ ws ++ op ++ post)
  = ((subn_from (phase_then op) t None pre).1 ++ t
       ++ (subn_from (phase_then op) t (last op) post).1,
     (subn_from (phase_then op) t None pre).2 + 1
       + (subn_from (phase_then op) t (last op) post).2).
Proof.
  intros Hop Hne Hends Hw Hws.
  change (u "phase" ++ ws ++ op ++ post)
    with (112%N :: (u "hase" ++ ws ++ op ++ post)).
  rewrite phase_then_split by exact Hop.
  change (112%N :: (u "hase" ++ ws ++ op ++ post))
    with (u "phase" ++ ws ++ op ++ post).
  rewrite last_of_None.
  pose proof (subn_from_match (phase_then op) t (last pre)
                (u "phase" ++ ws ++ op) post _
                ltac:(rewrite <- !app_assoc;
                      apply (phase_then_token op (last pre) ws post Hw Hws
                               (Hends post)))
                eq_refl ltac:(discriminate)) as E.
  rewrite <- !app_assoc in E. rewrite E. cbn [fst snd].
  replace (last_of (last pre) (u "phase" ++ ws ++ op)) with (last op).
  - f_equal. lia.
  - rewrite !last_of_app. unfold last_of at 1.
    destruct (last op) eqn:El; [reflexivity|].
    apply last_None in El. congruence.
Qed.

End PhaseThen.

(** X7: the rules 2 and 3 of migrate_phase.py at any site.  Where
    [phase] does not follow a word character and is followed by blanks
    (none, some, line breaks) and the operator [===] or [!==], the rule
    of that operator rewrites the whole to [battle.phase] and the
    operator with one blank between them; the text before and the text
    behind are rewritten on their own, the counts add up. *)
Theorem phase_operator_site `{db : UnicodeDB} (op : str) (pat : regex)
    (t : str) (pre ws post : str) :
  (op, pat, t) ∈ operator_rules ->
  word_before (last pre) = false ->
  Forall (fun c => is_space c = true) ws ->
  t = u "battle.phase " ++ op
  /\ re_subn pat t (pre ++ u "phase" ++ ws ++ op ++ post)
     = ((re_subn pat t pre).1 ++ t ++ (subn_from pat t (Some 61%N) post).1,
        (re_subn pat t pre).2 + 1 + (subn_from pat t (Some 61%N) post).2).
Proof.
  intros Hin Hw Hws. unfold operator_rules in Hin.
  apply elem_of_cons in Hin as [[= -> -> ->]|Hin];
    [|apply elem_of_cons in Hin as [[= -> -> ->]|Hin];
      [|apply elem_of_nil in Hin; contradiction]].
  - split; [reflexivity|].
    apply (phase_then_site (u "===") MigratePhase.replacement2 pre ws post);
      try assumption; try reflexivity; try discriminate.
  - split; [reflexivity|].
    apply (phase_then_site (u "!==") MigratePhase.replacement3 pre ws post);
      try assumption; try reflexivity; try discriminate.
Qed.

Lemma phase_operator_site_witness :
  re_subn (db := ascii_db) MigratePhase.pattern3 MigratePhase.replacement3
    (u "if (phase!== 'select') ok()")
  = (u "if (battle.phase !== 'select') ok()", 1).
Proof.
  apply (phase_operator_site (db := ascii_db) (u "!==") MigratePhase.pattern3
           MigratePhase.replacement3 (u "if (") [] (u " 'select') ok()")).
  - vm_compute. right. left.
  - vm_compute. reflexivity.
  - constructor.
Defined.

(** ** The rules 4 to 7: an opening character before [\s*phase\b] *)
Section Opener.
Context `{db : UnicodeDB}.

Lemma opener_shape (o : N) :
  opener_then_phase o
  = Cat (Cat (One (CChr o)) Eps)
        (cats [Star CSpace; lit (u "phase"); WordB]).
Proof. reflexivity. Qed.

Lemma opener_first (o : N) adv prev (c : N) (s : str) :
  c <> o -> match_here (opener_then_phase o) adv prev (c :: s) = None.
Proof.
  intros Hc. unfold match_here. rewrite opener_shape. cbn [exec in_cset].
  apply N.eqb_neq in Hc. rewrite Hc. reflexivity.
Qed.

Lemma opener_nil (o : N) adv prev :
  match_here (opener_then_phase o) adv prev [] = None.
Proof. reflexivity. Qed.

(** A character that is no word character is none of [p h a s e]. *)
Lemma nonword_not_in_phase (o : N) :
  is_word o = false -> Forall (fun c => c <> o) (u "phase").
Proof.
  intros Hw.
  repeat (constructor;
          [intros <-; vm_compute in Hw; discriminate|]).
  constructor.
Qed.

Lemma opener_tail_cannot_take (o : N) :
  is_space o = false -> is_word o = false ->
  may_take (cats [Star CSpace; lit (u "phase"); WordB]) o = false.
Proof.
  intros Hs Hw. pose proof (nonword_not_in_phase o Hw) as Hp.
  change (u "phase") with [112; 104; 97; 115; 101]%N in *.
  cbn [cats foldr may_take lit in_cset]. rewrite Hs.
  rewrite !Forall_cons in Hp. destruct Hp as (H1 & H2 & H3 & H4 & H5 & _).
  rewrite !(proj2 (N.eqb_neq o _)) by (intros E; symmetry in E; tauto).
  reflexivity.
Qed.

(** No match runs into a following opening character. *)
Lemma opener_stable (o : N) (rest : str) adv prev (d : N) (s1 : str) :
  is_space o = false -> is_word o = false ->
  match_here (opener_then_phase o) adv prev ((d :: s1) ++ o :: rest)
  = match_here (opener_then_phase o) adv prev (d :: s1).
Proof.
  intros Hs Hw. unfold match_here. rewrite opener_shape.
  remember (cats [Star CSpace; lit (u "phase"); WordB]) as tail eqn:Et.
  cbn [exec app].
  destruct (in_cset (CChr o) d); [|reflexivity].
  apply exec_app_stable_nonword;
    [subst tail; apply opener_tail_cannot_take; assumption|exact Hw|].
  reflexivity.
Qed.

(** The opening character, blanks, [phase], then no word character: a
    match. *)
Lemma opener_token (o : N) prev (ws post : str) :
  Forall (fun c => is_space c = true) ws ->
  word_here post = false ->
  match_here (opener_then_phase o) false prev
    (o :: ws ++ u "phase" ++ post)
  = Some (MatchObj (o :: ws ++ u "phase") ∅).
Proof.
  intros Hws Hpost. unfold match_here, opener_then_phase.
  cbn [cats foldr exec lit in_cset]. rewrite N.eqb_refl.
  apply rep_run; [exact Hws|reflexivity|].
  rewrite exec_lit_app. cbn [exec].
  unfold at_boundary. rewrite Hpost.
  change (word_before (last_of (last_of (Some o) ws) (u "phase"))) with true.
  cbn [eqb negb].
  destruct (rev (u "phase") ++ rev ws ++ [o]) eqn:E; rewrite <- E;
    rewrite !rev_app_distr, !rev_involutive; reflexivity.
Qed.

(** A repetition fails when the rest of the pattern fails behind the
    run and in front of each of its characters. *)
Lemma rep_none {A} (a : cset) (ws : str) :
  forall prev acc (s : str) (k : option N -> str -> str -> option A),
    run_ends a s ->
    (forall p acc' ws1 ws2, ws = ws1 ++ ws2 -> k p acc' (ws2 ++ s) = None) ->
    rep a prev acc (ws ++ s) k = None.
Proof.
  induction ws as [|c ws IH]; intros prev acc s k Hs Hk.
  - simpl. destruct s as [|d s]; [apply (Hk prev acc [] [] eq_refl)|].
    simpl. simpl in Hs. rewrite Hs. apply (Hk prev acc [] [] eq_refl).
  - simpl. rewrite (IH (Some c) (c :: acc) s k Hs).
    + pose proof (Hk prev acc [] (c :: ws) eq_refl) as H0.
      simpl in H0. rewrite H0. destruct (in_cset a c); reflexivity.
    + intros p acc' ws1 ws2 ->. apply (Hk p acc' (c :: ws1) ws2 eq_refl).
Qed.

(** [phase] going on with a word character: no match. *)
Lemma opener_not_token (o : N) adv prev (ws post : str) :
  Forall (fun c => is_space c = true) ws ->
  word_here post = true ->
  match_here (opener_then_phase o) adv prev
    (o :: ws ++ u "phase" ++ post)
  = None.
Proof.
  intros Hws Hpost. unfold match_here, opener_then_phase.
  cbn [cats foldr exec lit in_cset]. rewrite N.eqb_refl.
  apply rep_none; [reflexivity|].
  intros p acc' ws1 ws2 ->. destruct ws2 as [|c ws2].
  - cbn [app]. rewrite exec_lit_app. cbn [exec]. unfold at_boundary.
    rewrite Hpost. reflexivity.
  - apply Forall_app in Hws as [_ Hws].
    apply Forall_cons in Hws as [Hc _].
    change (u "phase") with [112; 104; 97; 115; 101]%N.
    cbn [app lit exec in_cset].
    destruct (c =? 112)%N eqn:E; [|reflexivity].
    apply N.eqb_eq in E. subst c. vm_compute in Hc. discriminate.
Qed.

Lemma opener_split (o : N) (t : str) (pre : str) prev (s : str) :
  is_space o = false -> is_word o = false ->
  subn_from (opener_then_phase o) t prev (pre ++ o :: s)
  = ((subn_from (opener_then_phase o) t prev pre).1
       ++ (subn_from (opener_then_phase o) t (last_of prev pre) (o :: s)).1,
     (subn_from (opener_then_phase o) t prev pre).2
       + (subn_from (opener_then_phase o) t (last_of prev pre) (o :: s)).2).
Proof.
  intros Hs Hw. unfold subn_from.
  rewrite (scan_split (opener_then_phase o) (template_repl t) (o :: s)
             (fun adv p d s1 => opener_stable o s adv p d s1 Hs Hw)
             (opener_nil o false) pre prev 0 tt)
    by lia.
  destruct (scan _ _ prev pre 0 tt) as [[a n] []].
  destruct (scan _ _ (last_of prev pre) (o :: s) 0 tt) as [[b m] []].
  reflexivity.
Qed.

(** The site in any buffer: rewritten when [phase] ends there, left
    when [phase] goes on with a word character. *)
Lemma opener_site (o : N) (t pre ws post : str) :
  is_space o = false -> is_word o = false ->
  Forall (fun c => is_space c = true) ws ->
  (word_here post = false ->
   subn_from (opener_then_phase o) t None
     (pre ++ o :: ws ++ u "phase" ++ post)
   = ((subn_from (opener_then_phase o) t None pre).1 ++ t
        ++ (subn_from (opener_then_phase o) t (Some 101%N) post).1,
      (subn_from (opener_then_phase o) t None pre).2 + 1
        + (subn_from (opener_then_phase o) t (Some 101%N) post).2))
  /\ (word_here post = true ->
      subn_from (opener_then_phase o) t None
        (pre ++ o :: ws ++ u "phase" ++ post)
      = ((subn_from (opener_then_phase o) t None pre).1
           ++ o :: ws ++ u "phase"
           ++ (subn_from (opener_then_phase o) t (Some 101%N) post).1,
         (subn_from (opener_then_phase o) t None pre).2
           + (subn_from (opener_then_phase o) t (Some 101%N) post).2)).
Proof.
  intros Hs Hw Hws.
  assert (forall prev, last_of prev (o :: ws ++ u "phase") = Some 101%N)
    as Hlast.
  { intros prev. change (o :: ws ++ u "phase") with ((o :: ws) ++ u "phase").
    rewrite last_of_app. reflexivity. }
  split; intros Hpost; rewrite opener_split by assumption.
  - pose proof (subn_from_match (opener_then_phase o) t (last_of None pre)
                  (o :: ws ++ u "phase") post _
                  ltac:(cbn [app]; rewrite <- !app_assoc;
                        apply (opener_token o _ ws post Hws Hpost))
                  eq_refl ltac:(discriminate)) as E.
    cbn [app] in E. rewrite <- !app_assoc in E. rewrite E, Hlast.
    cbn [fst snd]. f_equal. lia.
  - pose proof (subn_from_copy (opener_then_phase o) t (last_of None pre)
                  (o :: ws ++ u "phase") post) as E.
    cbn [app] in E. rewrite <- !app_assoc in E. rewrite E, Hlast.
    + cbn [fst snd app]. rewrite <- ?app_assoc. reflexivity.
    + intros a b Hab Hb. destruct a as [|a0 a].
      * simpl in Hab. subst b. cbn [app]. rewrite <- app_assoc.
        apply opener_not_token; assumption.
      * destruct b as [|b0 b]; [congruence|]. apply opener_first.
        injection Hab as _ Hab.
        assert (Forall (fun c => c <> o) (ws ++ u "phase")) as Hall.
        { apply Forall_app. split; [|apply nonword_not_in_phase, Hw].
          eapply Forall_impl; [exact Hws|]. intros c Hc ->. congruence. }
        rewrite Hab in Hall. apply Forall_app in Hall as [_ Hall].
        apply Forall_cons in Hall as [Hb0 _]. exact Hb0.
Qed.

End Opener.

(** X8: the rules 4 to 7 of migrate_phase.py at any site.  After the
    opening character of the rule ([(], [,], [{] or [[]) and blanks
    (none, some, line breaks), a [phase] that ends there is rewritten to
    the template of the rule -- the blanks are replaced by the spacing
    of the template --, and a [phase] that goes on with a word character
    (as in [(phaseLabel]) is left with its blanks; the text before and
    the text behind are rewritten on their own, the counts add up. *)
Theorem opener_phase_site `{db : UnicodeDB} (o : N) (pat : regex) (t : str)
    (pre ws post : str) :
  (o, pat, t) ∈ opener_rules ->
  Forall (fun c => is_space c = true) ws ->
  (word_here post = false ->
   re_subn pat t (pre ++ o :: ws ++ u "phase" ++ post)
   = ((re_subn pat t pre).1 ++ t ++ (subn_from pat t (Some 101%N) post).1,
      (re_subn pat t pre).2 + 1 + (subn_from pat t (Some 101%N) post).2))
  /\ (word_here post = true ->
      re_subn pat t (pre ++ o :: ws ++ u "phase" ++ post)
      = ((re_subn pat t pre).1 ++ o :: ws ++ u "phase"
           ++ (subn_from pat t (Some 101%N) post).1,
         (re_subn pat t pre).2 + (subn_from pat t (Some 101%N) post).2)).
Proof.
  intros Hin Hws. unfold opener_rules in Hin.
  repeat (apply elem_of_cons in Hin as [[= -> -> ->]|Hin];
          [apply opener_site; [reflexivity|reflexivity|exact Hws]|]).
  apply elem_of_nil in Hin. contradiction.
Qed.

Lemma opener_phase_site_witness :
  re_subn (db := ascii_db) MigratePhase.pattern6 MigratePhase.replacement6
    (u "const {phase, phaseLabel} = s")
  = (u "const { battle.phase, phaseLabel} = s", 1).
Proof.
  apply (opener_phase_site (db := ascii_db) 123%N MigratePhase.pattern6
           MigratePhase.replacement6 (u "const ") [] (u ", phaseLabel} = s")).
  - vm_compute. right. right. left.
  - constructor.
  - vm_compute. reflexivity.
Defined.

(** ** The two rules of fix_functional_updates.py at any call *)
Section UpdateCall.
Context `{db : UnicodeDB}.

Lemma space_not_r (c : N) : is_space c = true -> c <> 114%N.
Proof. intros Hc ->. vm_compute in Hc. discriminate. Qed.

(** The parameter: [prev], or the short name when [prev] does not
    match. *)
Lemma exec_param {A} (short par : str) prev acc (rest : str) gs
    (k : kont A) x :
  par = u "prev" \/
    (par = short /\ exec (lit (u "prev")) prev acc (short ++ rest) gs k = None) ->
  k (last_of prev par) (rev par ++ acc) rest gs = Some x ->
  exec (Alt (lit (u "prev")) (lit short)) prev acc (par ++ rest) gs k = Some x.
Proof.
  intros [-> | [-> Hno]] Hk; cbn [exec].
  - rewrite exec_lit_app, Hk. reflexivity.
  - rewrite Hno, exec_lit_app. exact Hk.
Qed.

(** The group of the fields: all characters up to the closing brace. *)
Lemma exec_fields {A} (fields : str) prev acc (s : str) gs (k : kont A) x :
  fields <> [] ->
  Forall (fun c => c <> 125%N) fields ->
  run_ends (CNotChr 125) s ->
  k (last_of prev fields) (rev fields ++ acc) s (<[1 := fields]> gs) = Some x ->
  exec (Group 1 (Plus (CNotChr 125))) prev acc (fields ++ s) gs k = Some x.
Proof.
  intros Hne Hf Hs Hk. destruct fields as [|f0 fields]; [congruence|].
  apply Forall_cons in Hf as [Hf0 Hf].
  cbn [exec app in_cset]. apply N.eqb_neq in Hf0. rewrite Hf0. cbn [negb].
  apply rep_run.
  - eapply Forall_impl; [exact Hf|]. intros c Hc. cbn [in_cset].
    apply N.eqb_neq in Hc. rewrite Hc. reflexivity.
  - exact Hs.
  - rewrite last_of_cons in Hk. cbn [rev] in Hk. rewrite <- app_assoc in Hk.
    cbn [app] in Hk.
    replace (rev (take (length (rev fields ++ f0 :: acc) - length acc)
                    (rev fields ++ f0 :: acc)))
      with (f0 :: fields); [exact Hk|].
    change (rev fields ++ f0 :: acc) with (rev fields ++ [f0] ++ acc).
    rewrite app_assoc.
    replace (length ((rev fields ++ [f0]) ++ acc) - length acc)
      with (length (rev fields ++ [f0])) by (rewrite (length_app _ acc); lia).
    rewrite take_app_length, rev_app_distr, rev_involutive. reflexivity.
Qed.

(** The head of a text that does not begin with [r]. *)
Lemma prev_needs_r {A} (c : N) prev acc (rest : str) gs (k : kont A) :
  c <> 114%N ->
  exec (lit (u "prev")) prev acc (u "p" ++ c :: rest) gs k = None.
Proof.
  intros Hc. apply N.eqb_neq in Hc.
  change (u "prev") with [112; 114; 101; 118]%N.
  change (u "p") with [112]%N.
  cbn [app lit exec in_cset N.eqb Pos.eqb]. rewrite Hc. reflexivity.
Qed.

Lemma prev_needs_p {A} prev acc (rest : str) gs (k : kont A) :
  exec (lit (u "prev")) prev acc (u "e" ++ rest) gs k = None.
Proof. reflexivity. Qed.

(** Any call of the shape is a match of the pattern, with the fields in
    group 1. *)
Lemma update_call_match (setter short : str)
    (par1 par2 ws1 ws2 ws3 ws4 ws5 ws6 fields post : str) prev :
  (forall A (c : N) p acc rest gs (k : kont A),
     c <> 114%N ->
     exec (lit (u "prev")) p acc (short ++ c :: rest) gs k = None) ->
  par1 = u "prev" \/ par1 = short ->
  par2 = u "prev" \/ par2 = short ->
  Forall (fun c => is_space c = true)
    (ws1 ++ ws2 ++ ws3 ++ ws4 ++ ws5 ++ ws6) ->
  (forall rest, run_ends CSpace (par1 ++ rest)) ->
  fields <> [] ->
  Forall (fun c => c <> 125%N) fields ->
  run_ends CSpace fields ->
  match_here (update_pattern setter short) false prev
    (update_call setter par1 par2 ws1 ws2 ws3 ws4 ws5 ws6 fields ++ post)
  = Some (MatchObj
            (update_call setter par1 par2 ws1 ws2 ws3 ws4 ws5 ws6 fields)
            {[1 := fields]}).
Proof.
  intros Hshort Hp1 Hp2 Hws Hpar Hne Hf Hf0.
  rewrite !Forall_app in Hws.
  destruct Hws as (H1 & H2 & H3 & H4 & H5 & H6).
  unfold match_here, update_pattern, update_call.
  remember (Group 1 (Plus (CNotChr 125))) as grp eqn:Eg.
  rewrite <- !app_assoc. cbn [cats foldr exec].
  rewrite exec_lit_app.
  apply rep_run; [exact H1|apply Hpar|].
  apply exec_param.
  { destruct Hp1 as [-> | ->]; [left; reflexivity|right].
    split; [reflexivity|].
    destruct ws2 as [|c ws2].
    - apply Hshort. discriminate.
    - apply Hshort. apply Forall_cons in H2 as [Hc _].
      apply space_not_r, Hc. }
  apply rep_run; [exact H2|reflexivity|].
  rewrite exec_lit_app.
  apply rep_run; [exact H3|reflexivity|].
  rewrite exec_lit_app.
  apply rep_run; [exact H4|reflexivity|].
  rewrite exec_lit_app.
  apply exec_param.
  { destruct Hp2 as [-> | ->]; [left; reflexivity|right].
    split; [reflexivity|]. apply Hshort. discriminate. }
  rewrite exec_lit_app.
  apply rep_run; [exact H5| |].
  { destruct fields as [|f0 fields]; [congruence|]. exact Hf0. }
  subst grp. apply exec_fields; [exact Hne|exact Hf|reflexivity|].
  rewrite exec_lit_app.
  apply rep_run; [exact H6|reflexivity|].
  rewrite exec_lit_app. cbn [exec].
  rewrite insert_empty.
  f_equal. f_equal.
  rewrite !app_nil_r, !rev_app_distr, !rev_involutive, <- !app_assoc.
  reflexivity.
Qed.

End UpdateCall.

Section UpdateSite.
Context `{db : UnicodeDB}.

Lemma update_call_last (setter par1 par2 ws1 ws2 ws3 ws4 ws5 ws6 fields : str)
    prev :
  last_of prev (update_call setter par1 par2 ws1 ws2 ws3 ws4 ws5 ws6 fields)
  = Some 41%N.
Proof. unfold update_call. rewrite !last_of_app. reflexivity. Qed.

Lemma update_call_not_nil
    (setter par1 par2 ws1 ws2 ws3 ws4 ws5 ws6 fields : str) :
  update_call setter par1 par2 ws1 ws2 ws3 ws4 ws5 ws6 fields <> [].
Proof.
  intros E. apply (f_equal length) in E. unfold update_call in E.
  rewrite !length_app in E. simpl in E. lia.
Qed.

(** The call in a buffer in which no match begins before it. *)
Lemma update_site (setter short name : str)
    (cb : match_obj -> nat -> str * nat)
    (par1 par2 ws1 ws2 ws3 ws4 ws5 ws6 fields pre post : str)
    (changes : nat) :
  (forall m g,
     cb m g = (setter ++ u "{ ..." ++ name ++ u ", " ++ fmt (group m 1)
                 ++ u "})", g + 1)) ->
  (forall A (c : N) p acc rest gs (k : kont A),
     c <> 114%N ->
     exec (lit (u "prev")) p acc (short ++ c :: rest) gs k = None) ->
  (forall rest, run_ends CSpace (short ++ rest)) ->
  par1 ∈ [u "prev"; short] -> par2 ∈ [u "prev"; short] ->
  Forall (fun c => is_space c = true)
    (ws1 ++ ws2 ++ ws3 ++ ws4 ++ ws5 ++ ws6) ->
  fields <> [] ->
  Forall (fun c => c <> 125%N) fields ->
  run_ends CSpace fields ->
  (forall i, i < length pre ->
     match_at (update_pattern setter short)
       (pre ++ update_call setter par1 par2 ws1 ws2 ws3 ws4 ws5 ws6 fields
            ++ post) i = None) ->
  re_sub (update_pattern setter short) cb
    (pre ++ update_call setter par1 par2 ws1 ws2 ws3 ws4 ws5 ws6 fields
         ++ post) changes
  = (pre ++ (setter ++ u "{ ..." ++ name ++ u ", " ++ fields ++ u "})")
       ++ (sub_from (update_pattern setter short) cb (Some 41%N) post
             (changes + 1)).1,
     (sub_from (update_pattern setter short) cb (Some 41%N) post
        (changes + 1)).2).
Proof.
  intros Hcb Hshort Hends Hp1 Hp2 Hws Hne Hf Hf0 Hno.
  assert (forall par, par ∈ [u "prev"; short] -> par = u "prev" \/ par = short)
    as Hpar.
  { intros par Hin. apply elem_of_cons in Hin as [->|Hin]; [auto|].
    apply elem_of_cons in Hin as [->|Hin]; [auto|].
    apply elem_of_nil in Hin. contradiction. }
  unfold re_sub.
  rewrite sub_from_copy by (apply no_match_before; exact Hno).
  pose proof (sub_from_match (update_pattern setter short) cb
                (last_of None pre) _ _ _ changes
                (update_call_match setter short par1 par2 ws1 ws2 ws3 ws4
                   ws5 ws6 fields post (last_of None pre) Hshort
                   (Hpar _ Hp1) (Hpar _ Hp2) Hws
                   ltac:(intros rest;
                         destruct (Hpar _ Hp1) as [-> | ->];
                         [reflexivity|apply Hends])
                   Hne Hf Hf0)) as E.
  cbn [m_text] in E. specialize (E eq_refl (update_call_not_nil _ _ _ _ _ _ _ _ _ _)).
  rewrite E, Hcb, update_call_last. cbn [fst snd].
  unfold group. cbn [m_groups]. rewrite lookup_singleton_eq. reflexivity.
Qed.

End UpdateSite.

(** X9: the two rules of fix_functional_updates.py at any call.  A call
    of [actions.setPlayer(] or [actions.setEnemy(] with an arrow function
    whose parameter is [prev] or the short name ([p], [e]), whose object
    spreads [prev] or the short name -- not checked to be the same --
    and whose fields hold no closing brace, whatever the blanks and line
    breaks between the parts, is rewritten to the setter applied to the
    object that spreads [player] or [enemy], with the fields as they
    stand; the counter grows by one.  No match must begin before the
    call. *)
Theorem functional_update_any_call `{db : UnicodeDB}
    (setter short name : str) (pat : regex)
    (cb : match_obj -> nat -> str * nat)
    (par1 par2 ws1 ws2 ws3 ws4 ws5 ws6 fields pre post : str)
    (changes : nat) :
  (setter, short, name, pat, cb) ∈ update_rules ->
  par1 ∈ [u "prev"; short] -> par2 ∈ [u "prev"; short] ->
  Forall (fun c => is_space c = true)
    (ws1 ++ ws2 ++ ws3 ++ ws4 ++ ws5 ++ ws6) ->
  fields <> [] ->
  Forall (fun c => c <> 125%N) fields ->
  run_ends CSpace fields ->
  (forall i, i < length pre ->
     match_at pat
       (pre ++ update_call setter par1 par2 ws1 ws2 ws3 ws4 ws5 ws6 fields
            ++ post) i = None) ->
  re_sub pat cb
    (pre ++ update_call setter par1 par2 ws1 ws2 ws3 ws4 ws5 ws6 fields
         ++ post) changes
  = (pre ++ (setter ++ u "{ ..." ++ name ++ u ", " ++ fields ++ u "})")
       ++ (sub_from pat cb (Some 41%N) post (changes + 1)).1,
     (sub_from pat cb (Some 41%N) post (changes + 1)).2).
Proof.
  intros Hin. unfold update_rules in Hin.
  apply elem_of_cons in Hin as [[= -> -> -> -> ->]|Hin];
    [|apply elem_of_cons in Hin as [[= -> -> -> -> ->]|Hin];
      [|apply elem_of_nil in Hin; contradiction]].
  - apply (update_site (u "actions.setPlayer(") (u "p") (u "player")
             FixFunctionalUpdates.replace1).
    + reflexivity.
    + intros A c p acc rest gs k Hc. apply prev_needs_r, Hc.
    + reflexivity.
  - apply (update_site (u "actions.setEnemy(") (u "e") (u "enemy")
             FixFunctionalUpdates.replace2).
    + reflexivity.
    + intros A c p acc rest gs k Hc. apply prev_needs_p.
    + reflexivity.
Qed.

Lemma functional_update_any_call_witness :
  re_sub (db := ascii_db) FixFunctionalUpdates.pattern2
    FixFunctionalUpdates.replace2
    (u "actions.setEnemy(e=>({ ...prev,hp: 0, block: 0}))") 0
  = (u "actions.setEnemy({ ...enemy, hp: 0, block: 0})", 1).
Proof.
  apply (functional_update_any_call (db := ascii_db)
           (u "actions.setEnemy(") (u "e") (u "enemy")
           FixFunctionalUpdates.pattern2 FixFunctionalUpdates.replace2
           (u "e") (u "prev") [] [] [] (u " ") [] [] (u "hp: 0, block: 0")
           [] [] 0).
  - vm_compute. right. left.
  - vm_compute. right. left.
  - vm_compute. left.
  - vm_compute. repeat constructor.
  - discriminate.
  - vm_compute. repeat (constructor; [discriminate|]). constructor.
  - vm_compute. reflexivity.
  - intros i Hi. simpl in Hi. lia.
Defined.

(** ** The lines of a text *)
Section Lines.

Lemma text_lines_open (l : str) : open_line l -> text_lines l = [l].
Proof.
  intros [Hne Hl]. induction l as [|c l IH]; [congruence|].
  apply Forall_cons in Hl as [Hc Hl]. apply N.eqb_neq in Hc.
  simpl. rewrite Hc. destruct l as [|d l]; [reflexivity|].
  rewrite IH by (discriminate || exact Hl). reflexivity.
Qed.

Lemma text_lines_full (body s : str) :
  Forall (fun c => c <> 10%N) body ->
  text_lines (body ++ 10%N :: s) = (body ++ [10%N]) :: text_lines s.
Proof.
  intros Hb. induction body as [|c body IH]; [reflexivity|].
  apply Forall_cons in Hb as [Hc Hb]. apply N.eqb_neq in Hc.
  simpl. rewrite Hc, (IH Hb). reflexivity.
Qed.

Lemma full_line_cons (c : N) (l : str) :
  c <> 10%N -> full_line l -> full_line (c :: l).
Proof.
  intros Hc (body & -> & Hb). exists (c :: body). split; [reflexivity|].
  constructor; assumption.
Qed.

Lemma open_line_cons (c : N) (l : str) :
  c <> 10%N -> open_line l -> open_line (c :: l).
Proof.
  intros Hc [_ Hl]. split; [discriminate|]. constructor; assumption.
Qed.

(** What [readlines] returns is well formed. *)
Lemma text_lines_wf (s : str) : lines_wf (text_lines s).
Proof.
  induction s as [|c s IH]; [exact I|].
  simpl. destruct (c =? 10)%N eqn:Ec.
  - apply N.eqb_eq in Ec. subst c.
    assert (full_line [10%N]) as Hf by (exists []; split; [reflexivity|constructor]).
    simpl. destruct (text_lines s); [left; exact Hf|split; [exact Hf|exact IH]].
  - apply N.eqb_neq in Ec.
    destruct (text_lines s) as [|l ls].
    + simpl. right. split; [discriminate|]. repeat constructor. exact Ec.
    + simpl in *. destruct ls as [|l2 ls].
      * destruct IH as [Hf|Ho];
          [left; apply full_line_cons|right; apply open_line_cons];
          assumption.
      * destruct IH as [Hf Hw]. split; [|exact Hw].
        apply full_line_cons; assumption.
Qed.

(** Well-formed lines are the lines of their concatenation. *)
Lemma text_lines_concat (ls : list str) :
  lines_wf ls -> text_lines (concat ls) = ls.
Proof.
  induction ls as [|l ls IH]; [reflexivity|].
  simpl. destruct ls as [|l2 ls].
  - intros [(body & -> & Hb)|Ho].
    + simpl. rewrite app_nil_r.
      change (body ++ [10%N]) with (body ++ 10%N :: []).
      rewrite text_lines_full by exact Hb. reflexivity.
    + simpl. rewrite app_nil_r. apply text_lines_open, Ho.
  - intros [(body & -> & Hb) Hw]. rewrite <- app_assoc.
    change ([10%N] ++ concat (l2 :: ls)) with (10%N :: concat (l2 :: ls)).
    rewrite text_lines_full by exact Hb. rewrite (IH Hw). reflexivity.
Qed.

Lemma lines_wf_app (a b : list str) :
  Forall full_line a -> lines_wf b -> lines_wf (a ++ b).
Proof.
  intros Ha Hb. induction a as [|l a IH]; [exact Hb|].
  apply Forall_cons in Ha as [Hl Ha]. specialize (IH Ha).
  simpl. destruct (a ++ b) eqn:E; [left; exact Hl|split; assumption].
Qed.

Lemma lines_wf_tail (l : str) (ls : list str) :
  lines_wf (l :: ls) -> lines_wf ls.
Proof. simpl. destruct ls; [intros _; exact I|intros [_ H]; exact H]. Qed.

Lemma lines_wf_drop (n : nat) : forall ls : list str,
  lines_wf ls -> lines_wf (drop n ls).
Proof.
  induction n as [|n IH]; intros ls Hw; [rewrite drop_0; exact Hw|].
  destruct ls as [|l ls]; [exact I|].
  simpl. apply IH. exact (lines_wf_tail l ls Hw).
Qed.

Lemma lines_wf_take (n : nat) : forall ls : list str,
  lines_wf ls -> n < length ls -> Forall full_line (take n ls).
Proof.
  induction n as [|n IH]; intros ls Hw Hn; [constructor|].
  destruct ls as [|l ls]; [simpl in Hn; lia|].
  simpl in Hn. simpl take. destruct ls as [|l2 ls]; [simpl in Hn; lia|].
  destruct Hw as [Hl Hw]. constructor; [exact Hl|].
  apply IH; [exact Hw|simpl in *; lia].
Qed.

(** When the text ends with a newline, all its lines are full. *)
Lemma lines_wf_all_full (ls : list str) :
  lines_wf ls ->
  (forall l, last ls = Some l -> last l = Some 10%N) ->
  Forall full_line ls.
Proof.
  induction ls as [|l ls IH]; [constructor|].
  intros Hw Hlast. destruct ls as [|l2 ls].
  - constructor; [|constructor]. destruct Hw as [Hf|[Hne Ho]]; [exact Hf|].
    specialize (Hlast l eq_refl).
    apply last_Some in Hlast as [l' ->].
    apply Forall_app in Ho as [_ Ho]. apply Forall_cons in Ho as [Ho _].
    congruence.
  - destruct Hw as [Hl Hw]. constructor; [exact Hl|].
    apply IH; [exact Hw|]. intros l0 H0. apply Hlast.
    rewrite last_cons_cons. exact H0.
Qed.

Lemma new_code_lines_full :
  Forall full_line (text_lines ReplaceUiComponents.new_code)
  /\ length (text_lines ReplaceUiComponents.new_code) = 97.
Proof.
  split; [|vm_compute; reflexivity].
  apply lines_wf_all_full; [apply text_lines_wf|].
  intros l Hl.
  assert (last (text_lines ReplaceUiComponents.new_code)
          = Some (u "      </div>" ++ [10%N])) as E
    by (vm_compute; reflexivity).
  rewrite E in Hl. injection Hl as <-. vm_compute. reflexivity.
Qed.

End Lines.



(** ** Applying the rules 2 and 3 again *)
Section Again.
Context `{db : UnicodeDB}.

(** The first match: nothing matches before it. *)
Lemma search_Some (r : regex) (s : str) : forall prev i m,
  search r prev s = Some (i, m) ->
  exists pre rest,
    s = pre ++ rest /\ length pre = i
    /\ match_here r false (last_of prev pre) rest = Some m
    /\ (forall a b, pre = a ++ b -> b <> [] ->
          match_here r false (last_of prev a) (b ++ rest) = None).
Proof.
  induction s as [|c s IH]; intros prev i m; simpl search.
  - destruct (match_here r false prev []) as [m0|] eqn:E; [|discriminate].
    intros [= <- <-]. exists [], []. repeat split; [exact E|].
    intros a b Hab Hb. symmetry in Hab. apply app_eq_nil in Hab as [_ ->].
    congruence.
  - destruct (match_here r false prev (c :: s)) as [m0|] eqn:E.
    + intros [= <- <-]. exists [], (c :: s). repeat split; [exact E|].
      intros a b Hab Hb. symmetry in Hab. apply app_eq_nil in Hab as [_ ->].
      congruence.
    + destruct (search r (Some c) s) as [[j m1]|] eqn:E2; [|discriminate].
      intros [= <- <-].
      destruct (IH (Some c) j m1 E2) as (pre & rest & -> & Hlen & Hm & Hno).
      exists (c :: pre), rest. rewrite last_of_cons.
      repeat split; [simpl; lia|exact Hm|].
      intros a b Hab Hb. destruct a as [|a0 a].
      * simpl in Hab. subst b. exact E.
      * injection Hab as <- Hab. rewrite last_of_cons.
        apply Hno; assumption.
Qed.

(** What a repetition takes is a run of characters of the set. *)
Lemma rep_sound_run {A} (a : cset) (s : str) :
  forall prev acc (k : option N -> str -> str -> option A) x,
    rep a prev acc s k = Some x ->
    exists ws s',
      s = ws ++ s'
      /\ Forall (fun c => in_cset a c = true) ws
      /\ k (last_of prev ws) (rev ws ++ acc) s' = Some x.
Proof.
  induction s as [|c s IH]; intros prev acc k x; simpl.
  - intros Hk. exists [], []. repeat split; [constructor|exact Hk].
  - destruct (in_cset a c) eqn:Ec.
    + destruct (rep a (Some c) (c :: acc) s k) as [y|] eqn:E.
      * intros [= ->]. apply IH in E as (ws & s' & -> & Hws & Hk).
        exists (c :: ws), s'. rewrite last_of_cons.
        repeat split; [constructor; assumption|].
        simpl. rewrite <- app_assoc. exact Hk.
      * intros Hk. exists [], (c :: s). repeat split; [constructor|exact Hk].
    + intros Hk. exists [], (c :: s). repeat split; [constructor|exact Hk].
Qed.

(** Every match of [\bphase\s*op] is [phase] at the start of a word,
    blanks, the operator. *)
Lemma phase_then_inv (op : str) adv prev (s : str) (m : match_obj) :
  match_here (phase_then op) adv prev s = Some m ->
  word_before prev = false
  /\ exists ws post,
       s = u "phase" ++ ws ++ op ++ post
       /\ Forall (fun c => is_space c = true) ws
       /\ m = MatchObj (u "phase" ++ ws ++ op) ∅.
Proof.
  unfold match_here, phase_then. cbn [cats foldr exec]. intros E.
  destruct (at_boundary prev s) eqn:Eb; [|discriminate].
  apply exec_lit in E as (s1 & -> & E).
  apply rep_sound_run in E as (ws & s2 & -> & Hws & E).
  apply exec_lit in E as (post & -> & E). cbn [exec] in E.
  split.
  - unfold at_boundary in Eb.
    change (word_here (u "phase" ++ ws ++ op ++ post)) with true in Eb.
    destruct (word_before prev); [discriminate|reflexivity].
  - exists ws, post. repeat split; [exact Hws|].
    assert (rev (rev op ++ rev ws ++ rev (u "phase") ++ [])
            = u "phase" ++ ws ++ op) as Hrev.
    { rewrite app_nil_r, !rev_app_distr, !rev_involutive, <- !app_assoc.
      reflexivity. }
    rewrite Hrev in E.
    destruct adv;
      [destruct (rev op ++ rev ws ++ rev (u "phase") ++ [])|];
      congruence.
Qed.

(** No match of [\bphase\s*op] runs into a following character that the
    pattern cannot take. *)
Lemma phase_then_stable_at (op : str) (c : N) (rest : str) adv prev (d : N)
    (s1 : str) :
  may_take (cats [lit (u "hase"); Star CSpace; lit op]) c = false ->
  match_here (phase_then op) adv prev ((d :: s1) ++ c :: rest)
  = match_here (phase_then op) adv prev (d :: s1).
Proof.
  intros Hc. unfold match_here. rewrite phase_then_shape.
  remember (lit (u "hase")) as hase eqn:Eh.
  remember (cats [Star CSpace; lit op]) as tail eqn:Et.
  assert (may_take hase c = false /\ may_take tail c = false) as [Hc1 Hc2].
  { subst hase tail. cbn [cats foldr may_take] in Hc |- *.
    apply orb_false_elim in Hc as [H1 H2]. auto. }
  cbn [exec app]. unfold at_boundary. cbn [word_here].
  destruct (negb _); [|reflexivity].
  destruct (in_cset (CChr 112) d); [|reflexivity].
  apply exec_app_stable;
    [exact Hc1|subst hase; apply has_wordb_lit|].
  intros p a' x g.
  apply exec_app_stable; [exact Hc2| |reflexivity].
  subst tail. simpl. rewrite has_wordb_lit. reflexivity.
Qed.

(** A rule [\bphase\s*op] whose template is [battle.phase op] fires
    again on what it returned. *)
Lemma phase_then_again (op : str) (s : str) :
  may_take (lit op) 112 = false ->
  may_take (lit op) 98 = false ->
  op <> [] ->
  (forall rest, run_ends CSpace (op ++ rest)) ->
  (subn_from (phase_then op) (u "battle.phase " ++ op) None s).2 <> 0 ->
  let t := u "battle.phase " ++ op in
  let out1 := (subn_from (phase_then op) t None s).1 in
  (subn_from (phase_then op) t None out1).2 <> 0
  /\ (subn_from (phase_then op) t None out1).1 <> out1
  /\ contains (u "battle." ++ t) (subn_from (phase_then op) t None out1).1
     = true.
Proof.
  intros Hp Hb Hne Hends Hcount. cbv zeta.
  set (t := u "battle.phase " ++ op) in *.
  destruct (search (phase_then op) None s) as [[i m]|] eqn:Es.
  2: { rewrite subn_from_none in Hcount by exact Es. simpl in Hcount.
       congruence. }
  apply search_Some in Es as (pre & rest & -> & _ & Hm & Hno).
  destruct (phase_then_inv _ _ _ _ _ Hm) as (Hw & ws & post & -> & Hws & ->).
  (* the first pass *)
  assert (subn_from (phase_then op) t None
            (pre ++ u "phase" ++ ws ++ op ++ post)
          = (pre ++ t ++ (subn_from (phase_then op) t (last op) post).1,
             S (subn_from (phase_then op) t (last op) post).2)) as E1.
  { rewrite subn_from_copy by exact Hno.
    pose proof (subn_from_match (phase_then op) t (last_of None pre)
                  (u "phase" ++ ws ++ op) post _
                  ltac:(rewrite <- !app_assoc; exact Hm)
                  eq_refl ltac:(discriminate)) as E.
    rewrite <- !app_assoc in E. rewrite E. cbn [fst snd].
    replace (last_of (last_of None pre) (u "phase" ++ ws ++ op))
      with (last op); [reflexivity|].
    rewrite !last_of_app. unfold last_of at 1.
    destruct (last op) eqn:El; [reflexivity|].
    apply last_None in El. congruence. }
  rewrite E1. cbn [fst].
  set (o1 := (subn_from (phase_then op) t (last op) post).1).
  (* the second pass *)
  assert (subn_from (phase_then op) t None (pre ++ t ++ o1)
          = (pre ++ u "battle." ++ t
               ++ (subn_from (phase_then op) t (last op) o1).1,
             S (subn_from (phase_then op) t (last op) o1).2)) as E2.
  { change (t ++ o1) with (u "battle." ++ u "phase" ++ u " " ++ op ++ o1).
    rewrite app_assoc.
    rewrite subn_from_copy.
    - pose proof (subn_from_match (phase_then op) t
                    (last_of None (pre ++ u "battle."))
                    (u "phase" ++ u " " ++ op) o1 _
                    ltac:(rewrite <- !app_assoc;
                          apply phase_then_token;
                          [rewrite last_of_app; reflexivity
                          |repeat constructor|apply Hends])
                    eq_refl ltac:(discriminate)) as E.
      rewrite <- !app_assoc in E. rewrite E. cbn [fst snd].
      replace (last_of (last_of None (pre ++ u "battle."))
                 (u "phase" ++ u " " ++ op))
        with (last op).
      + rewrite <- !app_assoc. reflexivity.
      + rewrite !last_of_app. unfold last_of at 1.
        destruct (last op) eqn:El; [reflexivity|].
        apply last_None in El. congruence.
    - intros a b Hab Hb0.
      destruct (decide (length a < length pre)) as [Hlt|Hge].
      + (* the position lies in [pre] *)
        assert (exists b1, pre = a ++ b1 /\ b1 <> []
                           /\ b = b1 ++ u "battle.") as (b1 & -> & Hb1 & ->).
        { exists (drop (length a) pre).
          assert (a = take (length a) pre) as Ha.
          { apply (f_equal (take (length a))) in Hab.
            rewrite take_app_length in Hab.
            rewrite take_app_le in Hab by lia. congruence. }
          split; [rewrite Ha at 1; symmetry; apply take_drop|].
          split.
          - intros E0. apply (f_equal length) in E0.
            rewrite length_drop in E0. simpl in E0. lia.
          - apply (f_equal (drop (length a))) in Hab.
            rewrite drop_app_length in Hab.
            rewrite drop_app_le in Hab by lia. congruence. }
        destruct b1 as [|d b1]; [congruence|].
        rewrite <- app_assoc.
        change (u "battle." ++ u "phase" ++ u " " ++ op ++ o1)
          with (98%N :: (u "attle." ++ u "phase" ++ u " " ++ op ++ o1)).
        rewrite phase_then_stable_at
          by (cbn [cats foldr may_take]; rewrite Hb; reflexivity).
        specialize (Hno a (d :: b1) eq_refl ltac:(discriminate)).
        change (u "phase" ++ ws ++ op ++ post)
          with (112%N :: (u "hase" ++ ws ++ op ++ post)) in Hno.
        rewrite phase_then_stable in Hno by exact Hp. exact Hno.
      + (* the position lies in [battle.] *)
        destruct b as [|b0 b]; [congruence|]. apply phase_then_first.
        assert (exists a1, a = pre ++ a1) as [a1 ->].
        { exists (drop (length pre) a).
          apply (f_equal (take (length pre))) in Hab.
          rewrite take_app_length in Hab.
          rewrite take_app_le in Hab by lia.
          rewrite Hab at 1. rewrite take_drop. reflexivity. }
        rewrite <- app_assoc in Hab. apply app_inv_head in Hab.
        assert (Forall (fun x => x <> 112%N) (a1 ++ b0 :: b)) as Hall.
        { rewrite <- Hab.
          repeat (constructor; [discriminate|]); constructor. }
        apply Forall_app in Hall as [_ Hall].
        apply Forall_cons in Hall as [H0 _]. exact H0. }
  rewrite E2. cbn [fst snd]. split; [discriminate|]. split.
  - intros E. apply (app_inv_head pre) in E. subst t.
    set (x := (subn_from _ _ _ o1).1) in E. clearbody x o1.
    vm_compute in E. discriminate E.
  - rewrite (app_assoc (u "battle.") t). apply contains_app.
Qed.

End Again.

(** X11: the rules 2 and 3 of migrate_phase.py are nowhere idempotent.
    Whenever such a rule changes a buffer at all, applying it to its own
    result fires again and changes the result again: the [phase] of the
    first [battle.phase] it wrote stands after a [.], a word boundary,
    and becomes [battle.battle.phase]. *)
Theorem phase_operator_rule_fires_again `{db : UnicodeDB} (op : str)
    (pat : regex) (t : str) (s : str) :
  (op, pat, t) ∈ operator_rules ->
  (re_subn pat t s).2 <> 0 ->
  (re_subn pat t (re_subn pat t s).1).2 <> 0
  /\ (re_subn pat t (re_subn pat t s).1).1 <> (re_subn pat t s).1
  /\ contains (u "battle." ++ t) (re_subn pat t (re_subn pat t s).1).1 = true.
Proof.
  intros Hin. unfold operator_rules in Hin.
  apply elem_of_cons in Hin as [[= -> -> ->]|Hin];
    [|apply elem_of_cons in Hin as [[= -> -> ->]|Hin];
      [|apply elem_of_nil in Hin; contradiction]].
  - apply (phase_then_again (u "===") s); try reflexivity; discriminate.
  - apply (phase_then_again (u "!==") s); try reflexivity; discriminate.
Qed.

Lemma phase_operator_rule_fires_again_witness :
  (re_subn (db := ascii_db) MigratePhase.pattern2 MigratePhase.replacement2
     (re_subn (db := ascii_db) MigratePhase.pattern2
        MigratePhase.replacement2 (u "if (phase   === 1) {}")).1).2 <> 0.
Proof.
  apply (phase_operator_rule_fires_again (db := ascii_db) (u "===")
           MigratePhase.pattern2 MigratePhase.replacement2
           (u "if (phase   === 1) {}")).
  - vm_compute. left.
  - vm_compute. discriminate.
Defined.

(** ** replace_ui_components.py run on its own result *)

(** The lines of a spliced file: the lines kept, the lines of the block,
    the lines after. *)
Lemma spliced_lines (ls : list str) (n : nat) :
  lines_wf ls -> 3627 < length ls ->
  text_lines (concat (take 3627 ls ++ [ReplaceUiComponents.new_code]
                        ++ drop n ls))
  = take 3627 ls ++ text_lines ReplaceUiComponents.new_code ++ drop n ls.
Proof.
  intros Hw Hlen. destruct new_code_lines_full as [Hfull _].
  rewrite !concat_app. cbn [concat]. rewrite app_nil_r.
  rewrite <- (concat_text_lines ReplaceUiComponents.new_code) at 1.
  rewrite <- !concat_app. apply text_lines_concat.
  apply lines_wf_app; [apply lines_wf_take; [exact Hw|lia]|].
  apply lines_wf_app; [exact Hfull|]. apply lines_wf_drop, Hw.
Qed.

(** X12: replace_ui_components.py is not idempotent.  Run again on the
    file it wrote (a file of at least 4196 lines before the first run),
    it replaces the lines 3628..4196 once more: the 97 lines of the
    block and the 472 lines after them.  The second file has the 3627
    lines kept, the block, and the lines from 4669 of the first file
    on, so up to 472 further lines are lost. *)
Theorem replace_ui_second_run_cuts_further (env1 env2 : nat -> outcome)
    (fs : gmap string str) (text : str) :
  fs !! file_path = Some text ->
  4196 <= length (text_lines text) ->
  env1 0 = Completes -> env1 1 = Completes ->
  env2 0 = Completes -> env2 1 = Completes ->
  exists written2 : str,
    files (ReplaceUiComponents.main env2
             (World (files (ReplaceUiComponents.main env1 (World fs [])).1)
                [])).1 !! file_path
    = Some written2
    /\ text_lines written2
       = take 3627 (text_lines text)
           ++ text_lines ReplaceUiComponents.new_code
           ++ drop 4668 (text_lines text)
    /\ length (text_lines written2)
       = length (text_lines text) - 472
         - (length (text_lines text) - 4196) `min` 472.
Proof.
  intros Hfs Hlen E0 E1 E0' E1'.
  rewrite (main_completes env1 fs text Hfs E0 E1). cbn [fst files].
  rewrite (main_completes env2 _ _ (lookup_insert_eq _ _ _) E0' E1').
  cbn [fst files].
  eexists. split; [apply lookup_insert_eq|].
  destruct new_code_lines_full as [_ H97].
  pose proof (text_lines_wf text) as Hw.
  set (ls := text_lines text) in *.
  assert (text_lines (concat (ReplaceUiComponents.new_lines ls))
          = take 3627 ls ++ text_lines ReplaceUiComponents.new_code
              ++ drop 4196 ls) as Hfirst
    by (apply spliced_lines; [exact Hw|lia]).
  assert (length (take 3627 ls) = 3627) as Htake
    by (rewrite length_take; lia).
  assert (ReplaceUiComponents.new_lines
            (text_lines (concat (ReplaceUiComponents.new_lines ls)))
          = take 3627 ls ++ [ReplaceUiComponents.new_code]
              ++ drop 4668 ls) as Hsecond.
  { rewrite Hfirst. unfold ReplaceUiComponents.new_lines at 1.
    rewrite take_app_length' by (symmetry; exact Htake).
    rewrite drop_app_ge by lia. rewrite Htake.
    rewrite drop_app_ge by lia. rewrite H97.
    rewrite drop_drop. repeat f_equal. }
  rewrite Hsecond.
  rewrite spliced_lines by (exact Hw || lia).
  split; [reflexivity|].
  rewrite !length_app, Htake, H97, length_drop. lia.
Qed.

Lemma replace_ui_second_run_cuts_further_witness :
  exists written2 : str,
    files (ReplaceUiComponents.main no_faults
             (World
                (files
                   (ReplaceUiComponents.main no_faults
                      (World
                         {[file_path :=
                             concat (replicate 4700 (u "x" ++ [10%N]))]}
                         [])).1)
                [])).1 !! file_path = Some written2
    /\ length (text_lines written2) = 4700 - 472 - 472.
Proof.
  destruct (replace_ui_second_run_cuts_further no_faults no_faults
              {[file_path := concat (replicate 4700 (u "x" ++ [10%N]))]}
              (concat (replicate 4700 (u "x" ++ [10%N]))))
    as (written2 & Hw & _ & Hlen).
  - apply lookup_singleton_eq.
  - vm_compute. lia.
  - reflexivity.
  - reflexivity.
  - reflexivity.
  - reflexivity.
  - exists written2. split; [exact Hw|].
    rewrite Hlen. vm_compute. reflexivity.
Defined.

(** ** Applying the rules 4 to 7 again *)
Section OpenerAgain.
Context `{db : UnicodeDB}.

(** A text is free of a character, or has a last occurrence of it. *)
Lemma last_occurrence (o : N) (s : str) :
  Forall (fun c => c <> o) s
  \/ exists pre s', s = pre ++ o :: s' /\ Forall (fun c => c <> o) s'.
Proof.
  induction s as [|c s [IH|(pre & s' & -> & IH)]].
  - left. constructor.
  - destruct (decide (c = o)) as [->|Hc].
    + right. exists [], s. split; [reflexivity|exact IH].
    + left. constructor; assumption.
  - right. exists (c :: pre), s'. split; [reflexivity|exact IH].
Qed.

(** The character before the opening character plays no part. *)
Lemma opener_prev (o : N) adv prev prev' (s : str) :
  match_here (opener_then_phase o) adv prev s
  = match_here (opener_then_phase o) adv prev' s.
Proof.
  unfold match_here, opener_then_phase. cbn [cats foldr exec lit].
  destruct s as [|c s]; [reflexivity|].
  destruct (in_cset (CChr o) c); reflexivity.
Qed.

(** Every match of the pattern is the opening character, blanks, and a
    [phase] that ends there. *)
Lemma opener_inv (o : N) adv prev (s : str) (m : match_obj) :
  match_here (opener_then_phase o) adv prev s = Some m ->
  exists ws post,
    s = o :: ws ++ u "phase" ++ post
    /\ Forall (fun c => is_space c = true) ws
    /\ word_here post = false
    /\ m = MatchObj (o :: ws ++ u "phase") ∅.
Proof.
  unfold match_here, opener_then_phase. cbn [cats foldr exec]. intros E.
  apply exec_lit in E as (s1 & -> & E).
  apply rep_sound_run in E as (ws & s2 & -> & Hws & E).
  apply exec_lit in E as (post & -> & E). cbn [exec] in E.
  destruct (at_boundary _ post) eqn:Eb; [|discriminate].
  exists ws, post. repeat split; [exact Hws| |].
  - unfold at_boundary in Eb.
    assert (forall p, word_before (last_of p (u "phase")) = true) as Hwb
      by reflexivity.
    rewrite Hwb in Eb. destruct (word_here post); [discriminate|reflexivity].
  - assert (rev (rev (u "phase") ++ rev ws ++ rev [o] ++ [])
            = o :: ws ++ u "phase") as Hrev.
    { rewrite app_nil_r, !rev_app_distr, !rev_involutive. reflexivity. }
    rewrite Hrev in E.
    destruct adv;
      [destruct (rev (u "phase") ++ rev ws ++ rev [o] ++ [])|];
      congruence.
Qed.

(** No match where the blanks are followed by the [b] of [battle]. *)
Lemma opener_blocked (o : N) adv prev (sp rest : str) :
  Forall (fun c => is_space c = true) sp ->
  match_here (opener_then_phase o) adv prev (o :: sp ++ 98%N :: rest) = None.
Proof.
  intros Hsp. unfold match_here, opener_then_phase.
  cbn [cats foldr exec lit in_cset]. rewrite N.eqb_refl.
  apply rep_none; [reflexivity|].
  intros p acc' ws1 ws2 ->. destruct ws2 as [|c ws2].
  - reflexivity.
  - apply Forall_app in Hsp as [_ Hsp].
    apply Forall_cons in Hsp as [Hc _].
    change (u "phase") with [112; 104; 97; 115; 101]%N.
    cbn [app lit exec in_cset].
    destruct (c =? 112)%N eqn:E; [|reflexivity].
    apply N.eqb_eq in E. subst c. vm_compute in Hc. discriminate.
Qed.

(** From the opening character on, a text with no further opening
    character has at most the match at its start. *)
Lemma opener_chunk_none (o : N) prev (x : str) :
  match_here (opener_then_phase o) false prev (o :: x) = None ->
  Forall (fun c => c <> o) x ->
  search (opener_then_phase o) prev (o :: x) = None.
Proof.
  intros Hm Hx. apply search_None. intros a b Hab.
  destruct a as [|a0 a].
  - simpl in Hab. subst b. exact Hm.
  - injection Hab as _ ->. destruct b as [|b0 b]; [apply opener_nil|].
    apply opener_first. apply Forall_app in Hx as [_ Hx].
    apply Forall_cons in Hx as [Hb _]. exact Hb.
Qed.

Lemma opener_free (o : N) prev (s : str) :
  Forall (fun c => c <> o) s ->
  search (opener_then_phase o) prev s = None.
Proof.
  intros Hs. apply search_None. intros a b ->.
  destruct b as [|b0 b]; [apply opener_nil|].
  apply opener_first. apply Forall_app in Hs as [_ Hs].
  apply Forall_cons in Hs as [Hb _]. exact Hb.
Qed.

Section Template.
Variables (o : N) (sp t : str).
Hypothesis Hspace : is_space o = false.
Hypothesis Hword : is_word o = false.
Hypothesis Ht : t = o :: sp ++ u "battle.phase".
Hypothesis Hsp : Forall (fun c => is_space c = true) sp.
Hypothesis Hfree : Forall (fun c => c <> o) (u "battle.phase").

(** What the rule returns for a text from an opening character on, with
    no further opening character, begins with the opening character and
    has no match. *)
Lemma opener_chunk (s' : str) prev :
  Forall (fun c => c <> o) s' ->
  exists x,
    (subn_from (opener_then_phase o) t prev (o :: s')).1 = o :: x
    /\ forall prev',
         subn_from (opener_then_phase o) t prev' (o :: x) = (o :: x, 0).
Proof.
  intros Hs'.
  destruct (match_here (opener_then_phase o) false prev (o :: s'))
    as [m|] eqn:Em.
  - destruct (opener_inv _ _ _ _ _ Em) as (ws & post & E & Hws & Hpost & ->).
    assert (s' = ws ++ u "phase" ++ post) as ->
      by (injection E as E'; exact E').
    clear E.
    assert (Forall (fun c => c <> o) post) as Hp.
    { apply Forall_app in Hs' as [_ Hs']. apply Forall_app in Hs' as [_ Hs'].
      exact Hs'. }
    pose proof (subn_from_match (opener_then_phase o) t prev
                  (o :: ws ++ u "phase") post _
                  ltac:(cbn [app]; rewrite <- !app_assoc; exact Em)
                  eq_refl ltac:(discriminate)) as E.
    cbn [app] in E. rewrite <- !app_assoc in E. rewrite E. cbn [fst].
    rewrite (subn_from_none _ _ _ post) by (apply opener_free, Hp).
    cbn [fst]. rewrite Ht. cbn [app]. rewrite <- app_assoc.
    eexists. split; [reflexivity|].
    intros prev'. apply subn_from_none, opener_chunk_none.
    + apply (opener_blocked o false prev' sp (u "attle.phase" ++ post)), Hsp.
    + apply Forall_app. split.
      * eapply Forall_impl; [exact Hsp|]. intros c Hc ->. congruence.
      * apply Forall_app. split; assumption.
  - exists s'.
    rewrite subn_from_none by (apply opener_chunk_none; assumption).
    split; [reflexivity|].
    intros prev'. apply subn_from_none, opener_chunk_none; [|exact Hs'].
    rewrite (opener_prev o false prev' prev). exact Em.
Qed.

(** The rule changes nothing in what it returned. *)
Lemma opener_idem (n : nat) : forall (s : str) prev,
  length s <= n ->
  subn_from (opener_then_phase o) t prev
    (subn_from (opener_then_phase o) t prev s).1
  = ((subn_from (opener_then_phase o) t prev s).1, 0).
Proof.
  induction n as [|n IH]; intros s prev Hn.
  - destruct s; [|simpl in Hn; lia]. reflexivity.
  - destruct (last_occurrence o s) as [Hs|(pre & s' & -> & Hs')].
    + rewrite (subn_from_none _ _ prev s) by (apply opener_free, Hs).
      cbn [fst].
      apply subn_from_none, opener_free, Hs.
    + rewrite opener_split by assumption. cbn [fst].
      destruct (opener_chunk s' (last_of prev pre) Hs') as (x & -> & Hx).
      rewrite opener_split by assumption.
      rewrite IH by (rewrite length_app in Hn; simpl in Hn; lia).
      rewrite Hx. reflexivity.
Qed.

End Template.
End OpenerAgain.

(** X13: the rules 4 to 7 of migrate_phase.py are idempotent, unlike
    the rules 2 and 3.  Applied to its own result, such a rule changes
    nothing and counts nothing: the [phase] it wrote stands after
    [battle.], and no other text has become a match. *)
Theorem opener_rule_idempotent `{db : UnicodeDB} (o : N) (pat : regex)
    (t : str) (s : str) :
  (o, pat, t) ∈ opener_rules ->
  re_subn pat t (re_subn pat t s).1 = ((re_subn pat t s).1, 0).
Proof.
  intros Hin. unfold opener_rules in Hin.
  apply elem_of_cons in Hin as [[= -> -> ->]|Hin];
    [apply (opener_idem 40%N [] _ eq_refl eq_refl eq_refl ltac:(constructor)
              ltac:(repeat (constructor; [discriminate|]); constructor)
              (length s) s None (le_n _))|].
  apply elem_of_cons in Hin as [[= -> -> ->]|Hin];
    [apply (opener_idem 44%N (u " ") _ eq_refl eq_refl eq_refl
              ltac:(repeat constructor)
              ltac:(repeat (constructor; [discriminate|]); constructor)
              (length s) s None (le_n _))|].
  apply elem_of_cons in Hin as [[= -> -> ->]|Hin];
    [apply (opener_idem 123%N (u " ") _ eq_refl eq_refl eq_refl
              ltac:(repeat constructor)
              ltac:(repeat (constructor; [discriminate|]); constructor)
              (length s) s None (le_n _))|].
  apply elem_of_cons in Hin as [[= -> -> ->]|Hin];
    [apply (opener_idem 91%N [] _ eq_refl eq_refl eq_refl ltac:(constructor)
              ltac:(repeat (constructor; [discriminate|]); constructor)
              (length s) s None (le_n _))|].
  apply elem_of_nil in Hin. contradiction.
Qed.

Lemma opener_rule_idempotent_witness :
  re_subn (db := ascii_db) MigratePhase.pattern6 MigratePhase.replacement6
    (re_subn (db := ascii_db) MigratePhase.pattern6
       MigratePhase.replacement6 (u "const {phase, phaseLabel} = s")).1
  = (u "const { battle.phase, phaseLabel} = s", 0).
Proof.
  apply (opener_rule_idempotent (db := ascii_db) 123%N MigratePhase.pattern6
           MigratePhase.replacement6 (u "const {phase, phaseLabel} = s")).
  vm_compute. right. right. left.
Defined.

(** * The byte level *)

(** ** The UTF-8 codec *)

Ltac Zify.zify_post_hook ::= Z.to_euclidean_division_equations.

(** The comparisons of a goal, one after the other; the branches that
    cannot be are closed by arithmetic. *)
Ltac split_tests :=
  repeat match goal with
         | |- context [(?x <? ?y)%N] =>
             destruct (N.ltb_spec x y); try lia
         | |- context [(?x <=? ?y)%N] =>
             destruct (N.leb_spec x y); try lia
         end.

Lemma decode_encode_char (c : N) (bs rest : list N) :
  utf8_encode_char c = Some bs ->
  utf8_decode_strict (bs ++ rest) = cons c <$> utf8_decode_strict rest.
Proof.
  unfold utf8_encode_char, scalar.
  destruct (N.ltb_spec c 128) as [H1|H1].
  { intros [= <-]. cbn [app utf8_decode_strict].
    destruct (N.ltb_spec c 128); [reflexivity|lia]. }
  destruct (N.ltb_spec c 2048) as [H2|H2].
  { intros [= <-]. cbn [app utf8_decode_strict]. unfold is_cont.
    assert ((192 + c / 64 - 192) * 64 + (128 + c mod 64 - 128) = c)%N
      as -> by lia.
    split_tests. reflexivity. }
  destruct (N.ltb_spec c 65536) as [H3|H3].
  { destruct (N.ltb_spec c 55296) as [H4|H4];
      [|destruct (N.leb_spec 57344 c) as [H5|H5]];
      cbn [orb andb]; try discriminate.
    - intros [= <-]. cbn [app utf8_decode_strict]. unfold is_cont, scalar.
      assert ((224 + c / 4096 - 224) * 4096
              + (128 + (c / 64) mod 64 - 128) * 64
              + (128 + c mod 64 - 128) = c)%N as -> by lia.
      split_tests. reflexivity.
    - destruct (N.ltb_spec c 1114112); [|lia].
      intros [= <-]. cbn [app utf8_decode_strict]. unfold is_cont, scalar.
      assert ((224 + c / 4096 - 224) * 4096
              + (128 + (c / 64) mod 64 - 128) * 64
              + (128 + c mod 64 - 128) = c)%N as -> by lia.
      split_tests. reflexivity. }
  destruct (N.ltb_spec c 1114112) as [H4|H4]; [|discriminate].
  intros [= <-]. cbn [app utf8_decode_strict]. unfold is_cont.
  assert ((240 + c / 262144 - 240) * 262144
          + (128 + (c / 4096) mod 64 - 128) * 4096
          + (128 + (c / 64) mod 64 - 128) * 64
          + (128 + c mod 64 - 128) = c)%N as -> by lia.
  split_tests. reflexivity.
Qed.

(** What was encoded decodes to itself. *)
Lemma decode_encode (s : str) : forall bs,
  utf8_encode s = Some bs -> utf8_decode_strict bs = Some s.
Proof.
  induction s as [|c s IH]; intros bs; simpl.
  - intros [= <-]. reflexivity.
  - destruct (utf8_encode_char c) as [cs|] eqn:Ec; [|discriminate].
    destruct (utf8_encode s) as [rest|]; [|discriminate].
    intros [= <-]. rewrite (decode_encode_char c cs rest Ec).
    rewrite (IH rest eq_refl). reflexivity.
Qed.

(** What decodes is the encoding of what it decodes to: there is one
    byte sequence for a text. *)
Lemma encode_decode (n : nat) : forall (bs : list N) (s : str),
  length bs <= n ->
  utf8_decode_strict bs = Some s -> utf8_encode s = Some bs.
Proof.
  induction n as [|n IH]; intros bs s Hn.
  { destruct bs; [|simpl in Hn; lia]. intros [= <-]. reflexivity. }
  destruct bs as [|b0 t0]; [intros [= <-]; reflexivity|].
  cbn [utf8_decode_strict]. unfold is_cont, scalar.
  destruct (N.ltb_spec b0 128) as [H1|H1].
  { destruct (utf8_decode_strict t0) as [s0|] eqn:E0; [|discriminate].
    intros [= <-]. simpl in Hn.
    cbn [utf8_encode]. rewrite (IH t0 s0 ltac:(lia) E0).
    unfold utf8_encode_char. destruct (N.ltb_spec b0 128); [|lia].
    reflexivity. }
  destruct (N.ltb_spec b0 192) as [H2|H2]; [discriminate|].
  destruct (N.ltb_spec b0 224) as [H3|H3].
  { destruct t0 as [|b1 t1]; [discriminate|].
    destruct (N.leb_spec 128 b1); [|discriminate].
    destruct (N.ltb_spec b1 192); [|discriminate].
    destruct (N.leb_spec 128 ((b0 - 192) * 64 + (b1 - 128)));
      [|discriminate].
    cbn [andb].
    destruct (utf8_decode_strict t1) as [s1|] eqn:E1; [|discriminate].
    intros [= <-]. simpl in Hn.
    cbn [utf8_encode]. rewrite (IH t1 s1 ltac:(lia) E1).
    unfold utf8_encode_char. split_tests.
    cbn [app]. repeat f_equal; lia. }
  destruct (N.ltb_spec b0 240) as [H4|H4].
  { destruct t0 as [|b1 [|b2 t2]]; try discriminate.
    destruct (N.leb_spec 128 b1); [|discriminate].
    destruct (N.ltb_spec b1 192); [|discriminate].
    destruct (N.leb_spec 128 b2); [|discriminate].
    destruct (N.ltb_spec b2 192); [|discriminate].
    remember ((b0 - 224) * 4096 + (b1 - 128) * 64 + (b2 - 128))%N as c
      eqn:Ec.
    destruct (N.leb_spec 2048 c); [|discriminate].
    cbn [andb].
    destruct ((c <? 55296) || (57344 <=? c) && (c <? 1114112))%N eqn:Es;
      [|discriminate].
    destruct (utf8_decode_strict t2) as [s2|] eqn:E2; [|discriminate].
    intros [= <-]. simpl in Hn.
    cbn [utf8_encode]. rewrite (IH t2 s2 ltac:(lia) E2).
    unfold utf8_encode_char, scalar. rewrite Es.
    destruct (N.ltb_spec c 128); [lia|].
    destruct (N.ltb_spec c 2048); [lia|].
    destruct (N.ltb_spec c 65536); [|lia].
    cbn [app]. repeat f_equal; lia. }
  destruct (N.ltb_spec b0 248) as [H5|H5]; [|discriminate].
  destruct t0 as [|b1 [|b2 [|b3 t3]]]; try discriminate.
  destruct (N.leb_spec 128 b1); [|discriminate].
  destruct (N.ltb_spec b1 192); [|discriminate].
  destruct (N.leb_spec 128 b2); [|discriminate].
  destruct (N.ltb_spec b2 192); [|discriminate].
  destruct (N.leb_spec 128 b3); [|discriminate].
  destruct (N.ltb_spec b3 192); [|discriminate].
  remember ((b0 - 240) * 262144 + (b1 - 128) * 4096 + (b2 - 128) * 64
            + (b3 - 128))%N as c eqn:Ec.
  destruct (N.leb_spec 65536 c); [|discriminate].
  destruct (N.ltb_spec c 1114112); [|discriminate].
  cbn [andb].
  destruct (utf8_decode_strict t3) as [s3|] eqn:E3; [|discriminate].
  intros [= <-]. simpl in Hn.
  cbn [utf8_encode]. rewrite (IH t3 s3 ltac:(lia) E3).
  unfold utf8_encode_char.
  destruct (N.ltb_spec c 128); [lia|].
  destruct (N.ltb_spec c 2048); [lia|].
  destruct (N.ltb_spec c 65536); [lia|].
  destruct (N.ltb_spec c 1114112); [|lia].
  cbn [app]. repeat f_equal; lia.
Qed.

(** Every scalar value has an encoding. *)
Lemma encode_char_total (c : N) :
  scalar c = true -> exists bs, utf8_encode_char c = Some bs.
Proof.
  intros Hc. unfold utf8_encode_char. rewrite Hc.
  destruct (c <? 128)%N; [eauto|]. destruct (c <? 2048)%N; [eauto|].
  destruct (c <? 65536)%N eqn:E; [eauto|].
  destruct (N.ltb_spec c 1114112); [eauto|].
  unfold scalar in Hc. apply N.ltb_ge in E.
  destruct (N.ltb_spec c 55296); [lia|].
  destruct (N.ltb_spec c 1114112); [lia|].
  rewrite andb_false_r in Hc. discriminate.
Qed.

Lemma encode_total (s : str) :
  Forall (fun c => scalar c = true) s -> exists bs, utf8_encode s = Some bs.
Proof.
  induction 1 as [|c s Hc _ [rest IH]]; [exists []; reflexivity|].
  destruct (encode_char_total c Hc) as [cs Ecs].
  exists (cs ++ rest). simpl. rewrite Ecs, IH. reflexivity.
Qed.

Lemma encode_char_scalar (c : N) (bs : list N) :
  utf8_encode_char c = Some bs -> scalar c = true.
Proof.
  unfold utf8_encode_char, scalar.
  destruct (N.ltb_spec c 128); [intros _; split_tests; try reflexivity|].
  destruct (N.ltb_spec c 2048); [intros _; split_tests; try reflexivity|].
  destruct (N.ltb_spec c 65536).
  - destruct ((c <? 55296) || (57344 <=? c) && (c <? 1114112))%N;
      [reflexivity|discriminate].
  - destruct (N.ltb_spec c 1114112); [|discriminate].
    intros _. split_tests; try reflexivity.
Qed.

Lemma encode_scalar (s : str) : forall bs,
  utf8_encode s = Some bs -> Forall (fun c => scalar c = true) s.
Proof.
  induction s as [|c s IH]; intros bs; [constructor|]. simpl.
  destruct (utf8_encode_char c) as [cs|] eqn:Ec; [|discriminate].
  destruct (utf8_encode s) as [rest|]; [|discriminate]. intros _.
  constructor; [exact (encode_char_scalar c cs Ec)|exact (IH rest eq_refl)].
Qed.

(** A decoded text holds scalar values only. *)
Lemma decode_scalar (bs : list N) (s : str) :
  utf8_decode_strict bs = Some s -> Forall (fun c => scalar c = true) s.
Proof.
  intros E. apply (encode_scalar s bs).
  exact (encode_decode (length bs) bs s (le_n _) E).
Qed.

(** The bytes below 128 of an encoding are the characters below 128 of
    the text: no [CR] in the bytes, none in the text. *)
Lemma encode_char_bytes (c : N) (bs : list N) (x : N) :
  utf8_encode_char c = Some bs -> (x < 128)%N -> c = x -> x ∈ bs.
Proof.
  intros E Hx ->. unfold utf8_encode_char in E.
  destruct (N.ltb_spec x 128); [|lia]. injection E as <-. left.
Qed.

Lemma decode_keeps_ascii (x : N) (bs : list N) (s : str) :
  (x < 128)%N -> utf8_decode_strict bs = Some s -> x ∈ s -> x ∈ bs.
Proof.
  intros Hx E. apply (encode_decode (length bs) bs s (le_n _)) in E.
  revert bs E. induction s as [|c s IH]; intros bs E Hin.
  - apply elem_of_nil in Hin. contradiction.
  - simpl in E.
    destruct (utf8_encode_char c) as [cs|] eqn:Ec; [|discriminate].
    destruct (utf8_encode s) as [rest|]; [|discriminate].
    injection E as <-. apply elem_of_app.
    apply elem_of_cons in Hin as [->|Hin].
    + left. eapply encode_char_bytes; eauto.
    + right. apply (IH rest eq_refl Hin).
Qed.

(** ** Newline translation *)

(** Reading leaves no [CR]. *)
Lemma universal_newlines_no_cr (n : nat) : forall s : str,
  length s <= n -> Forall (fun c => c <> 13%N) (universal_newlines s).
Proof.
  induction n as [|n IH]; intros s Hn.
  { destruct s; [constructor|simpl in Hn; lia]. }
  destruct s as [|c s]; [constructor|]. simpl in Hn.
  cbn [universal_newlines]. destruct (N.eqb_spec c 13) as [->|Hc].
  - constructor; [discriminate|].
    destruct s as [|d s]; [constructor|]. simpl in Hn.
    destruct (d =? 10)%N; apply IH; simpl; lia.
  - constructor; [exact Hc|]. apply IH. lia.
Qed.

(** A text without [CR] is read as it is. *)
Lemma universal_newlines_id (s : str) :
  Forall (fun c => c <> 13%N) s -> universal_newlines s = s.
Proof.
  induction 1 as [|c s Hc _ IH]; [reflexivity|].
  cbn [universal_newlines]. apply N.eqb_neq in Hc. rewrite Hc, IH.
  reflexivity.
Qed.

(** Reading keeps what holds of every character and of [LF]. *)
Lemma universal_newlines_Forall (P : N -> Prop) (n : nat) :
  P 10%N -> forall s : str,
  length s <= n -> Forall P s -> Forall P (universal_newlines s).
Proof.
  intros H10. induction n as [|n IH]; intros s Hn Hs.
  { destruct s; [constructor|simpl in Hn; lia]. }
  destruct s as [|c s]; [constructor|]. simpl in Hn.
  apply Forall_cons in Hs as [Hc Hs].
  cbn [universal_newlines]. destruct (c =? 13)%N.
  - constructor; [exact H10|].
    destruct s as [|d s]; [constructor|]. simpl in Hn.
    destruct (d =? 10)%N.
    + apply IH; [lia|]. apply Forall_cons in Hs as [_ Hs]. exact Hs.
    + apply IH; [simpl; lia|exact Hs].
  - constructor; [exact Hc|]. apply IH; [lia|exact Hs].
Qed.

Lemma write_newlines_lf (s : str) : write_newlines [10%N] s = s.
Proof.
  unfold write_newlines. induction s as [|c s IH]; [reflexivity|].
  cbn [map concat]. rewrite IH. destruct (N.eqb_spec c 10) as [->|_];
    reflexivity.
Qed.

(** What was written with [LF] or [CR LF] as line separator is read
    back as the text it was. *)
Lemma universal_write_newlines (ls : str) (s : str) :
  ls = [10%N] \/ ls = [13%N; 10%N] ->
  Forall (fun c => c <> 13%N) s ->
  universal_newlines (write_newlines ls s) = s.
Proof.
  intros [-> | ->] Hs.
  - rewrite write_newlines_lf. apply universal_newlines_id, Hs.
  - unfold write_newlines.
    induction Hs as [|c s Hc _ IH]; [reflexivity|].
    cbn [map concat]. destruct (N.eqb_spec c 10) as [->|H10].
    + cbn [app universal_newlines N.eqb Pos.eqb]. rewrite IH. reflexivity.
    + cbn [app universal_newlines]. apply N.eqb_neq in Hc. rewrite Hc, IH.
      reflexivity.
Qed.

Lemma write_newlines_Forall (P : N -> Prop) (ls s : str) :
  Forall P ls -> Forall P s -> Forall P (write_newlines ls s).
Proof.
  intros Hls Hs. unfold write_newlines.
  induction Hs as [|c s Hc _ IH]; [constructor|].
  cbn [map concat]. apply Forall_app. split; [|exact IH].
  destruct (c =? 10)%N; [exact Hls|constructor; [exact Hc|constructor]].
Qed.

(** ** Text mode: decoding and encoding *)

Lemma linesep_scalar (pf : platform) :
  linesep_ok pf -> Forall (fun c => scalar c = true) (linesep pf).
Proof. intros [-> | ->]; repeat constructor. Qed.

(** A text that was read has scalar values only and no [CR]. *)
Lemma decode_text_scalar (bs : list N) (text : str) :
  decode_text bs = Some text -> Forall (fun c => scalar c = true) text.
Proof.
  unfold decode_text.
  destruct (utf8_decode_strict bs) as [raw|] eqn:E; [|discriminate].
  intros [= <-].
  apply (universal_newlines_Forall _ (length raw)); [reflexivity|lia|].
  exact (decode_scalar bs raw E).
Qed.

Lemma decode_text_no_cr (bs : list N) (text : str) :
  decode_text bs = Some text -> Forall (fun c => c <> 13%N) text.
Proof.
  unfold decode_text.
  destruct (utf8_decode_strict bs) as [raw|]; [|discriminate].
  intros [= <-]. apply (universal_newlines_no_cr (length raw)). lia.
Qed.

(** A text of scalar values can be written. *)
Lemma encode_text_total (pf : platform) (text : str) :
  linesep_ok pf ->
  Forall (fun c => scalar c = true) text ->
  exists bs, encode_text (linesep pf) text = Some bs.
Proof.
  intros Hls Ht. apply encode_total, write_newlines_Forall;
    [apply linesep_scalar, Hls|exact Ht].
Qed.

(** A text without [CR] that was written is read back as it was. *)
Lemma decode_encode_text (pf : platform) (text : str) (bs : list N) :
  linesep_ok pf ->
  Forall (fun c => c <> 13%N) text ->
  encode_text (linesep pf) text = Some bs ->
  decode_text bs = Some text.
Proof.
  intros Hls Hcr E. unfold encode_text in E. unfold decode_text.
  rewrite (decode_encode _ _ E). cbn [fmap option_fmap option_map].
  rewrite universal_write_newlines by assumption. reflexivity.
Qed.

(** The bytes below 128 of an encoding stand for themselves. *)
Lemma encode_ascii_bytes (x : N) (s : str) : forall bs,
  (x < 128)%N -> utf8_encode s = Some bs -> x ∈ bs -> x ∈ s.
Proof.
  induction s as [|c s IH]; intros bs Hx; simpl.
  - intros [= <-] Hin. exact Hin.
  - destruct (utf8_encode_char c) as [cs|] eqn:Ec; [|discriminate].
    destruct (utf8_encode s) as [rest|]; [|discriminate].
    intros [= <-] Hin. apply elem_of_app in Hin as [Hin|Hin].
    + apply elem_of_cons. left. unfold utf8_encode_char in Ec.
      destruct (N.ltb_spec c 128).
      { injection Ec as <-.
        apply elem_of_cons in Hin as [Hin|Hin]; [exact Hin|].
        apply elem_of_nil in Hin. contradiction. }
      destruct (N.ltb_spec c 2048).
      { injection Ec as <-.
        repeat (apply elem_of_cons in Hin as [Hin|Hin]; [lia|]).
        apply elem_of_nil in Hin. contradiction. }
      destruct (N.ltb_spec c 65536).
      { destruct (scalar c); [|discriminate]. injection Ec as <-.
        repeat (apply elem_of_cons in Hin as [Hin|Hin]; [lia|]).
        apply elem_of_nil in Hin. contradiction. }
      destruct (N.ltb_spec c 1114112); [|discriminate].
      injection Ec as <-.
      repeat (apply elem_of_cons in Hin as [Hin|Hin]; [lia|]).
      apply elem_of_nil in Hin. contradiction.
    + apply elem_of_cons. right. apply (IH rest Hx eq_refl Hin).
Qed.

(** With [LF] as line separator, reading and writing a file gives the
    same bytes exactly when the file has no [CR]. *)
Lemma text_copy_is_byte_copy (src copy : list N) (text : str) :
  decode_text src = Some text ->
  encode_text [10%N] text = Some copy ->
  copy = src <-> 13%N ∉ src.
Proof.
  intros Hd He. unfold encode_text in He. rewrite write_newlines_lf in He.
  pose proof (decode_text_no_cr src text Hd) as Hcr.
  split.
  - intros <- Hin.
    apply (encode_ascii_bytes 13 text copy) in Hin; [|lia|exact He].
    rewrite Forall_forall in Hcr. exact (Hcr 13%N Hin eq_refl).
  - intros Hno. unfold decode_text in Hd.
    destruct (utf8_decode_strict src) as [raw|] eqn:E; [|discriminate].
    injection Hd as <-.
    assert (Forall (fun c => c <> 13%N) raw) as Hraw.
    { apply Forall_forall. intros c Hin ->. apply Hno.
      apply (decode_keeps_ascii 13 src raw); [lia|exact E|exact Hin]. }
    rewrite universal_newlines_id in He by exact Hraw.
    apply (encode_decode (length src) src raw (le_n _)) in E.
    congruence.
Qed.

(** ** Runs at the byte level *)
Section JobFacts.
Variable pf : platform.
Variable env : nat -> outcome.

Lemma perform_cons (s : stmt) (rest : list stmt) (m : machine) :
  perform pf env (s :: rest) m
  = match exec_stmt pf env s m with
    | (m', Ret _) => perform pf env rest m'
    | (m', Raised) => (m', Raised)
    end.
Proof. reflexivity. Qed.

(** A statement adds one operation to the history. *)
Lemma exec_stmt_history (s : stmt) (m : machine) :
  exists o, history (exec_stmt pf env s m).1 = history m ++ [o].
Proof.
  destruct s as [p text|line]; cbn [exec_stmt].
  - unfold write_file.
    destruct (env (length (history m)));
      try destruct (encode_text (linesep pf) text); cbn; eauto.
  - unfold print.
    destruct (env (length (history m)));
      try destruct (can_print pf line); cbn; eauto.
Qed.

(** The history only grows. *)
Lemma perform_history (ss : list stmt) : forall m : machine,
  history m `prefix_of` history (perform pf env ss m).1.
Proof.
  induction ss as [|s ss IH]; intros m; [reflexivity|].
  rewrite perform_cons.
  destruct (exec_stmt_history s m) as [o Ho].
  destruct (exec_stmt pf env s m) as [m' [[]|]]; cbn [fst] in *.
  - etrans; [|apply IH]. rewrite Ho. apply prefix_app_r. reflexivity.
  - rewrite Ho. apply prefix_app_r. reflexivity.
Qed.

(** A file no statement writes to is left alone. *)
Lemma exec_stmt_disk (s : stmt) (m : machine) (p : string) :
  (forall text, s <> DoWrite p text) ->
  disk (exec_stmt pf env s m).1 !! p = disk m !! p.
Proof.
  intros Hs. destruct s as [q text|line]; cbn [exec_stmt].
  - assert (q <> p) as Hq by (intros ->; exact (Hs text eq_refl)).
    unfold write_file.
    destruct (env (length (history m)));
      try destruct (encode_text (linesep pf) text); cbn;
      rewrite ?lookup_insert_ne by exact Hq; reflexivity.
  - unfold print.
    destruct (env (length (history m)));
      try destruct (can_print pf line); reflexivity.
Qed.

Lemma perform_disk (p : string) (ss : list stmt) : forall m : machine,
  Forall (fun s => forall text, s <> DoWrite p text) ss ->
  disk (perform pf env ss m).1 !! p = disk m !! p.
Proof.
  induction ss as [|s ss IH]; intros m Hss; [reflexivity|].
  apply Forall_cons in Hss as [Hs Hss]. rewrite perform_cons.
  pose proof (exec_stmt_disk s m p Hs) as H1.
  destruct (exec_stmt pf env s m) as [m' [[]|]]; cbn [fst] in *.
  - rewrite (IH m' Hss). exact H1.
  - exact H1.
Qed.

(** A statement runs to its end exactly when its operation completes
    and the platform can run it; the state it leaves. *)
Lemma exec_stmt_ret (s : stmt) (m : machine) :
  (exec_stmt pf env s m).2 = Ret tt
  <-> env (length (history m)) = Completes /\ can_run pf s = true.
Proof.
  destruct s as [p text|line]; cbn [exec_stmt can_run].
  - unfold write_file.
    destruct (env (length (history m)));
      destruct (encode_text (linesep pf) text); cbn;
      split; try (intros [? ?]); try intros ?; try discriminate; auto.
  - unfold print.
    destruct (env (length (history m)));
      destruct (can_print pf line); cbn;
      split; try (intros [? ?]); try intros ?; try discriminate; auto.
Qed.

Lemma exec_stmt_state (s : stmt) (m : machine) :
  (exec_stmt pf env s m).2 = Ret tt ->
  length (history (exec_stmt pf env s m).1) = S (length (history m))
  /\ stdout (exec_stmt pf env s m).1 = stdout m ++ printed [s]
  /\ disk (exec_stmt pf env s m).1 = disk_after pf [s] (disk m).
Proof.
  destruct s as [p text|line]; cbn [exec_stmt].
  - unfold write_file.
    destruct (env (length (history m)));
      destruct (encode_text (linesep pf) text) eqn:E; cbn;
      try discriminate.
    intros _. rewrite length_app, app_nil_r, E. cbn. split; [lia|auto].
  - unfold print.
    destruct (env (length (history m)));
      destruct (can_print pf line); cbn; try discriminate.
    intros _. rewrite length_app. cbn. split; [lia|auto].
Qed.

Lemma perform_ret (ss : list stmt) : forall m : machine,
  (perform pf env ss m).2 = Ret tt
  <-> (forall i, i < length ss -> env (length (history m) + i) = Completes)
      /\ Forall (fun s => can_run pf s = true) ss.
Proof.
  induction ss as [|s ss IH]; intros m.
  - split; [|reflexivity]. intros _. split; [|constructor].
    intros i Hi. simpl in Hi. lia.
  - rewrite perform_cons.
    pose proof (exec_stmt_ret s m) as Hret.
    pose proof (exec_stmt_state s m) as Hst.
    destruct (exec_stmt pf env s m) as [m' [[]|]]; cbn [fst snd] in *.
    + destruct (proj1 Hret eq_refl) as [He Hc].
      destruct (Hst eq_refl) as (Hlen & _ & _).
      rewrite IH, Hlen. split.
      * intros [Henv Hall]. split; [|constructor; assumption].
        intros [|i] Hi; [rewrite Nat.add_0_r; exact He|].
        replace (length (history m) + S i)
          with (S (length (history m)) + i) by lia.
        apply Henv. simpl in Hi. lia.
      * intros [Henv Hall]. apply Forall_cons in Hall as [_ Hall].
        split; [|exact Hall]. intros i Hi.
        replace (S (length (history m)) + i)
          with (length (history m) + S i) by lia.
        apply Henv. simpl. lia.
    + split; [discriminate|]. intros [Henv Hall].
      apply Forall_cons in Hall as [Hc _].
      assert (Raised = Ret tt) as Habs; [|discriminate Habs].
      apply Hret. split; [|exact Hc].
      rewrite <- (Nat.add_0_r (length (history m))). apply Henv.
      simpl. lia.
Qed.

Lemma perform_state (ss : list stmt) : forall m : machine,
  (perform pf env ss m).2 = Ret tt ->
  stdout (perform pf env ss m).1 = stdout m ++ printed ss
  /\ disk (perform pf env ss m).1 = disk_after pf ss (disk m).
Proof.
  induction ss as [|s ss IH]; intros m.
  - intros _. cbn. rewrite app_nil_r. auto.
  - rewrite perform_cons.
    pose proof (exec_stmt_state s m) as Hst.
    destruct (exec_stmt pf env s m) as [m' [[]|]]; cbn [fst snd] in *;
      [|discriminate].
    intros Hret. destruct (Hst eq_refl) as (_ & Hout & Hdisk).
    destruct (IH m' Hret) as [IH1 IH2]. rewrite IH1, IH2, Hout, Hdisk.
    split.
    + rewrite <- app_assoc. f_equal.
      destruct s; reflexivity.
    + destruct s; reflexivity.
Qed.

(** The read: it gives the text of the file, or raises and leaves the
    rest of the script undone. *)
Lemma read_file_ok (p : string) (m : machine) (src : list N) (text : str) :
  disk m !! p = Some src -> decode_text src = Some text ->
  env (length (history m)) = Completes ->
  read_file env p m = (record (OpRead p true) m, Ret text).
Proof. intros Hd Ht He. unfold read_file. rewrite He, Hd, Ht. reflexivity. Qed.

Lemma read_file_cases (p : string) (m : machine) :
  (exists src text,
     disk m !! p = Some src /\ decode_text src = Some text
     /\ env (length (history m)) = Completes
     /\ read_file env p m = (record (OpRead p true) m, Ret text))
  \/ read_file env p m = (record (OpRead p false) m, Raised).
Proof.
  unfold read_file.
  destruct (env (length (history m))) eqn:He; auto.
  destruct (disk m !! p) as [src|] eqn:Hd; auto.
  destruct (decode_text src) as [text|] eqn:Ht; auto.
  left. exists src, text. auto.
Qed.

(** Both sides run the same statements: one case per statement. *)
Ltac same_steps :=
  cbn [perform exec_stmt nth];
  unfold mbind, job_bind, mret, job_ret;
  repeat match goal with
         | |- context [write_file pf env ?p ?t ?m] =>
             destruct (write_file pf env p t m) as [? [[]|]];
             try reflexivity
         | |- context [print pf env ?l ?m] =>
             destruct (print pf env l m) as [? [[]|]]; try reflexivity
         end.

Section ScriptSteps.
Context `{db : UnicodeDB}.

(** The scripts are their read followed by their statements. *)
Lemma migrate_phase_py_steps (m : machine) :
  migrate_phase_py pf env m
  = match read_file env file_path m with
    | (m', Ret content) => perform pf env (migrate_phase_steps content) m'
    | (m', Raised) => (m', Raised)
    end.
Proof.
  unfold migrate_phase_py. unfold mbind at 1. unfold job_bind at 1.
  destruct (read_file env file_path m) as [m' [content|]];
    [|reflexivity].
  unfold migrate_phase_steps, MigratePhase.substitutions.
  destruct (re_subn MigratePhase.pattern1 _ content) as [c1 n1].
  destruct (re_subn MigratePhase.pattern2 _ c1) as [c2 n2].
  destruct (re_subn MigratePhase.pattern3 _ c2) as [c3 n3].
  destruct (re_subn MigratePhase.pattern4 _ c3) as [c4 n4].
  destruct (re_subn MigratePhase.pattern5 _ c4) as [c5 n5].
  destruct (re_subn MigratePhase.pattern6 _ c5) as [c6 n6].
  destruct (re_subn MigratePhase.pattern7 _ c6) as [c7 n7].
  same_steps.
Qed.

Lemma fix_functional_updates_py_steps (m : machine) :
  fix_functional_updates_py pf env m
  = match read_file env file_path m with
    | (m', Ret content) =>
        perform pf env (fix_functional_updates_steps content) m'
    | (m', Raised) => (m', Raised)
    end.
Proof.
  unfold fix_functional_updates_py. unfold mbind at 1. unfold job_bind at 1.
  destruct (read_file env file_path m) as [m' [content|]];
    [|reflexivity].
  unfold fix_functional_updates_steps, FixFunctionalUpdates.substitutions.
  destruct (re_sub FixFunctionalUpdates.pattern1 _ content 0) as [c1 n1].
  destruct (re_sub FixFunctionalUpdates.pattern2 _ c1 n1) as [c2 n2].
  same_steps.
Qed.

End ScriptSteps.

Lemma replace_ui_components_py_steps (m : machine) :
  replace_ui_components_py pf env m
  = match read_file env file_path m with
    | (m', Ret text) => perform pf env (replace_ui_components_steps text) m'
    | (m', Raised) => (m', Raised)
    end.
Proof.
  unfold replace_ui_components_py. unfold mbind at 1. unfold job_bind at 1.
  unfold mbind at 1. unfold job_bind at 1.
  destruct (read_file env file_path m) as [m' [text|]]; [|reflexivity].
  unfold mret at 1. unfold job_ret at 1.
  unfold replace_ui_components_steps. same_steps.
Qed.

End JobFacts.

(** ** The backup on disk *)
Section BackupFirst.
Variable pf : platform.
Variable env : nat -> outcome.
Variable d : gmap string (list N).
Variable bpath : string.
Hypothesis Hbpath : bpath <> file_path.
Hypothesis Hlinesep : linesep_ok pf.

(** A script that reads the target, writes what it read to [bpath] and
    goes on with statements that leave [bpath] alone. *)
Variable run : job unit.
Variable rest : str -> list stmt.
Hypothesis Hrun : forall m,
  run m = match read_file env file_path m with
          | (m', Ret content) =>
              perform pf env (DoWrite bpath content :: rest content) m'
          | (m', Raised) => (m', Raised)
          end.
Hypothesis Hrest : forall content,
  Forall (fun s => forall text, s <> DoWrite bpath text) (rest content).

Lemma backup_first :
  backup_then_rewrite pf env d bpath (run (Machine d [] [])).1.
Proof.
  rewrite Hrun.
  destruct (read_file_cases env file_path (Machine d [] []))
    as [(src & text & Hd & Ht & He & Hr)|Hr]; rewrite Hr;
    cbn [disk history length] in *.
  2: { split.
       - intros src text Hd Ht He.
         rewrite (read_file_ok env file_path (Machine d [] []) src text
                    Hd Ht He) in Hr.
         discriminate Hr.
       - intros j data ok Hj. cbn in Hj.
         destruct j as [|[|j]]; discriminate Hj. }
  destruct (encode_text_total pf text Hlinesep
              (decode_text_scalar src text Ht)) as [copy Hcopy].
  pose proof (decode_encode_text pf text copy Hlinesep
                (decode_text_no_cr src text Ht) Hcopy) as Hback.
  rewrite perform_cons. cbn [exec_stmt]. unfold write_file.
  cbn [record history length app]. rewrite Hcopy.
  destruct (env 1) as [|  |n] eqn:E1.
  - (* the backup was written to its end *)
    set (m2 := store bpath copy true _).
    pose proof (perform_history pf env (rest text) m2) as Hpre.
    pose proof (perform_disk pf env bpath (rest text) m2 (Hrest text))
      as Hdisk.
    assert (history (perform pf env (rest text) m2).1 !! 0
            = Some (OpRead file_path true)) as H0
      by (eapply prefix_lookup_Some; [|exact Hpre]; reflexivity).
    assert (history (perform pf env (rest text) m2).1 !! 1
            = Some (OpWrite bpath copy true)) as H1
      by (eapply prefix_lookup_Some; [|exact Hpre]; reflexivity).
    assert (disk (perform pf env (rest text) m2).1 !! bpath = Some copy)
      as Hkept.
    { rewrite Hdisk. unfold m2, store. cbn [disk].
      apply lookup_insert_eq. }
    split.
    + intros src' text' Hd' Ht' _.
      assert (src' = src) as -> by congruence.
      assert (text' = text) as -> by congruence.
      exists copy. split; [exact Hcopy|]. split; [exact Hback|].
      split.
      { intros Hls. rewrite Hls in Hcopy.
        apply (text_copy_is_byte_copy src copy text Ht Hcopy). }
      split; [exact H0|]. rewrite E1. split; [exact H1|exact Hkept].
    + intros j data ok Hj. split.
      * destruct j as [|[|j]]; [congruence| |lia].
        rewrite H1 in Hj. injection Hj as E _ _. congruence.
      * exists src, text, copy. auto.
  - (* the backup was refused *)
    cbn [fst history disk]. split.
    + intros src' text' Hd' Ht' _.
      assert (src' = src) as -> by congruence.
      assert (text' = text) as -> by congruence.
      exists copy. split; [exact Hcopy|]. split; [exact Hback|].
      split.
      { intros Hls. rewrite Hls in Hcopy.
        apply (text_copy_is_byte_copy src copy text Ht Hcopy). }
      split; [reflexivity|]. rewrite E1. split; reflexivity.
    + intros j data ok Hj. cbn in Hj.
      destruct j as [|[|j]]; discriminate Hj.
  - (* the backup was cut *)
    cbn [fst store history disk app]. split.
    + intros src' text' Hd' Ht' _.
      assert (src' = src) as -> by congruence.
      assert (text' = text) as -> by congruence.
      exists copy. split; [exact Hcopy|]. split; [exact Hback|].
      split.
      { intros Hls. rewrite Hls in Hcopy.
        apply (text_copy_is_byte_copy src copy text Ht Hcopy). }
      split; [reflexivity|]. rewrite E1. split; [reflexivity|].
      unfold store, record. cbn [fst disk].
      rewrite lookup_insert_ne by exact Hbpath. exact Hd.
    + intros j data ok Hj. cbn in Hj.
      destruct j as [|[|j]]; try discriminate Hj.
      injection Hj as E _ _. congruence.
Qed.

End BackupFirst.

Section ScriptsBackup.
Context `{db : UnicodeDB}.
Variable pf : platform.

Lemma migrate_phase_steps_cons (content : str) :
  migrate_phase_steps content
  = DoWrite MigratePhase.backup_path content
      :: tail (migrate_phase_steps content).
Proof.
  unfold migrate_phase_steps.
  destruct (MigratePhase.substitutions content) as [[c counts] changes].
  reflexivity.
Qed.

Lemma migrate_phase_steps_tail (content : str) :
  Forall (fun s => forall text, s <> DoWrite MigratePhase.backup_path text)
    (tail (migrate_phase_steps content)).
Proof.
  unfold migrate_phase_steps.
  destruct (MigratePhase.substitutions content) as [[c counts] changes].
  cbn [tail].
  repeat (constructor;
          [intros text E; try discriminate E; injection E as E _;
           exact (phase_backup_path_differs (eq_sym E))|]).
  constructor.
Qed.

Lemma fix_functional_updates_steps_cons (content : str) :
  fix_functional_updates_steps content
  = DoWrite FixFunctionalUpdates.backup_path content
      :: tail (fix_functional_updates_steps content).
Proof.
  unfold fix_functional_updates_steps.
  destruct (FixFunctionalUpdates.substitutions content)
    as [c [[p1 p2] changes]].
  reflexivity.
Qed.

Lemma fix_functional_updates_steps_tail (content : str) :
  Forall (fun s =>
            forall text, s <> DoWrite FixFunctionalUpdates.backup_path text)
    (tail (fix_functional_updates_steps content)).
Proof.
  unfold fix_functional_updates_steps.
  destruct (FixFunctionalUpdates.substitutions content)
    as [c [[p1 p2] changes]].
  cbn [tail].
  repeat (constructor;
          [intros text E; try discriminate E; injection E as E _;
           exact (func_update_backup_path_differs (eq_sym E))|]).
  constructor.
Qed.

End ScriptsBackup.

(** C6, as amended: the backup the two regex scripts make is a copy
    through text mode, made first.  In every run of migrate_phase.py and
    of fix_functional_updates.py, whatever the I/O faults and the
    console: after a read of the target that gave the text [text], the
    second operation is the write of [text] to [file_path + suffix].
    Written to its end, the backup holds [text] as text mode writes it
    (each [LF] as [os.linesep], UTF-8), is read back as [text], stays in
    place to the end of the run, and - with [LF] as line separator - has
    the bytes of the source exactly when the source holds no [CR]; not
    written to its end, the run stops with the target as it was.  No
    write to the target, completed or not, comes before a completed
    backup. *)
Theorem backup_is_text_mode_copy `{db : UnicodeDB} (pf : platform)
    (env : nat -> outcome) (d : gmap string (list N)) :
  linesep_ok pf ->
  (MigratePhase.backup_path = file_path +:+ ".phase_backup"
   /\ backup_then_rewrite pf env d MigratePhase.backup_path
        (migrate_phase_py pf env (Machine d [] [])).1)
  /\ (FixFunctionalUpdates.backup_path = file_path +:+ ".func_update_backup"
      /\ backup_then_rewrite pf env d FixFunctionalUpdates.backup_path
           (fix_functional_updates_py pf env (Machine d [] [])).1).
Proof.
  intros Hls. split; (split; [reflexivity|]).
  - apply (backup_first pf env d MigratePhase.backup_path
             phase_backup_path_differs Hls (migrate_phase_py pf env)
             (fun content => tail (migrate_phase_steps content))).
    + intros m. rewrite migrate_phase_py_steps.
      destruct (read_file env file_path m) as [m' [content|]];
        [|reflexivity].
      rewrite migrate_phase_steps_cons at 1. reflexivity.
    + apply migrate_phase_steps_tail.
  - apply (backup_first pf env d FixFunctionalUpdates.backup_path
             func_update_backup_path_differs Hls
             (fix_functional_updates_py pf env)
             (fun content => tail (fix_functional_updates_steps content))).
    + intros m. rewrite fix_functional_updates_py_steps.
      destruct (read_file env file_path m) as [m' [content|]];
        [|reflexivity].
      rewrite fix_functional_updates_steps_cons at 1. reflexivity.
    + apply fix_functional_updates_steps_tail.
Qed.

Lemma backup_is_text_mode_copy_witness :
  exists copy : list N,
    disk (migrate_phase_py (db := ascii_db) posix_utf8 no_faults
            (Machine {[file_path := bytes_of "if (phase === 1) {}"]} [] [])).1
      !! MigratePhase.backup_path = Some copy
    /\ (copy = bytes_of "if (phase === 1) {}"
        <-> 13%N ∉ bytes_of "if (phase === 1) {}").
Proof.
  destruct (proj1 (proj2 (proj1
              (backup_is_text_mode_copy (db := ascii_db) posix_utf8
                 no_faults {[file_path := bytes_of "if (phase === 1) {}"]}
                 (or_introl eq_refl))))
              (bytes_of "if (phase === 1) {}") (u "if (phase === 1) {}"))
    as (copy & _ & _ & Hcopy & _ & Hm).
  - apply lookup_singleton_eq.
  - vm_compute. reflexivity.
  - reflexivity.
  - exists copy. split; [exact (proj2 Hm)|]. apply Hcopy. reflexivity.
Defined.

(** C6 as stated fails: the backup need not have the bytes of the
    source.  On a target with [CR LF] line ends, with [LF] as line
    separator, the run completes and the backup holds [LF] line ends:
    the [CR]s of the source are not in it. *)
Lemma backup_not_byte_identical_counterexample :
  (migrate_phase_py (db := ascii_db) posix_utf8 no_faults
     (Machine {[file_path := bytes_of "if (phase === 1) {}" ++ [13; 10]%N]}
        [] [])).2 = Ret tt
  /\ disk (migrate_phase_py (db := ascii_db) posix_utf8 no_faults
             (Machine
                {[file_path := bytes_of "if (phase === 1) {}" ++ [13; 10]%N]}
                [] [])).1 !! MigratePhase.backup_path
     = Some (bytes_of "if (phase === 1) {}" ++ [10%N])
  /\ bytes_of "if (phase === 1) {}" ++ [10%N]
     <> bytes_of "if (phase === 1) {}" ++ [13; 10]%N.
Proof.
  split; [vm_compute; reflexivity|].
  split; [vm_compute; reflexivity|].
  vm_compute. discriminate.
Qed.

(** ** What the substitutions keep

    A property of characters that holds of the text, of the templates
    and of the literals of the callbacks holds of the rewritten text:
    every character of it comes from one of them. *)
Section Keeps.
Context `{db : UnicodeDB}.
Variable P : N -> Prop.

Lemma rep_keeps {A} (a : cset) (s : str) :
  forall prev acc (k : option N -> str -> str -> option A) x,
    Forall P acc -> Forall P s ->
    rep a prev acc s k = Some x ->
    exists p' acc' s',
      k p' acc' s' = Some x /\ Forall P acc' /\ Forall P s'.
Proof.
  induction s as [|c s IH]; intros prev acc k x Hacc Hs; simpl.
  - intros Hk. exists prev, acc, []. auto.
  - pose proof Hs as Hcs. apply Forall_cons in Hs as [Hc Hs].
    destruct (in_cset a c).
    + destruct (rep a (Some c) (c :: acc) s k) as [y|] eqn:E.
      * intros [= ->].
        apply IH in E; [exact E|constructor; assumption|exact Hs].
      * intros Hk. exists prev, acc, (c :: s). auto.
    + intros Hk. exists prev, acc, (c :: s). auto.
Qed.

Lemma exec_keeps {A} (r : regex) :
  forall prev acc s gs (k : kont A) x,
    Forall P acc -> Forall P s ->
    map_Forall (fun _ g => Forall P g) gs ->
    exec r prev acc s gs k = Some x ->
    exists p' acc' s' g',
      k p' acc' s' g' = Some x /\ Forall P acc' /\ Forall P s'
      /\ map_Forall (fun _ g => Forall P g) g'.
Proof.
  induction r as [|a| |r1 IH1 r2 IH2|r1 IH1 r2 IH2|a|a|n r IH];
    intros prev acc s gs k x Hacc Hs Hgs; simpl.
  - intros Hk. exists prev, acc, s, gs. auto.
  - destruct s as [|c s]; [discriminate|].
    apply Forall_cons in Hs as [Hc Hs].
    destruct (in_cset a c); [|discriminate].
    intros Hk. exists (Some c), (c :: acc), s, gs. auto.
  - destruct (at_boundary prev s); [|discriminate].
    intros Hk. exists prev, acc, s, gs. auto.
  - intros E.
    apply IH1 in E as (p1 & a1 & s1 & g1 & E & Ha1 & Hs1 & Hg1);
      [|assumption..].
    apply IH2 in E; assumption.
  - destruct (exec r1 prev acc s gs k) as [y|] eqn:E.
    + intros [= ->]. apply IH1 in E; assumption.
    + intros E2. apply IH2 in E2; assumption.
  - intros E. apply rep_keeps in E as (p' & acc' & s' & Hk & Ha & Hs');
      [|assumption..].
    exists p', acc', s', gs. auto.
  - destruct s as [|c s]; [discriminate|].
    apply Forall_cons in Hs as [Hc Hs].
    destruct (in_cset a c); [|discriminate].
    intros E. apply rep_keeps in E as (p' & acc' & s' & Hk & Ha & Hs');
      [|auto..].
    exists p', acc', s', gs. auto.
  - intros E.
    apply IH in E as (p' & acc' & s' & g' & Hk & Ha & Hs' & Hg');
      [|assumption..].
    eexists p', acc', s', _. split; [exact Hk|].
    split; [exact Ha|]. split; [exact Hs'|].
    apply map_Forall_insert_2; [|exact Hg'].
    apply Forall_rev, Forall_take, Ha.
Qed.

Lemma match_here_keeps (r : regex) adv prev (s : str) (m : match_obj) :
  Forall P s -> match_here r adv prev s = Some m ->
  Forall P (m_text m) /\ map_Forall (fun _ g => Forall P g) (m_groups m).
Proof.
  unfold match_here. intros Hs E.
  apply exec_keeps in E as (p' & acc' & s' & g' & Hk & Ha & _ & Hg');
    [|constructor|exact Hs|apply map_Forall_empty].
  assert (m = MatchObj (rev acc') g') as ->
    by (destruct adv, acc'; try discriminate; congruence).
  split; [apply Forall_rev, Ha|exact Hg'].
Qed.

Section ScanKeeps.
Context {G : Type}.
Variable r : regex.
Variable repl : match_obj -> G -> str * G.
Hypothesis Hrepl : forall m g,
  Forall P (m_text m) -> map_Forall (fun _ g => Forall P g) (m_groups m) ->
  Forall P (repl m g).1.

Lemma attempt_keeps prev (s : str) (g : G) :
  Forall P s -> Forall P (attempt r repl prev s g).1.1.1.
Proof.
  intros Hs. unfold attempt.
  destruct (match_here r false prev s) as [m|] eqn:Em; [|constructor].
  destruct (match_here_keeps r false prev s m Hs Em) as [Hm Hg].
  pose proof (Hrepl m g Hm Hg) as H1.
  destruct (repl m g) as [out1 g1]. cbn [fst] in H1.
  destruct (length (m_text m)); [|exact H1].
  destruct s as [|c s]; [exact H1|].
  destruct (match_here r true prev (c :: s)) as [m2|] eqn:Em2; [|exact H1].
  destruct (match_here_keeps r true prev (c :: s) m2 Hs Em2) as [Hm2 Hg2].
  pose proof (Hrepl m2 g1 Hm2 Hg2) as H2.
  destruct (repl m2 g1) as [out2 g2]. cbn [fst] in *.
  apply Forall_app. auto.
Qed.

Lemma scan_keeps (s : str) : forall prev skip (g : G),
  Forall P s -> Forall P (scan r repl prev s skip g).1.1.
Proof.
  induction s as [|c s IH]; intros prev skip g Hs.
  - destruct skip as [|k]; cbn [scan]; [|constructor].
    pose proof (attempt_keeps prev [] g Hs) as Ha.
    destruct (attempt r repl prev [] g) as [[[emit len] n] g1].
    exact Ha.
  - pose proof Hs as Hcs. apply Forall_cons in Hs as [Hc Hs].
    destruct skip as [|k]; cbn [scan]; [|apply IH, Hs].
    pose proof (attempt_keeps prev (c :: s) g Hcs) as Ha.
    destruct (attempt r repl prev (c :: s) g) as [[[emit len] n] g1].
    cbn [fst] in Ha. destruct len as [|k].
    + pose proof (IH (Some c) 0 g1 Hs) as Ho.
      destruct (scan r repl (Some c) s 0 g1) as [[o n'] g2].
      cbn [fst] in *. apply Forall_app. split; [exact Ha|].
      constructor; assumption.
    + pose proof (IH (Some c) k g1 Hs) as Ho.
      destruct (scan r repl (Some c) s k g1) as [[o n'] g2].
      cbn [fst] in *. apply Forall_app. auto.
Qed.

End ScanKeeps.

Lemma re_subn_keeps (r : regex) (t s : str) :
  Forall P t -> Forall P s -> Forall P (re_subn r t s).1.
Proof.
  intros Ht Hs. unfold re_subn, subn_from.
  pose proof (scan_keeps r (template_repl t) (fun _ _ _ _ => Ht) s None 0
                tt Hs) as H.
  destruct (scan r (template_repl t) None s 0 tt) as [[out n] g].
  exact H.
Qed.

Lemma re_sub_keeps {G} (r : regex) (cb : match_obj -> G -> str * G)
    (s : str) (g : G) :
  (forall m g,
     Forall P (m_text m) ->
     map_Forall (fun _ g => Forall P g) (m_groups m) ->
     Forall P (cb m g).1) ->
  Forall P s -> Forall P (re_sub r cb s g).1.
Proof.
  intros Hcb Hs. unfold re_sub, sub_from.
  pose proof (scan_keeps r cb Hcb s None 0 g Hs) as H.
  destruct (scan r cb None s 0 g) as [[out n] g'].
  exact H.
Qed.

End Keeps.

(** ** The texts the scripts write

    They hold scalar values only, so they can be encoded, and no [CR],
    so they are read back as they were written. *)

Lemma Forall_by_test (f : N -> bool) (P : N -> Prop) (l : str) :
  (forall c, f c = true -> P c) -> forallb f l = true -> Forall P l.
Proof.
  intros Hf. induction l as [|c l IH]; [constructor|]. simpl.
  intros H. apply andb_prop in H as [Hc Hl]. constructor; auto.
Qed.

Lemma not_cr_spec (c : N) : not_cr c = true -> c <> 13%N.
Proof.
  unfold not_cr. intros H ->. discriminate H.
Qed.

Ltac literal :=
  match goal with
  | |- Forall (fun c => scalar c = true) _ =>
      apply (Forall_by_test scalar); [auto|vm_compute; reflexivity]
  | |- Forall (fun c => c <> 13%N) _ =>
      apply (Forall_by_test not_cr);
      [exact not_cr_spec|vm_compute; reflexivity]
  end.

Section WrittenTexts.
Context `{db : UnicodeDB}.
Variable P : N -> Prop.

Lemma phase_substitutions_keeps (content : str) :
  Forall (Forall P)
    [MigratePhase.replacement1; MigratePhase.replacement2;
     MigratePhase.replacement3; MigratePhase.replacement4;
     MigratePhase.replacement5; MigratePhase.replacement6;
     MigratePhase.replacement7] ->
  Forall P content ->
  Forall P (MigratePhase.substitutions content).1.1.
Proof.
  intros Ht H0. rewrite !Forall_cons in Ht.
  destruct Ht as (T1 & T2 & T3 & T4 & T5 & T6 & T7 & _).
  unfold MigratePhase.substitutions.
  pose proof (re_subn_keeps P MigratePhase.pattern1 _ content T1 H0) as H1.
  destruct (re_subn MigratePhase.pattern1 _ content) as [c1 n1].
  pose proof (re_subn_keeps P MigratePhase.pattern2 _ c1 T2 H1) as H2.
  destruct (re_subn MigratePhase.pattern2 _ c1) as [c2 n2].
  pose proof (re_subn_keeps P MigratePhase.pattern3 _ c2 T3 H2) as H3.
  destruct (re_subn MigratePhase.pattern3 _ c2) as [c3 n3].
  pose proof (re_subn_keeps P MigratePhase.pattern4 _ c3 T4 H3) as H4.
  destruct (re_subn MigratePhase.pattern4 _ c3) as [c4 n4].
  pose proof (re_subn_keeps P MigratePhase.pattern5 _ c4 T5 H4) as H5.
  destruct (re_subn MigratePhase.pattern5 _ c4) as [c5 n5].
  pose proof (re_subn_keeps P MigratePhase.pattern6 _ c5 T6 H5) as H6.
  destruct (re_subn MigratePhase.pattern6 _ c5) as [c6 n6].
  pose proof (re_subn_keeps P MigratePhase.pattern7 _ c6 T7 H6) as H7.
  destruct (re_subn MigratePhase.pattern7 _ c6) as [c7 n7].
  exact H7.
Qed.

Lemma fmt_group_keeps (m : match_obj) (n : nat) :
  Forall P (u "None") ->
  map_Forall (fun _ g => Forall P g) (m_groups m) ->
  Forall P (fmt (group m n)).
Proof.
  intros Hnone Hg. unfold group, fmt.
  destruct (m_groups m !! n) as [g|] eqn:E; [exact (Hg n g E)|exact Hnone].
Qed.

Lemma func_update_substitutions_keeps (content : str) :
  Forall (Forall P)
    [u "actions.setPlayer({ ...player, "; u "actions.setEnemy({ ...enemy, ";
     u "})"; u "None"] ->
  Forall P content ->
  Forall P (FixFunctionalUpdates.substitutions content).1.
Proof.
  intros Ht H0. rewrite !Forall_cons in Ht.
  destruct Ht as (T1 & T2 & T3 & T4 & _).
  unfold FixFunctionalUpdates.substitutions.
  assert (Forall P
            (re_sub FixFunctionalUpdates.pattern1
               FixFunctionalUpdates.replace1 content 0).1) as H1.
  { apply re_sub_keeps; [|exact H0]. intros m g _ Hg.
    unfold FixFunctionalUpdates.replace1. cbn [fst].
    apply Forall_app. split; [exact T1|].
    apply Forall_app. split; [apply fmt_group_keeps; assumption|exact T3]. }
  destruct (re_sub FixFunctionalUpdates.pattern1 _ content 0) as [c1 n1].
  cbn [fst] in H1.
  assert (Forall P
            (re_sub FixFunctionalUpdates.pattern2
               FixFunctionalUpdates.replace2 c1 n1).1) as H2.
  { apply re_sub_keeps; [|exact H1]. intros m g _ Hg.
    unfold FixFunctionalUpdates.replace2. cbn [fst].
    apply Forall_app. split; [exact T2|].
    apply Forall_app. split; [apply fmt_group_keeps; assumption|exact T3]. }
  destruct (re_sub FixFunctionalUpdates.pattern2 _ c1 n1) as [c2 n2].
  exact H2.
Qed.

Lemma new_lines_keeps (text : str) :
  Forall P ReplaceUiComponents.new_code ->
  Forall P text ->
  Forall P (concat (ReplaceUiComponents.new_lines (text_lines text))).
Proof.
  intros Hnew H0. rewrite <- (concat_text_lines text) in H0.
  apply Forall_concat in H0. apply Forall_concat.
  unfold ReplaceUiComponents.new_lines.
  apply Forall_app. split; [apply Forall_take, H0|].
  apply Forall_app. split; [|apply Forall_drop, H0].
  constructor; [exact Hnew|constructor].
Qed.

End WrittenTexts.

Section WrittenScalars.
Context `{db : UnicodeDB}.

Lemma phase_substitutions_scalar (content : str) :
  Forall (fun c => scalar c = true) content ->
  Forall (fun c => scalar c = true) (MigratePhase.substitutions content).1.1.
Proof.
  apply phase_substitutions_keeps. repeat (constructor; [literal|]).
  constructor.
Qed.

Lemma phase_substitutions_no_cr (content : str) :
  Forall (fun c => c <> 13%N) content ->
  Forall (fun c => c <> 13%N) (MigratePhase.substitutions content).1.1.
Proof.
  apply phase_substitutions_keeps. repeat (constructor; [literal|]).
  constructor.
Qed.

Lemma func_update_substitutions_scalar (content : str) :
  Forall (fun c => scalar c = true) content ->
  Forall (fun c => scalar c = true)
    (FixFunctionalUpdates.substitutions content).1.
Proof.
  apply func_update_substitutions_keeps. repeat (constructor; [literal|]).
  constructor.
Qed.

Lemma func_update_substitutions_no_cr (content : str) :
  Forall (fun c => c <> 13%N) content ->
  Forall (fun c => c <> 13%N)
    (FixFunctionalUpdates.substitutions content).1.
Proof.
  apply func_update_substitutions_keeps. repeat (constructor; [literal|]).
  constructor.
Qed.

End WrittenScalars.

Lemma new_lines_scalar (text : str) :
  Forall (fun c => scalar c = true) text ->
  Forall (fun c => scalar c = true)
    (concat (ReplaceUiComponents.new_lines (text_lines text))).
Proof. apply new_lines_keeps. literal. Qed.

Lemma new_lines_no_cr (text : str) :
  Forall (fun c => c <> 13%N) text ->
  Forall (fun c => c <> 13%N)
    (concat (ReplaceUiComponents.new_lines (text_lines text))).
Proof. apply new_lines_keeps. literal. Qed.

(** ** How the runs end, at the byte level *)
Section RunsToEnd.
Variable pf : platform.
Variable env : nat -> outcome.
Variable d : gmap string (list N).
Hypothesis Hlinesep : linesep_ok pf.

Lemma can_run_printed (ss : list stmt) :
  Forall (fun s => can_run pf s = true) ss ->
  Forall (fun line => can_print pf line = true) (printed ss).
Proof.
  induction 1 as [|s ss Hs _ IH]; [constructor|].
  destruct s as [p text|line]; [exact IH|]. constructor; assumption.
Qed.

Lemma can_run_written (ss : list stmt) :
  Forall (fun s => can_run pf s = true) ss ->
  Forall (fun t => is_Some (encode_text (linesep pf) t)) (written ss).
Proof.
  induction 1 as [|s ss Hs _ IH]; [constructor|].
  destruct s as [p text|line]; [|exact IH]. constructor; [|exact IH].
  cbn [can_run] in Hs. destruct (encode_text (linesep pf) text); [eauto|].
  discriminate.
Qed.

Lemma can_run_all (ss : list stmt) :
  Forall (fun line => can_print pf line = true) (printed ss) ->
  Forall (Forall (fun c => scalar c = true)) (written ss) ->
  Forall (fun s => can_run pf s = true) ss.
Proof.
  induction ss as [|s ss IH]; intros Hp Hw; [constructor|].
  destruct s as [p text|line].
  - cbn [written omap] in Hw. change (omap _ ss) with (written ss) in Hw.
    apply Forall_cons in Hw as [Ht Hw].
    constructor; [|exact (IH Hp Hw)].
    cbn [can_run].
    destruct (encode_text_total pf text Hlinesep Ht) as [bs ->].
    reflexivity.
  - cbn [printed omap] in Hp. change (omap _ ss) with (printed ss) in Hp.
    apply Forall_cons in Hp as [Hl Hp].
    constructor; [exact Hl|exact (IH Hp Hw)].
Qed.

Variable run : job unit.
Variable steps : str -> list stmt.
Hypothesis Hrun : forall m,
  run m = match read_file env file_path m with
          | (m', Ret content) => perform pf env (steps content) m'
          | (m', Raised) => (m', Raised)
          end.
Hypothesis Hsteps : forall text,
  Forall (fun c => scalar c = true) text ->
  Forall (Forall (fun c => scalar c = true)) (written (steps text)).

Lemma script_runs_to_end : runs_to_end pf env d run steps.
Proof.
  unfold runs_to_end. rewrite Hrun.
  destruct (read_file_cases env file_path (Machine d [] []))
    as [(src & text & Hd & Ht & He & Hr)|Hr]; rewrite Hr;
    cbn [disk history length] in *.
  2: { split.
       - split; [discriminate|].
         intros (src & text & Hd & Ht & Henv & _).
         rewrite (read_file_ok env file_path (Machine d [] []) src text
                    Hd Ht (Henv 0 ltac:(lia))) in Hr.
         discriminate Hr.
       - intros src text _ _ Habs. discriminate Habs. }
  set (m1 := record (OpRead file_path true) (Machine d [] [])).
  pose proof (perform_ret pf env (steps text) m1) as Hret.
  pose proof (perform_state pf env (steps text) m1) as Hstate.
  change (length (history m1)) with 1 in Hret.
  split.
  - rewrite Hret. split.
    + intros [Henv Hall]. exists src, text.
      split; [exact Hd|]. split; [exact Ht|].
      split; [|apply can_run_printed, Hall].
      intros [|i] Hi; [exact He|]. apply (Henv i). lia.
    + intros (src' & text' & Hd' & Ht' & Henv & Hp).
      assert (src' = src) as -> by congruence.
      assert (text' = text) as -> by congruence.
      split.
      * intros i Hi. apply Henv. lia.
      * apply can_run_all; [exact Hp|].
        apply Hsteps, (decode_text_scalar src text Ht).
  - intros src' text' Hd' Ht' Hend.
    assert (src' = src) as -> by congruence.
    assert (text' = text) as -> by congruence.
    destruct (Hstate Hend) as [Hout Hdisk].
    split; [exact Hout|]. split; [exact Hdisk|].
    apply can_run_written. apply Hret in Hend as [_ Hall]. exact Hall.
Qed.

End RunsToEnd.

Section ScriptTexts.
Context `{db : UnicodeDB}.

Lemma migrate_phase_written (text : str) :
  written (migrate_phase_steps text)
  = [text; (MigratePhase.substitutions text).1.1].
Proof.
  unfold migrate_phase_steps.
  destruct (MigratePhase.substitutions text) as [[c counts] changes].
  reflexivity.
Qed.

Lemma fix_functional_updates_written (text : str) :
  written (fix_functional_updates_steps text)
  = [text; (FixFunctionalUpdates.substitutions text).1].
Proof.
  unfold fix_functional_updates_steps.
  destruct (FixFunctionalUpdates.substitutions text)
    as [c [[p1 p2] changes]].
  reflexivity.
Qed.

End ScriptTexts.

(** X1: a run of a script ends normally exactly when the target file is
    there and is valid UTF-8, each of its operations completes - the
    read, the writes and every [print] - and [stdout] has the characters
    of every line printed.  The texts the scripts write can always be
    encoded: no write fails on its text.  The run then has printed the
    lines of the script and left on disk what its writes make.  The
    operations are 17, 16 and 6. *)
Theorem scripts_run_to_end `{db : UnicodeDB} (pf : platform)
    (env : nat -> outcome) (d : gmap string (list N)) :
  linesep_ok pf ->
  (runs_to_end pf env d (migrate_phase_py pf env) migrate_phase_steps
   /\ forall text, length (migrate_phase_steps text) = 16)
  /\ (runs_to_end pf env d (fix_functional_updates_py pf env)
        fix_functional_updates_steps
      /\ forall text, length (fix_functional_updates_steps text) = 15)
  /\ (runs_to_end pf env d (replace_ui_components_py pf env)
        replace_ui_components_steps
      /\ forall text, length (replace_ui_components_steps text) = 5).
Proof.
  intros Hls. split; [|split]; split.
  - apply script_runs_to_end; [exact Hls|apply migrate_phase_py_steps|].
    intros text Ht. rewrite migrate_phase_written.
    constructor; [exact Ht|]. constructor; [|constructor].
    apply phase_substitutions_scalar, Ht.
  - intros text. unfold migrate_phase_steps.
    destruct (MigratePhase.substitutions text) as [[c counts] changes].
    reflexivity.
  - apply script_runs_to_end;
      [exact Hls|apply fix_functional_updates_py_steps|].
    intros text Ht. rewrite fix_functional_updates_written.
    constructor; [exact Ht|]. constructor; [|constructor].
    apply func_update_substitutions_scalar, Ht.
  - intros text. unfold fix_functional_updates_steps.
    destruct (FixFunctionalUpdates.substitutions text)
      as [c [[p1 p2] changes]].
    reflexivity.
  - apply script_runs_to_end;
      [exact Hls|apply replace_ui_components_py_steps|].
    intros text Ht. constructor; [|constructor].
    apply new_lines_scalar, Ht.
  - reflexivity.
Qed.

Lemma scripts_run_to_end_witness :
  (migrate_phase_py (db := ascii_db) posix_utf8 no_faults
     (Machine {[file_path := bytes_of "if (phase === 1) {}"]} [] [])).2
  = Ret tt.
Proof.
  apply (proj1 (proj1 (proj1 (scripts_run_to_end (db := ascii_db) posix_utf8
                                no_faults
                                {[file_path := bytes_of "if (phase === 1) {}"]}
                                (or_introl eq_refl))))).
  exists (bytes_of "if (phase === 1) {}"), (u "if (phase === 1) {}").
  split; [apply lookup_singleton_eq|].
  split; [vm_compute; reflexivity|].
  split; [reflexivity|].
  apply Forall_forall. intros line Hin. vm_compute in Hin.
  repeat (apply elem_of_cons in Hin as [->|Hin];
          [vm_compute; reflexivity|]).
  apply elem_of_nil in Hin. contradiction.
Defined.

(** ** A console without the check mark *)
Section NoCheckMark.
Variable pf : platform.
Variable env : nat -> outcome.
Variable d : gmap string (list N).
Hypothesis Hmark : stdout_has pf 9989 = false.

Lemma cannot_print (line : str) :
  9989%N ∈ line -> can_print pf line = false.
Proof.
  unfold can_print. induction line as [|c line IH]; intros Hin.
  - apply elem_of_nil in Hin. contradiction.
  - simpl. apply elem_of_cons in Hin as [<-|Hin].
    + rewrite Hmark. reflexivity.
    + rewrite (IH Hin). apply andb_false_r.
Qed.

(** A script whose first statement after the read is a write and whose
    second is a [print] of a line with the check mark. *)
Variable run : job unit.
Variable steps : str -> list stmt.
Hypothesis Hrun : forall m,
  run m = match read_file env file_path m with
          | (m', Ret content) => perform pf env (steps content) m'
          | (m', Raised) => (m', Raised)
          end.
Variable target : string.
Variable wrote : str -> str.
Hypothesis Hsteps : forall content,
  exists line rest,
    steps content = DoWrite target (wrote content) :: DoPrint line :: rest
    /\ 9989%N ∈ line.

Lemma raises_at_first_print :
  (run (Machine d [] [])).2 = Raised
  /\ stdout (run (Machine d [] [])).1 = []
  /\ (forall p, p <> target ->
        disk (run (Machine d [] [])).1 !! p = d !! p)
  /\ (forall src text new,
        d !! file_path = Some src -> decode_text src = Some text ->
        env 0 = Completes -> env 1 = Completes ->
        encode_text (linesep pf) (wrote text) = Some new ->
        disk (run (Machine d [] [])).1 !! target = Some new).
Proof.
  rewrite Hrun.
  destruct (read_file_cases env file_path (Machine d [] []))
    as [(src & text & Hd & Ht & He & Hr)|Hr].
  2: { rewrite Hr. cbn. repeat split; try reflexivity.
       intros src text new Hd Ht He.
       rewrite (read_file_ok env file_path (Machine d [] []) src text
                  Hd Ht He) in Hr.
       discriminate Hr. }
  rewrite Hr. cbn [disk history length] in Hd, He.
  destruct (Hsteps text) as (line & rest & -> & Hin).
  rewrite perform_cons. cbn [exec_stmt]. unfold write_file.
  cbn [record history length app].
  destruct (env 1) as [| |n] eqn:E1;
    destruct (encode_text (linesep pf) (wrote text)) as [bs|] eqn:Ebs.
  - rewrite perform_cons. cbn [exec_stmt]. unfold print.
    rewrite (cannot_print line Hin).
    unfold store, record. cbn [history length app].
    destruct (env 2); cbn [fst snd disk stdout].
    all: split; [reflexivity|]; split; [reflexivity|]; split.
    all: try (intros p Hp; rewrite lookup_insert_ne by congruence;
              reflexivity).
    all: intros src' text' new Hd' Ht' _ _ Hnew;
      assert (text' = text) as -> by congruence;
      rewrite lookup_insert_eq; congruence.
  - cbn [fst snd store disk stdout].
    split; [reflexivity|]. split; [reflexivity|]. split.
    + intros p Hp. rewrite lookup_insert_ne by congruence. reflexivity.
    + intros src' text' new Hd' Ht' _ _ Hnew.
      assert (text' = text) as -> by congruence. congruence.
  - cbn [fst snd record disk stdout].
    split; [reflexivity|]. split; [reflexivity|]. split; [reflexivity|].
    intros src' text' new _ _ _ Habs. discriminate Habs.
  - cbn [fst snd record disk stdout].
    split; [reflexivity|]. split; [reflexivity|]. split; [reflexivity|].
    intros src' text' new _ _ _ Habs. discriminate Habs.
  - cbn [fst snd store disk stdout].
    split; [reflexivity|]. split; [reflexivity|]. split.
    + intros p Hp. rewrite lookup_insert_ne by congruence. reflexivity.
    + intros src' text' new _ _ _ Habs. discriminate Habs.
  - cbn [fst snd store disk stdout].
    split; [reflexivity|]. split; [reflexivity|]. split.
    + intros p Hp. rewrite lookup_insert_ne by congruence. reflexivity.
    + intros src' text' new _ _ _ Habs. discriminate Habs.
Qed.

End NoCheckMark.

(** X14: on a console whose encoding lacks the check mark U+2705 (a
    [stdout] in cp949, cp1252 or ASCII), no run of a script ends
    normally and nothing at all is printed: the first [print] raises.
    The two regex scripts stop there, after the backup: the target file
    is never rewritten.  replace_ui_components.py has no [print] before
    its write: when its read and write complete, the target is
    rewritten, and then the run raises. *)
Theorem console_without_check_mark `{db : UnicodeDB} (pf : platform)
    (env : nat -> outcome) (d : gmap string (list N)) :
  stdout_has pf 9989 = false ->
  ((migrate_phase_py pf env (Machine d [] [])).2 = Raised
   /\ stdout (migrate_phase_py pf env (Machine d [] [])).1 = []
   /\ disk (migrate_phase_py pf env (Machine d [] [])).1 !! file_path
      = d !! file_path)
  /\ ((fix_functional_updates_py pf env (Machine d [] [])).2 = Raised
      /\ stdout (fix_functional_updates_py pf env (Machine d [] [])).1 = []
      /\ disk (fix_functional_updates_py pf env (Machine d [] [])).1
           !! file_path
         = d !! file_path)
  /\ ((replace_ui_components_py pf env (Machine d [] [])).2 = Raised
      /\ stdout (replace_ui_components_py pf env (Machine d [] [])).1 = []
      /\ forall src text new,
           d !! file_path = Some src -> decode_text src = Some text ->
           env 0 = Completes -> env 1 = Completes ->
           encode_text (linesep pf)
             (concat (ReplaceUiComponents.new_lines (text_lines text)))
           = Some new ->
           disk (replace_ui_components_py pf env (Machine d [] [])).1
             !! file_path
           = Some new).
Proof.
  intros Hmark. split; [|split].
  - destruct (raises_at_first_print pf env d Hmark (migrate_phase_py pf env)
                migrate_phase_steps (migrate_phase_py_steps pf env)
                MigratePhase.backup_path (fun content => content))
      as (H1 & H2 & H3 & _).
    + intros content. unfold migrate_phase_steps.
      destruct (MigratePhase.substitutions content) as [[c counts] changes].
      eexists _, _. split; [reflexivity|]. vm_compute. left.
    + split; [exact H1|]. split; [exact H2|].
      apply H3. intros E. exact (phase_backup_path_differs (eq_sym E)).
  - destruct (raises_at_first_print pf env d Hmark
                (fix_functional_updates_py pf env)
                fix_functional_updates_steps
                (fix_functional_updates_py_steps pf env)
                FixFunctionalUpdates.backup_path (fun content => content))
      as (H1 & H2 & H3 & _).
    + intros content. unfold fix_functional_updates_steps.
      destruct (FixFunctionalUpdates.substitutions content)
        as [c [[p1 p2] changes]].
      eexists _, _. split; [reflexivity|]. vm_compute. left.
    + split; [exact H1|]. split; [exact H2|].
      apply H3. intros E. exact (func_update_backup_path_differs (eq_sym E)).
  - destruct (raises_at_first_print pf env d Hmark
                (replace_ui_components_py pf env)
                replace_ui_components_steps
                (replace_ui_components_py_steps pf env)
                file_path
                (fun text =>
                   concat (ReplaceUiComponents.new_lines (text_lines text))))
      as (H1 & H2 & _ & H4).
    + intros text. unfold replace_ui_components_steps.
      eexists _, _. split; [reflexivity|].
      apply elem_of_app. left. vm_compute. left.
    + split; [exact H1|]. split; [exact H2|]. exact H4.
Qed.

Lemma console_without_check_mark_witness :
  (migrate_phase_py (db := ascii_db) posix_latin1 no_faults
     (Machine {[file_path := bytes_of "if (phase === 1) {}"]} [] [])).2
  = Raised
  /\ disk (migrate_phase_py (db := ascii_db) posix_latin1 no_faults
             (Machine {[file_path := bytes_of "if (phase === 1) {}"]}
                [] [])).1 !! file_path
     = Some (bytes_of "if (phase === 1) {}").
Proof.
  destruct (proj1 (console_without_check_mark (db := ascii_db) posix_latin1
                     no_faults
                     {[file_path := bytes_of "if (phase === 1) {}"]}
                     eq_refl))
    as (H1 & _ & H3).
  split; [exact H1|]. rewrite H3. apply lookup_singleton_eq.
Defined.

(** ** The text level is the disk seen through text mode *)
Section TextView.
Context `{db : UnicodeDB}.
Variable pf : platform.
Variable env : nat -> outcome.
Variable d : gmap string (list N).
Hypothesis Hlinesep : linesep_ok pf.

(** A text the scripts wrote, read back. *)
Lemma written_reads_back (text : str) :
  Forall (fun c => c <> 13%N) text ->
  is_Some (encode_text (linesep pf) text) ->
  decode_text (default [] (encode_text (linesep pf) text)) = Some text.
Proof.
  intros Hcr [bs Hbs]. rewrite Hbs. cbn [default].
  exact (decode_encode_text pf text bs Hlinesep Hcr Hbs).
Qed.

Lemma migrate_phase_view :
  (migrate_phase_py pf env (Machine d [] [])).2 = Ret tt ->
  omap decode_text (disk (migrate_phase_py pf env (Machine d [] [])).1)
  = files (MigratePhase.main no_faults (World (omap decode_text d) [])).1.
Proof.
  intros Hend.
  destruct (script_runs_to_end pf env d Hlinesep (migrate_phase_py pf env)
              migrate_phase_steps (migrate_phase_py_steps pf env))
    as [Hiff Hstate].
  { intros text Ht. rewrite migrate_phase_written.
    constructor; [exact Ht|]. constructor; [|constructor].
    apply phase_substitutions_scalar, Ht. }
  destruct (proj1 Hiff Hend) as (src & text & Hd & Ht & _ & _).
  destruct (Hstate src text Hd Ht Hend) as (_ & Hdisk & Hw).
  rewrite Hdisk. rewrite migrate_phase_written in Hw.
  apply Forall_cons in Hw as [Hw1 Hw2]. apply Forall_cons in Hw2 as [Hw2 _].
  pose proof (decode_text_no_cr src text Ht) as Hcr.
  pose proof (phase_substitutions_no_cr text Hcr) as Hcr'.
  rewrite (phase_main_completes no_faults (omap decode_text d) text)
    by (reflexivity || (rewrite lookup_omap, Hd; exact Ht)).
  cbn [fst files]. unfold migrate_phase_steps.
  destruct (MigratePhase.substitutions text) as [[c counts] changes].
  cbn [fst disk_after] in *.
  rewrite (omap_insert_Some decode_text _ _ _ c)
    by (apply written_reads_back; assumption).
  rewrite (omap_insert_Some decode_text _ _ _ text)
    by (apply written_reads_back; assumption).
  reflexivity.
Qed.

Lemma fix_functional_updates_view :
  (fix_functional_updates_py pf env (Machine d [] [])).2 = Ret tt ->
  omap decode_text
    (disk (fix_functional_updates_py pf env (Machine d [] [])).1)
  = files (FixFunctionalUpdates.main no_faults
             (World (omap decode_text d) [])).1.
Proof.
  intros Hend.
  destruct (script_runs_to_end pf env d Hlinesep
              (fix_functional_updates_py pf env)
              fix_functional_updates_steps
              (fix_functional_updates_py_steps pf env))
    as [Hiff Hstate].
  { intros text Ht. rewrite fix_functional_updates_written.
    constructor; [exact Ht|]. constructor; [|constructor].
    apply func_update_substitutions_scalar, Ht. }
  destruct (proj1 Hiff Hend) as (src & text & Hd & Ht & _ & _).
  destruct (Hstate src text Hd Ht Hend) as (_ & Hdisk & Hw).
  rewrite Hdisk. rewrite fix_functional_updates_written in Hw.
  apply Forall_cons in Hw as [Hw1 Hw2]. apply Forall_cons in Hw2 as [Hw2 _].
  pose proof (decode_text_no_cr src text Ht) as Hcr.
  pose proof (func_update_substitutions_no_cr text Hcr) as Hcr'.
  rewrite (func_update_main_completes no_faults (omap decode_text d) text)
    by (reflexivity || (rewrite lookup_omap, Hd; exact Ht)).
  cbn [fst files]. unfold fix_functional_updates_steps.
  destruct (FixFunctionalUpdates.substitutions text)
    as [c [[p1 p2] changes]].
  cbn [fst disk_after] in *.
  rewrite (omap_insert_Some decode_text _ _ _ c)
    by (apply written_reads_back; assumption).
  rewrite (omap_insert_Some decode_text _ _ _ text)
    by (apply written_reads_back; assumption).
  reflexivity.
Qed.

End TextView.

Lemma replace_ui_components_view (pf : platform) (env : nat -> outcome)
    (d : gmap string (list N)) :
  linesep_ok pf ->
  (replace_ui_components_py pf env (Machine d [] [])).2 = Ret tt ->
  omap decode_text
    (disk (replace_ui_components_py pf env (Machine d [] [])).1)
  = files (ReplaceUiComponents.main no_faults
             (World (omap decode_text d) [])).1.
Proof.
  intros Hlinesep Hend.
  destruct (script_runs_to_end pf env d Hlinesep
              (replace_ui_components_py pf env)
              replace_ui_components_steps
              (replace_ui_components_py_steps pf env))
    as [Hiff Hstate].
  { intros text Ht. constructor; [|constructor].
    apply new_lines_scalar, Ht. }
  destruct (proj1 Hiff Hend) as (src & text & Hd & Ht & _ & _).
  destruct (Hstate src text Hd Ht Hend) as (_ & Hdisk & Hw).
  rewrite Hdisk. apply Forall_cons in Hw as [Hw _].
  pose proof (new_lines_no_cr text (decode_text_no_cr src text Ht)) as Hcr.
  rewrite (main_completes no_faults (omap decode_text d) text)
    by (reflexivity || (rewrite lookup_omap, Hd; exact Ht)).
  cbn [fst files]. unfold replace_ui_components_steps.
  cbn [disk_after].
  rewrite (omap_insert_Some decode_text _ _ _
             (concat (ReplaceUiComponents.new_lines (text_lines text))))
    by (apply written_reads_back; assumption).
  reflexivity.
Qed.

(** X15: the text level is the disk seen through text mode.  When a
    run of a script ends normally, the files it leaves on disk, read in
    text mode, are the files the text-level run of the script leaves
    from the files of the disk read in text mode: what the scripts write
    holds no [CR] and can be encoded, so it is read back as it was
    written, whatever [os.linesep]. *)
Theorem text_level_is_the_view `{db : UnicodeDB} (pf : platform)
    (env : nat -> outcome) (d : gmap string (list N)) :
  linesep_ok pf ->
  ((migrate_phase_py pf env (Machine d [] [])).2 = Ret tt ->
   omap decode_text (disk (migrate_phase_py pf env (Machine d [] [])).1)
   = files (MigratePhase.main no_faults (World (omap decode_text d) [])).1)
  /\ ((fix_functional_updates_py pf env (Machine d [] [])).2 = Ret tt ->
      omap decode_text
        (disk (fix_functional_updates_py pf env (Machine d [] [])).1)
      = files (FixFunctionalUpdates.main no_faults
                 (World (omap decode_text d) [])).1)
  /\ ((replace_ui_components_py pf env (Machine d [] [])).2 = Ret tt ->
      omap decode_text
        (disk (replace_ui_components_py pf env (Machine d [] [])).1)
      = files (ReplaceUiComponents.main no_faults
                 (World (omap decode_text d) [])).1).
Proof.
  intros Hls. split; [|split].
  - apply migrate_phase_view, Hls.
  - apply fix_functional_updates_view, Hls.
  - apply replace_ui_components_view, Hls.
Qed.

Lemma text_level_is_the_view_witness :
  omap decode_text
    (disk (migrate_phase_py (db := ascii_db)
             (Platform [13; 10]%N scalar) no_faults
             (Machine {[file_path := bytes_of "if (phase === 1) {}"]}
                [] [])).1)
  = files (MigratePhase.main (db := ascii_db) no_faults
             (World
                (omap decode_text
                   {[file_path := bytes_of "if (phase === 1) {}"]})
                [])).1.
Proof.
  apply (proj1 (text_level_is_the_view (db := ascii_db)
                  (Platform [13; 10]%N scalar) no_faults
                  {[file_path := bytes_of "if (phase === 1) {}"]}
                  (or_intror eq_refl))).
  vm_compute. reflexivity.
Defined.
